(** * Scroll animation library ([script.js]): a shallow embedding

    The development follows the source file top-down: first the parts of
    the JavaScript platform the script calls (strings, numbers, [Math],
    the DOM, the intersection observer, animation frames), then the
    methods of [class ScrollAnimator] under the names the source gives
    them, then the properties.

    Numbers.  A JavaScript Number is modelled by [number]: the special
    values (NaN, the two infinities, the sign of zero) and, for every other
    number, its value, a real.  The result of an operation is the double
    nearest to the exact result ([Float.round], ties to even), an infinity
    from [2 ^ 1024] on and a signed zero below the least subnormal.
    [Math.atan2] is left to the implementation by ECMAScript; the model
    takes the double nearest to the exact angle.

    Strings.  A string is its text in UTF-8, so that a character outside
    ASCII takes two to four bytes; the script cuts strings at ASCII
    characters only. *)

From Stdlib Require Import Reals Lra Lia ZArith String Ascii.
From stdpp Require Import gmap strings list sorting.

Local Open Scope string_scope.

(** ** JavaScript strings *)

Module Js.

(** [s.split(sep)] for a one-character separator: the pieces between
    the occurrences of [sep]; always at least one piece. *)
Fixpoint split (sep : ascii) (s : string) : list string :=
  match s with
  | EmptyString => [EmptyString]
  | String c rest =>
      if Ascii.eqb c sep then EmptyString :: split sep rest
      else match split sep rest with
           | piece :: pieces => String c piece :: pieces
           | [] => [String c EmptyString]
           end
  end.

(** [!s] is false exactly for a non-empty string. *)
Definition truthy (s : string) : bool :=
  match s with
  | EmptyString => false
  | String _ _ => true
  end.

(** White space and line terminators skipped by [parseFloat]: those of
    one byte (TAB, LF, VT, FF, CR, SP), of two bytes (U+00A0) and of three
    bytes (U+1680, U+2000 to U+200A, U+2028, U+2029, U+202F, U+205F,
    U+3000, U+FEFF). *)
Definition is_whitespace (c : ascii) : bool :=
  let n := nat_of_ascii c in
  ((9 <=? n) && (n <=? 13))%nat || (n =? 32)%nat.

Definition is_whitespace2 (c d : ascii) : bool :=
  ((nat_of_ascii c =? 194) && (nat_of_ascii d =? 160))%nat.

Definition is_whitespace3 (c d e : ascii) : bool :=
  let '(c, d, e) := (nat_of_ascii c, nat_of_ascii d, nat_of_ascii e) in
  ((c =? 225) && (d =? 154) && (e =? 128)
   || (c =? 226) && (d =? 128)
      && ((128 <=? e) && (e <=? 138) || (e =? 168) || (e =? 169) || (e =? 175))
   || (c =? 226) && (d =? 129) && (e =? 159)
   || (c =? 227) && (d =? 128) && (e =? 128)
   || (c =? 239) && (d =? 187) && (e =? 191))%nat.

Fixpoint skip_whitespace (s : string) : string :=
  match s with
  | String c rest =>
      if is_whitespace c then skip_whitespace rest
      else
        match rest with
        | String d rest2 =>
            if is_whitespace2 c d then skip_whitespace rest2
            else
              match rest2 with
              | String e rest3 =>
                  if is_whitespace3 c d e then skip_whitespace rest3 else s
              | EmptyString => s
              end
        | EmptyString => s
        end
  | EmptyString => s
  end.

Definition is_digit (c : ascii) : bool :=
  let n := nat_of_ascii c in ((48 <=? n) && (n <=? 57))%nat.

Definition digit_value (c : ascii) : Z := Z.of_nat (nat_of_ascii c - 48).

(** Reads the longest run of decimal digits at the head of [s]:
    returns the value of [acc] followed by those digits, how many digits
    were read, and the rest of the string. *)
Fixpoint read_digits (s : string) (acc : Z) (count : nat) : Z * nat * string :=
  match s with
  | String c rest =>
      if is_digit c then read_digits rest (10 * acc + digit_value c)%Z (S count)
      else (acc, count, s)
  | EmptyString => (acc, count, s)
  end.

Fixpoint strip_prefix (p s : string) : option string :=
  match p, s with
  | EmptyString, _ => Some s
  | String a p', String b s' => if Ascii.eqb a b then strip_prefix p' s' else None
  | String _ _, EmptyString => None
  end.

(** The value denoted by a [StrDecimalLiteral]: a sign and either
    Infinity or the decimal [mantissa * 10 ^ exponent]. *)
Inductive magnitude :=
  | MInfinity
  | MDecimal (mantissa : Z) (exponent : Z).

Record literal := Literal { lit_negative : bool; lit_magnitude : magnitude }.

(** [ExponentPart]: [e] or [E], an optional sign, at least one digit.
    An incomplete exponent is not part of the literal. *)
Definition read_exponent (s : string) : Z :=
  match s with
  | String c rest =>
      if Ascii.eqb c "e" || Ascii.eqb c "E" then
        let '(neg, body) :=
          match rest with
          | String "+" r => (false, r)
          | String "-" r => (true, r)
          | _ => (false, rest)
          end in
        let '(e, n, _) := read_digits body 0%Z 0 in
        match n with
        | O => 0%Z
        | S _ => if neg then (- e)%Z else e
        end
      else 0%Z
  | EmptyString => 0%Z
  end.

(** [StrUnsignedDecimalLiteral], longest prefix. *)
Definition read_unsigned (s : string) : option magnitude :=
  match strip_prefix "Infinity" s with
  | Some _ => Some MInfinity
  | None =>
      let '(int_part, int_digits, after_int) := read_digits s 0%Z 0 in
      match after_int with
      | String "." after_dot =>
          let '(mant, all_digits, after_frac) :=
            read_digits after_dot int_part int_digits in
          match all_digits with
          | O => None
          | S _ =>
              Some (MDecimal mant
                      (read_exponent after_frac
                       - Z.of_nat (all_digits - int_digits))%Z)
          end
      | _ =>
          match int_digits with
          | O => None
          | S _ => Some (MDecimal int_part (read_exponent after_int))
          end
      end
  end.

(** [StrDecimalLiteral]: an optional sign and an unsigned literal. *)
Definition read_literal (s : string) : option literal :=
  match s with
  | String "+" rest => Literal false <$> read_unsigned rest
  | String "-" rest => Literal true <$> read_unsigned rest
  | _ => Literal false <$> read_unsigned s
  end.

End Js.

(** ** JavaScript numbers *)

Local Open Scope R_scope.

#[global] Instance Rlt_decision : RelDecision Rlt := Rlt_dec.
#[global] Instance Rle_decision : RelDecision Rle := Rle_dec.
#[global] Instance Req_decision : RelDecision (@eq R) := Req_dec_T.

(** ** Doubles *)

Module Float.

(** [2 ^ e] *)
Definition bpow (e : Z) : R := powerRZ 2 e.

(** The exponent of [x], not zero: [2 ^ e <= |x| < 2 ^ (e + 1)]. *)
Definition exponent (x : R) : Z := Zfloor (ln (Rabs x) / ln 2).

(** The exponent of the last place of a double near [x]: 52 places
    below the leading one, and [-1074] for a subnormal. *)
Definition quantum (x : R) : Z := (Z.max (exponent x) (-1022) - 52)%Z.

(** The nearest integer, a tie going to the even one. *)
Definition nearest_even (x : R) : Z :=
  let f := Zfloor x in
  if decide (x - IZR f < 1 / 2) then f
  else if decide (1 / 2 < x - IZR f) then (f + 1)%Z
  else if Z.even f then f else (f + 1)%Z.

(** The double nearest to [x], a tie going to the even significand;
    the exponent is not bounded above here: [Num.make] turns a result from
    [2 ^ 1024] on into an infinity. *)
Definition round (x : R) : R :=
  if decide (x = 0) then 0
  else IZR (nearest_even (x / bpow (quantum x))) * bpow (quantum x).

End Float.

Arguments Float.bpow : simpl never.
Arguments Float.round : simpl never.

(** [Fin 0] is the positive zero; [NegZero] is [-0]. *)
Inductive number :=
  | NaN
  | PosInf
  | NegInf
  | NegZero
  | Fin (r : R).

Module Num.

Definition isNaN (x : number) : bool :=
  match x with NaN => true | _ => false end.

(** The sign bit. *)
Definition negative (x : number) : bool :=
  match x with
  | NegInf | NegZero => true
  | Fin r => bool_decide (r < 0)
  | NaN | PosInf => false
  end.

(** The absolute value of a number that is not NaN; [None] is infinity. *)
Definition abs (x : number) : option R :=
  match x with
  | NaN | PosInf | NegInf => None
  | NegZero => Some 0
  | Fin r => Some (Rabs r)
  end.

(** The Number value for the given sign bit and absolute value: the
    absolute value is rounded to the nearest double; from [2 ^ 1024] on
    the result is an infinity. *)
Definition make (neg : bool) (m : option R) : number :=
  match m with
  | None => if neg then NegInf else PosInf
  | Some r =>
      let r := Float.round r in
      if decide (Float.bpow 1024 <= r) then (if neg then NegInf else PosInf)
      else if decide (r = 0) then (if neg then NegZero else Fin 0)
      else Fin (if neg then - r else r)
  end.

(** The Number value for a real. *)
Definition of_real (r : R) : number :=
  make (bool_decide (r < 0)) (Some (Rabs r)).

(** [- x]. *)
Definition neg (x : number) : number :=
  match x with
  | NaN => NaN
  | PosInf => NegInf
  | NegInf => PosInf
  | NegZero => Fin 0
  | Fin r => if decide (r = 0) then NegZero else Fin (- r)
  end.

(** [x + y]; a sum that is exactly zero is [+0] unless both terms
    are [-0]. *)
Definition add (x y : number) : number :=
  match x, y with
  | NaN, _ | _, NaN => NaN
  | PosInf, NegInf | NegInf, PosInf => NaN
  | PosInf, _ | _, PosInf => PosInf
  | NegInf, _ | _, NegInf => NegInf
  | NegZero, NegZero => NegZero
  | NegZero, Fin r | Fin r, NegZero => Fin r
  | Fin a, Fin b => if decide (a + b = 0) then Fin 0 else of_real (a + b)
  end.

(** [x * y]. *)
Definition mul (x y : number) : number :=
  if isNaN x || isNaN y then NaN
  else
    let neg := xorb (negative x) (negative y) in
    match abs x, abs y with
    | None, None => make neg None
    | None, Some r | Some r, None =>
        if decide (r = 0) then NaN else make neg None
    | Some a, Some b => make neg (Some (a * b))
    end.

(** [x / y]. *)
Definition div (x y : number) : number :=
  if isNaN x || isNaN y then NaN
  else
    let neg := xorb (negative x) (negative y) in
    match abs x, abs y with
    | None, None => NaN
    | None, Some _ => make neg None
    | Some _, None => make neg (Some 0)
    | Some a, Some b =>
        if decide (b = 0) then (if decide (a = 0) then NaN else make neg None)
        else make neg (Some (a / b))
    end.

(** The mathematical value of a finite number. *)
Definition value (x : number) : option R :=
  match x with
  | Fin r => Some r
  | NegZero => Some 0
  | NaN | PosInf | NegInf => None
  end.

(** The decimal [mantissa * 10 ^ exponent]. *)
Definition decimal_value (mantissa exponent : Z) : R :=
  if (0 <=? exponent)%Z then IZR (mantissa * 10 ^ exponent)
  else IZR mantissa / IZR (10 ^ (- exponent)).

Definition of_literal (l : Js.literal) : number :=
  match Js.lit_magnitude l with
  | Js.MInfinity => if Js.lit_negative l then NegInf else PosInf
  | Js.MDecimal m e => make (Js.lit_negative l) (Some (decimal_value m e))
  end.

End Num.

Arguments Num.make : simpl never.
Arguments Num.of_real : simpl never.

(** [parseFloat(s)]: skips leading white space, reads the longest
    prefix that is a decimal literal, NaN when there is none. *)
Definition parseFloat (s : string) : number :=
  match Js.read_literal (Js.skip_whitespace s) with
  | Some l => Num.of_literal l
  | None => NaN
  end.

(** ** [Math] *)

Module Math.

(** [Math.PI], the Number value for pi. *)
Definition PI : number := Num.of_real Rtrigo1.PI.

(** The angle of the point [(x, y)] for finite non-zero [x] and [y]. *)
Definition angle (y x : R) : R :=
  if decide (0 < x) then atan (y / x)
  else if decide (0 < y) then atan (y / x) + Rtrigo1.PI
  else atan (y / x) - Rtrigo1.PI.

(** [Math.atan2(y, x)], case by case as ECMAScript lists them; each
    result is the Number value for the angle. *)
Definition atan2 (y x : number) : number :=
  match y, x with
  | NaN, _ | _, NaN => NaN
  | PosInf, PosInf => Num.of_real (Rtrigo1.PI / 4)
  | PosInf, NegInf => Num.of_real (3 * Rtrigo1.PI / 4)
  | PosInf, _ => Num.of_real (Rtrigo1.PI / 2)
  | NegInf, PosInf => Num.of_real (- Rtrigo1.PI / 4)
  | NegInf, NegInf => Num.of_real (- 3 * Rtrigo1.PI / 4)
  | NegInf, _ => Num.of_real (- Rtrigo1.PI / 2)
  | NegZero, _ => if Num.negative x then Num.of_real (- Rtrigo1.PI) else NegZero
  | Fin ry, _ =>
      if decide (ry = 0) then
        (if Num.negative x then Num.of_real Rtrigo1.PI else Fin 0)
      else
        match x with
        | PosInf => if decide (0 < ry) then Fin 0 else NegZero
        | NegInf =>
            if decide (0 < ry) then Num.of_real Rtrigo1.PI
            else Num.of_real (- Rtrigo1.PI)
        | Fin rx =>
            if decide (rx = 0) then
              (if decide (0 < ry) then Num.of_real (Rtrigo1.PI / 2)
               else Num.of_real (- Rtrigo1.PI / 2))
            else Num.of_real (angle ry rx)
        | _ =>
            if decide (0 < ry) then Num.of_real (Rtrigo1.PI / 2)
            else Num.of_real (- Rtrigo1.PI / 2)
        end
  end.

(** [Math.round(x)]: the nearest integer, a tie going up; [-0] for
    [-0.5 <= x < 0]. *)
Definition round (x : number) : number :=
  match x with
  | Fin r =>
      if decide (r < 0) then
        (if decide (-1 / 2 <= r) then NegZero else Fin (IZR (Zfloor (r + 1 / 2))))
      else Fin (IZR (Zfloor (r + 1 / 2)))
  | _ => x
  end.

End Math.

(** ** Completions, the console, the page *)

Inductive error := TypeError.

(** How a JavaScript computation ends: with a value or by throwing. *)
Inductive completion (A : Type) :=
  | Normal (a : A)
  | Throw (e : error).
Arguments Normal {A} a.
Arguments Throw {A} e.

#[global] Instance completion_ret : MRet completion := fun A (a : A) => Normal a.

#[global] Instance completion_bind : MBind completion :=
  fun A B (k : A -> completion B) (c : completion A) =>
    match c with
    | Normal a => k a
    | Throw e => Throw e
    end.

(** Reading a property of [v]: a [TypeError] when [v] is [undefined]. *)
Definition member {A} (v : option A) : completion A :=
  match v with
  | Some a => Normal a
  | None => Throw TypeError
  end.

Inductive console_entry :=
  | Warn (message : string) (argument : string).

(** The value of an inline [style.transform]: some text, or the
    template [translateY(${yPos}px) rotate(${rotation}deg)] kept with its
    two numbers. *)
Inductive transform_value :=
  | TransformText (text : string)
  | TranslateYRotate (yPos : R) (rotation : number).

(** The value of an inline [style.transitionDelay]: some text, or what
    the browser makes of assigning [text] where the value was [before]
    (the text in the browser's spelling if it is a valid list of times,
    [before] if it is not). *)
Inductive delay_value :=
  | DelayText (text : string)
  | DelayAssigned (text : string) (before : delay_value).

Module Css.

(** The text [translateY(${yPos}px) rotate(${rotation}deg)] as a
    transform.  A finite Number is printed as a number of CSS; [Infinity]
    and [NaN] are not numbers of CSS, and with one of them the text is not
    a transform. *)
Definition translateY_rotate (yPos rotation : number) : option transform_value :=
  match Num.value yPos, Num.value rotation with
  | Some y, Some _ => Some (TranslateYRotate y rotation)
  | _, _ => None
  end.

Fixpoint all_digits (s : string) : bool :=
  match s with
  | EmptyString => true
  | String c rest => Js.is_digit c && all_digits rest
  end.

(** A whole number of at most six digits written without a leading
    zero: as a number of CSS it is valid, and it is written back as it
    stands. *)
Definition plain_number (s : string) : bool :=
  match s with
  | EmptyString => false
  | String c rest =>
      all_digits s && (String.length s <=? 6)%nat
      && (negb (Ascii.eqb c "0") || String.eqb rest "")
  end.

(** The text before a final [ms]. *)
Fixpoint before_ms (s : string) : option string :=
  match s with
  | EmptyString => None
  | String c rest =>
      if String.eqb s "ms" then Some EmptyString
      else String c <$> before_ms rest
  end.

Definition plain_milliseconds (text : string) : bool :=
  match before_ms text with
  | Some n => plain_number n
  | None => false
  end.

(** [style.transitionDelay = text].  The empty text removes the
    declaration and a plain number of milliseconds is kept as written;
    what the browser makes of any other text is left open, except that
    assigning the same text once more changes nothing (it is rejected
    again, or read as the same value again). *)
Definition assign_delay (text : string) (before : delay_value) : delay_value :=
  if String.eqb text "" then DelayText ""
  else if plain_milliseconds text then DelayText text
  else
    match before with
    | DelayAssigned text' _ =>
        if String.eqb text' text then before else DelayAssigned text before
    | DelayText _ => DelayAssigned text before
    end.

End Css.

Record Style := mkStyle {
  transitionDelay : delay_value;
  transform : transform_value
}.

(** A node of the document.  [cascade] stands for the style sheets of
    the page as they bear on the node: the text that the browser reports
    as the node's computed transform, given the node's classes and its
    inline transform.  It comes with the page; the script cannot change
    it.  What else the browser's answer can depend on, the classes of the
    ancestors and a transition that is under way, is left out. *)
Record Element := mkElement {
  parentElement : option nat;
  attributes : gmap string string;
  classList : gset string;
  style : Style;
  cascade : gset string -> transform_value -> string
}.

(** [getComputedStyle(node).transform], as of now. *)
Definition computedTransform (el : Element) : string :=
  cascade el (classList el) (transform (style el)).

(** The document is the list of its elements in document order; an
    element is named by its position. *)
Abbreviation Document := (list Element).

Record IntersectionObserver := mkObserver {
  io_threshold : R;
  io_rootMargin : R;
  targets : gset nat
}.

Record IntersectionObserverEntry := mkEntry {
  target : nat;
  isIntersecting : bool
}.

(** The page: the document, [window.pageYOffset], the console, and the
    scheduling state.  The scroll offset is a finite Number; the model
    takes any real for it.  [tickings] holds the [ticking] variable of each
    closure made by [addParallaxEffect], in the order the scroll
    listeners were added; [frameRequests] lists the pending
    [requestAnimationFrame] callbacks, each named by its closure. *)
Record Page := mkPage {
  document : Document;
  pageYOffset : R;
  console : list console_entry;
  tickings : list bool;
  frameRequests : list nat
}.

Definition set_document (doc : Document) (pg : Page) : Page :=
  mkPage doc (pageYOffset pg) (console pg) (tickings pg) (frameRequests pg).

Definition set_pageYOffset (y : R) (pg : Page) : Page :=
  mkPage (document pg) y (console pg) (tickings pg) (frameRequests pg).

Definition console_warn (message argument : string) (pg : Page) : Page :=
  mkPage (document pg) (pageYOffset pg)
    (console pg ++ [Warn message argument]) (tickings pg) (frameRequests pg).

Definition set_tickings (ts : list bool) (pg : Page) : Page :=
  mkPage (document pg) (pageYOffset pg) (console pg) ts (frameRequests pg).

Definition set_frameRequests (rs : list nat) (pg : Page) : Page :=
  mkPage (document pg) (pageYOffset pg) (console pg) (tickings pg) rs.

(** Computations on the page that may throw. *)
Definition eff (A : Type) : Type := Page -> completion A * Page.

#[global] Instance eff_ret : MRet eff :=
  fun A (a : A) pg => (Normal a, pg).

#[global] Instance eff_bind : MBind eff :=
  fun A B (k : A -> eff B) (m : eff A) pg =>
    match m pg with
    | (Normal a, pg') => k a pg'
    | (Throw e, pg') => (Throw e, pg')
    end.

(** [try { body } catch (e) { handler }]. *)
Definition try_catch {A} (body : eff A) (handler : error -> eff A) : eff A :=
  fun pg =>
    match body pg with
    | (Normal a, pg') => (Normal a, pg')
    | (Throw e, pg') => handler e pg'
    end.

(** A pure computation that may throw, run on the page. *)
Definition lift {A} (c : completion A) : eff A := fun pg => (c, pg).

(** [list.forEach((x, index) => f)], from position [index] on. *)
Fixpoint forEach {A} (f : A -> nat -> eff unit) (l : list A) (index : nat)
  : eff unit :=
  match l with
  | [] => mret tt
  | x :: rest => f x index ;; forEach f rest (S index)
  end.

Definition gets {A} (f : Page -> A) : eff A := fun pg => (Normal (f pg), pg).

Definition modify (f : Page -> Page) : eff unit := fun pg => (Normal tt, f pg).

(** ** The DOM *)

Module Dom.

Inductive selector :=
  | HasAttribute (name : string)
  | HasClass (name : string).

Definition getAttribute (name : string) (el : Element) : option string :=
  attributes el !! name.

Definition contains (class : string) (el : Element) : bool :=
  bool_decide (class ∈ classList el).

Definition matches (sel : selector) (el : Element) : bool :=
  match sel with
  | HasAttribute name => bool_decide (is_Some (getAttribute name el))
  | HasClass name => contains name el
  end.

(** The positions, from [index] on, of the elements that match. *)
Fixpoint select (sel : selector) (doc : Document) (index : nat) : list nat :=
  match doc with
  | [] => []
  | el :: rest =>
      if matches sel el then index :: select sel rest (S index)
      else select sel rest (S index)
  end.

(** [document.querySelectorAll(sel)]: the matching elements in
    document order. *)
Definition querySelectorAll (sel : selector) (doc : Document) : list nat :=
  select sel doc 0.

(** [node.closest(sel)]: the node itself or its nearest ancestor that
    matches; [fuel] bounds the walk to the root. *)
Fixpoint closest_within (fuel : nat) (sel : selector) (doc : Document)
    (node : nat) : option nat :=
  match fuel with
  | O => None
  | S fuel' =>
      match doc !! node with
      | None => None
      | Some el =>
          if matches sel el then Some node
          else match parentElement el with
               | None => None
               | Some p => closest_within fuel' sel doc p
               end
      end
  end.

Definition closest (sel : selector) (doc : Document) (node : nat) : option nat :=
  closest_within (length doc) sel doc node.

(** In document order a parent comes before its children. *)
Definition well_formed (doc : Document) : Prop :=
  ∀ node el p, doc !! node = Some el -> parentElement el = Some p -> (p < node)%nat.

(** A reference that is not [null] is truthy. *)
Definition non_null {A} (o : option A) : bool :=
  match o with Some _ => true | None => false end.

Definition classList_add (class : string) (el : Element) : Element :=
  mkElement (parentElement el) (attributes el) (classList el ∪ {[class]})
    (style el) (cascade el).

Definition classList_remove (class : string) (el : Element) : Element :=
  mkElement (parentElement el) (attributes el) (classList el ∖ {[class]})
    (style el) (cascade el).

Definition set_transitionDelay (v : string) (el : Element) : Element :=
  mkElement (parentElement el) (attributes el) (classList el)
    (mkStyle (Css.assign_delay v (transitionDelay (style el)))
       (transform (style el)))
    (cascade el).

Definition set_transform (v : transform_value) (el : Element) : Element :=
  mkElement (parentElement el) (attributes el) (classList el)
    (mkStyle (transitionDelay (style el)) v) (cascade el).

(** [el.style.transform = text]: a text that is not a transform is
    dropped and the inline transform stays as it was. *)
Definition assign_transform (v : option transform_value) (el : Element) : Element :=
  match v with
  | Some t => set_transform t el
  | None => el
  end.

(** Applies [f] to the element at [node], in place. *)
Definition update (node : nat) (f : Element -> Element) (pg : Page) : Page :=
  set_document (alter f node (document pg)) pg.

Definition observe (node : nat) (obs : IntersectionObserver) : IntersectionObserver :=
  mkObserver (io_threshold obs) (io_rootMargin obs) (targets obs ∪ {[node]}).

Definition unobserve (node : nat) (obs : IntersectionObserver) : IntersectionObserver :=
  mkObserver (io_threshold obs) (io_rootMargin obs) (targets obs ∖ {[node]}).

End Dom.

(** ** [class ScrollAnimator] *)

Record Options := mkOptions {
  threshold : R;
  once : bool;
  offset : R
}.

(** The argument of the constructor: each option may be left out. *)
Record OptionsArg := mkOptionsArg {
  arg_threshold : option R;
  arg_once : option bool;
  arg_offset : option R
}.

(** The object after its constructor has returned ([elements] and
    [observer] are [[]] and [null] only until [init] assigns them). *)
Record ScrollAnimator := mkAnimator {
  options : Options;
  elements : list nat;
  observer : IntersectionObserver
}.

Definition set_observer (obs : IntersectionObserver) (this : ScrollAnimator)
  : ScrollAnimator :=
  mkAnimator (options this) (elements this) obs.

(** [{ threshold: 0.2, once: false, offset: 0, ...options }] *)
Definition merge_options (arg : OptionsArg) : Options :=
  mkOptions (default (2 / 10) (arg_threshold arg))
            (default false (arg_once arg))
            (default 0 (arg_offset arg)).

(** [matrix.split('(')[1].split(')')[0].split(',')] *)
Definition matrix_values (matrix : string) : completion (list string) :=
  inner ← member (Js.split "(" matrix !! 1%nat);
  body ← member (Js.split ")" inner !! 0%nat);
  mret (Js.split "," body).

(** [parseFloat(values[i])]; a missing item reads as [undefined]. *)
Definition parseFloat_at (values : list string) (i : nat) : number :=
  parseFloat (default "undefined" (values !! i)).

(** [getRotationFromMatrix]: the body of the [try] block. *)
Definition rotation_of_values (matrix : string) : completion number :=
  values ← matrix_values matrix;
  if (length values <? 2)%nat then mret (Fin 0)
  else
    let a := parseFloat_at values 0 in
    let b := parseFloat_at values 1 in
    if Num.isNaN a || Num.isNaN b then mret (Fin 0)
    else
      let angle :=
        Math.round (Num.mul (Math.atan2 b a) (Num.div (Fin 180) Math.PI)) in
      mret angle.

Definition getRotationFromMatrix (matrix : string) : eff number :=
  if String.eqb matrix "none" || negb (Js.truthy matrix) then mret (Fin 0)
  else
    try_catch (lift (rotation_of_values matrix))
      (fun e =>
         modify (console_warn "Failed to parse transform matrix:" matrix) ;;
         mret (Fin 0)).

(** [0.3 + (index * 0.1)] *)
Definition parallax_speed (index : nat) : number :=
  Num.add (Num.of_real (3 / 10))
          (Num.mul (Num.of_real (INR index)) (Num.of_real (1 / 10))).

(** [updateParallax]: the callback of [triangles.forEach]. *)
Definition parallax_triangle (scrolled : R) (triangle index : nat) : eff unit :=
  node ← gets (fun pg => document pg !! triangle);
  match node with
  | None => mret tt
  | Some el =>
      skip ← gets (fun pg =>
        Dom.non_null
          (Dom.closest (Dom.HasAttribute "data-scroll") (document pg) triangle)
        && negb (Dom.contains "animated" el));
      if (skip : bool) then mret tt
      else
        let speed := parallax_speed index in
        let yPos := Num.neg (Num.mul (Fin scrolled) speed) in
        let currentTransform := computedTransform el in
        rotation ← getRotationFromMatrix currentTransform;
        modify (Dom.update triangle
                  (Dom.assign_transform (Css.translateY_rotate yPos rotation)))
  end.

Definition updateParallax : eff unit :=
  scrolled ← gets pageYOffset;
  triangles ← gets (fun pg =>
    Dom.querySelectorAll (Dom.HasClass "triangle") (document pg));
  forEach (parallax_triangle scrolled) triangles 0%nat.

(** [addParallaxEffect]: a new [ticking] variable, [false], and a
    scroll listener closed over it. *)
Definition addParallaxEffect (pg : Page) : Page :=
  set_tickings (tickings pg ++ [false]) pg.

(** The callback given to [requestAnimationFrame] by listener [i]. *)
Definition frame_callback (i : nat) : eff unit :=
  updateParallax ;;
  modify (fun pg => set_tickings (<[i := false]> (tickings pg)) pg).

(** The scroll listener of closure [i]. *)
Definition scroll_listener (i : nat) (pg : Page) : Page :=
  match tickings pg !! i with
  | Some false =>
      let pg := set_frameRequests (frameRequests pg ++ [i]) pg in
      set_tickings (<[i := true]> (tickings pg)) pg
  | _ => pg
  end.

(** [init], the start of the loop body: the delay the element
    declares, if any, becomes its transition delay. *)
Definition apply_delay (el : Element) : Element :=
  match Dom.getAttribute "data-scroll-delay" el with
  | Some delay =>
      if Js.truthy delay then Dom.set_transitionDelay (delay ++ "ms") el
      else el
  | None => el
  end.

(** [init], the loop body for one element, statement by statement:
    first the delay, then [this.observer.observe(element)]. *)
Definition init_set_delay (element : nat) (st : IntersectionObserver * Document)
  : IntersectionObserver * Document :=
  (st.1, alter apply_delay element st.2).

Definition init_observe (element : nat) (st : IntersectionObserver * Document)
  : IntersectionObserver * Document :=
  (Dom.observe element st.1, st.2).

Definition init_element (st : IntersectionObserver * Document) (element : nat)
  : IntersectionObserver * Document :=
  init_observe element (init_set_delay element st).

(** The states the loop passes through: the state after each of the two
    statements, for each element in turn. *)
Fixpoint init_states (st : IntersectionObserver * Document) (elements : list nat)
  : list (IntersectionObserver * Document) :=
  match elements with
  | [] => []
  | element :: rest =>
      let delayed := init_set_delay element st in
      let observed := init_observe element delayed in
      delayed :: observed :: init_states observed rest
  end.

Definition init (opts : Options) (pg : Page) : ScrollAnimator * Page :=
  let elements := Dom.querySelectorAll (Dom.HasAttribute "data-scroll") (document pg) in
  let observer := mkObserver (threshold opts) (offset opts) ∅ in
  let st := foldl init_element (observer, document pg) elements in
  (mkAnimator opts elements st.1, addParallaxEffect (set_document st.2 pg)).

(** [new ScrollAnimator(options)] *)
Definition new_ScrollAnimator (arg : OptionsArg) (pg : Page) : ScrollAnimator * Page :=
  init (merge_options arg) pg.

Definition handle_entry (st : ScrollAnimator * Page) (entry : IntersectionObserverEntry)
  : ScrollAnimator * Page :=
  let '(this, pg) := st in
  if isIntersecting entry then
    let pg := Dom.update (target entry) (Dom.classList_add "animated") pg in
    if once (options this)
    then (set_observer (Dom.unobserve (target entry) (observer this)) this, pg)
    else (this, pg)
  else
    if negb (once (options this))
    then (this, Dom.update (target entry) (Dom.classList_remove "animated") pg)
    else (this, pg).

Definition handleIntersection (this : ScrollAnimator)
    (entries : list IntersectionObserverEntry) (pg : Page) : ScrollAnimator * Page :=
  foldl handle_entry (this, pg) entries.

Definition refresh (this : ScrollAnimator) (pg : Page) : ScrollAnimator * Page :=
  let this :=
    foldl (fun this element =>
             set_observer (Dom.unobserve element (observer this)) this)
          this (elements this) in
  init (options this) pg.

(** ** The browser's side *)

(** A scroll to offset [y]: every scroll listener runs, in the order
    the listeners were added. *)
Definition dispatch_scroll (y : R) (pg : Page) : Page :=
  let pg := set_pageYOffset y pg in
  foldl (fun pg i => scroll_listener i pg) pg (seq 0 (length (tickings pg))).

(** A display refresh: the callbacks requested so far run in order;
    one that throws does not stop the next. *)
Definition run_frame (pg : Page) : Page :=
  foldl (fun pg i => (frame_callback i pg).2)
        (set_frameRequests [] pg) (frameRequests pg).

(** What happens to a page with its controller: the page is scrolled,
    the display is refreshed, the watcher delivers a batch, or the page
    calls [refresh()]. *)
Inductive event :=
  | Scroll (y : R)
  | AnimationFrame
  | Intersection (entries : list IntersectionObserverEntry)
  | Refresh.

Definition step (st : ScrollAnimator * Page) (ev : event) : ScrollAnimator * Page :=
  match ev with
  | Scroll y => (st.1, dispatch_scroll y st.2)
  | AnimationFrame => (st.1, run_frame st.2)
  | Intersection entries => handleIntersection st.1 entries st.2
  | Refresh => refresh st.1 st.2
  end.

Definition run (st : ScrollAnimator * Page) (evs : list event) : ScrollAnimator * Page :=
  foldl step st evs.

(** The events among which [refresh()] is not called. *)
Definition refresh_free (evs : list event) : Prop :=
  Forall (fun ev => ev ≠ Refresh) evs.

(** A page as loaded: nothing logged, no listener yet. *)
Definition load (doc : Document) (y : R) : Page := mkPage doc y [] [] [].

(** Modelled from the spec: the visibility watcher is the browser's; of
    its notification for an element seen at ratio [r] by a watcher of
    threshold [t] the script reads only whether the element is
    "sufficiently visible (crossed the configured threshold)". *)
Definition notification (t r : R) (element : nat) : IntersectionObserverEntry :=
  mkEntry element (bool_decide (t <= r)).

(** ** Notions the properties are stated with *)

(** The element carries the class that marks it revealed. *)
Definition revealed (doc : Document) (element : nat) : Prop :=
  ∃ el, doc !! element = Some el ∧ "animated" ∈ classList el.

(** The inputs on which parsing fails: the sentinel or no matrix, a
    thrown error, fewer than two components, a component that is not
    numeric. *)
Definition parse_fails (matrix : string) : Prop :=
  matrix = "none" ∨ matrix = "" ∨
  match matrix_values matrix with
  | Throw _ => True
  | Normal values =>
      (length values < 2)%nat
      ∨ parseFloat_at values 0 = NaN ∨ parseFloat_at values 1 = NaN
  end.

(** The inputs whose parse throws inside the [try] block. *)
Definition parse_throws (matrix : string) : Prop :=
  matrix ≠ "none" ∧ matrix ≠ "" ∧ ∃ e, matrix_values matrix = Throw e.

(** [theta] degrees, in radians. *)
Definition radians (theta : R) : R := theta * Rtrigo1.PI / 180.

(** [matrix] is the text of a matrix whose first two components read
    as numbers within [delta * rho] of [rho] times the cosine and of [rho]
    times the sine of [theta] degrees: a rotation by [theta], scaled by
    [rho], written to within [delta]. *)
Definition encodes_rotation (rho delta theta : R) (matrix : string) : Prop :=
  ∃ values a b,
    matrix_values matrix = Normal values
    ∧ (2 <= length values)%nat
    ∧ Num.value (parseFloat_at values 0) = Some a
    ∧ Num.value (parseFloat_at values 1) = Some b
    ∧ Rabs (a - rho * cos (radians theta)) <= delta * rho
    ∧ Rabs (b - rho * sin (radians theta)) <= delta * rho.

(** The rounding tolerance, in degrees, for a text written to within
    [delta]: what the error of the text can turn the angle by, and a
    margin for the rounding of the arithmetic. *)
Definition tolerance (delta : R) : R := 180 * delta + 1 / 10 ^ 12.

(** The warning logged when the parse throws. *)
Definition warning : string := "Failed to parse transform matrix:".

(** Rounding to the nearest integer, a tie going up, as [Math.round]. *)
Definition round_degrees (theta : R) : Z := Zfloor (theta + 1 / 2).

(** The angle [getRotationFromMatrix] returns. *)
Definition rotation (matrix : string) : number :=
  if String.eqb matrix "none" || negb (Js.truthy matrix) then Fin 0
  else match rotation_of_values matrix with
       | Normal angle => angle
       | Throw _ => Fin 0
       end.

(** The condition under which [updateParallax] leaves a triangle
    alone. *)
Definition skips (doc : Document) (triangle : nat) (el : Element) : bool :=
  Dom.non_null (Dom.closest (Dom.HasAttribute "data-scroll") doc triangle)
  && negb (Dom.contains "animated" el).

(** [-(scrolled * speed)] for the triangle at position [index]. *)
Definition parallax_offset (scrolled : R) (index : nat) : number :=
  Num.neg (Num.mul (Fin scrolled) (parallax_speed index)).

(** What [updateParallax] makes of the triangle at position [index]
    among the triangles. *)
Definition parallax (scrolled : R) (index : nat) (el : Element) : Element :=
  Dom.assign_transform
    (Css.translateY_rotate (parallax_offset scrolled index)
                           (rotation (computedTransform el)))
    el.

(** The formula [-(s * (0.3 + 0.1 * index))] with each constant and
    each operation rounded to the nearest double: the value of the offset
    when no operation overflows. *)
Definition speed_value (index : nat) : R :=
  Float.round (Float.round (3 / 10)
               + Float.round (INR index * Float.round (1 / 10))).

Definition offset_value (scrolled : R) (index : nat) : R :=
  - Float.round (scrolled * speed_value index).

(** The document without its inline transforms. *)
Definition erase (doc : Document) : Document :=
  Dom.set_transform (TransformText "") <$> doc.

(** The inline transition delay and transform of an element. *)
Definition delay_at (doc : Document) (element : nat) : option delay_value :=
  (fun el => transitionDelay (style el)) <$> doc !! element.

Definition transform_at (doc : Document) (element : nat) : option transform_value :=
  (fun el => transform (style el)) <$> doc !! element.

(** ** Sample pages *)

Definition blank_style : Style := mkStyle (DelayText "") (TransformText "").

(** The cascade of a node whose transform a rule of the style sheet
    fixes with [!important]: neither the classes nor the inline style
    show in the computed transform. *)
Definition pinned (text : string) : gset string -> transform_value -> string :=
  fun _ _ => text.

(** A watched element at the root. *)
Definition host : Element :=
  mkElement None {["data-scroll" := "fade-up"]} ∅ blank_style (pinned "none").

(** A triangle whose parent is the element at position 0. *)
Definition nested_triangle : Element :=
  mkElement (Some 0%nat) ∅ {["triangle"]} blank_style (pinned "none").

(** A triangle at the root. *)
Definition free_triangle : Element :=
  mkElement None ∅ {["triangle"]} blank_style (pinned "none").

(** A watched element that declares a delay. *)
Definition delayed_host : Element :=
  mkElement None {["data-scroll" := "fade-up"; "data-scroll-delay" := "200"]} ∅
    blank_style (pinned "none").

Definition no_options : OptionsArg := mkOptionsArg None None None.

Definition single_shot_options : OptionsArg := mkOptionsArg None (Some true) None.

(** ** Notions used in the proofs *)

(** Two pages that differ at most in their console and in the inline
    transforms of their documents. *)
Definition parallax_frame (pg pg' : Page) : Prop :=
  pageYOffset pg' = pageYOffset pg
  ∧ tickings pg' = tickings pg
  ∧ frameRequests pg' = frameRequests pg
  ∧ erase (document pg') = erase (document pg).

(** What [handleIntersection] does to the target of one entry. *)
Definition mark (once : bool) (intersecting : bool) (el : Element) : Element :=
  if intersecting then Dom.classList_add "animated" el
  else if once then el else Dom.classList_remove "animated" el.

(** What single-shot mode keeps, once [element] is revealed: the
    mark, whatever happens, and the element unobserved until a
    [refresh()]. *)
Definition single_shot_revealed (element : nat) (st : ScrollAnimator * Page) : Prop :=
  once (options st.1) = true ∧ revealed (document st.2) element.

Definition single_shot_kept (element : nat) (st : ScrollAnimator * Page) : Prop :=
  single_shot_revealed element st ∧ element ∉ targets (observer st.1).

(** The browser notifies a watcher about its targets only. *)
Definition deliverable (obs : IntersectionObserver)
    (entries : list IntersectionObserverEntry) : Prop :=
  ∀ entry, entry ∈ entries -> target entry ∈ targets obs.

(** The gate of a page with one scroll listener: nothing pending, or
    one recomputation pending. *)
Definition gate (pg : Page) : Prop :=
  (tickings pg = [false] ∧ frameRequests pg = [])
  ∨ (tickings pg = [true] ∧ frameRequests pg = [0%nat]).


(** ** Notions for the further properties *)

(** The text [s] contains the character [c]. *)
Fixpoint includes (c : ascii) (s : string) : bool :=
  match s with
  | EmptyString => false
  | String c' rest => Ascii.eqb c' c || includes c rest
  end.

(** The element carries the marker attribute. *)
Definition watched (el : Element) : Prop :=
  is_Some (Dom.getAttribute "data-scroll" el).

(** What [init] makes of an element. *)
Definition initialised (el : Element) : Element :=
  if bool_decide (watched el) then apply_delay el else el.

(** The texts for which [getRotationFromMatrix] logs its warning. *)
Definition warns (matrix : string) : bool :=
  negb (String.eqb matrix "none") && Js.truthy matrix
  && negb (includes "(" matrix).

(** The warnings one run of [updateParallax] logs for the given
    triangles. *)
Definition triangle_warnings (doc : Document) (triangle : nat) : list console_entry :=
  match doc !! triangle with
  | Some el =>
      if skips doc triangle el then []
      else if warns (computedTransform el)
           then [Warn warning (computedTransform el)] else []
  | None => []
  end.

Definition parallax_warnings (doc : Document) (triangles : list nat)
  : list console_entry :=
  flat_map (triangle_warnings doc) triangles.

(** Every listener has at most one callback pending, and its flag is
    set exactly when it has one. *)
Definition gates_ok (pg : Page) : Prop :=
  NoDup (frameRequests pg)
  ∧ ∀ i, i ∈ frameRequests pg ↔ tickings pg !! i = Some true.

(** How many times [refresh()] is called. *)
Fixpoint refreshes (evs : list event) : nat :=
  match evs with
  | [] => 0
  | Refresh :: rest => S (refreshes rest)
  | _ :: rest => refreshes rest
  end.

(** The first statement of [refresh]: the controller with every element
    of [this.elements] unobserved. *)
Definition unobserve_all (this : ScrollAnimator) : ScrollAnimator :=
  foldl (fun this element =>
           set_observer (Dom.unobserve element (observer this)) this)
        this (elements this).

(** Some entry of the batch reports [element] as intersecting. *)
Definition reported_visible (entries : list IntersectionObserverEntry)
    (element : nat) : Prop :=
  ∃ entry, entry ∈ entries ∧ target entry = element
           ∧ isIntersecting entry = true.

(** What holds of a controller and its page whatever happened: the
    controller holds the watched elements of the document, and its
    watcher watches none but these. *)
Definition subscribed (st : ScrollAnimator * Page) : Prop :=
  elements st.1
  = Dom.querySelectorAll (Dom.HasAttribute "data-scroll") (document st.2)
  ∧ targets (observer st.1) ⊆ list_to_set (elements st.1).

(** A history in which every batch the watcher delivers names targets
    of the controller's watcher only, as the browser's batches do. *)
Fixpoint deliverable_run (st : ScrollAnimator * Page) (evs : list event) : Prop :=
  match evs with
  | [] => True
  | ev :: rest =>
      match ev with
      | Intersection entries => deliverable (observer st.1) entries
      | _ => True
      end
      ∧ deliverable_run (step st ev) rest
  end.

(** The element at [n] is as [el] and the recomputation leaves it
    alone. *)
Definition left_alone (n : nat) (el : Element) (pg : Page) : Prop :=
  document pg !! n = Some el ∧ skips (document pg) n el = true.

(** * Properties *)

(** ** Numbers *)

(** ** Doubles *)

Section FloatFacts.

Import Float.

Lemma Rabs_le_inv x a : Rabs x <= a -> - a <= x <= a.
Proof. unfold Rabs. destruct (Rcase_abs x); lra. Qed.

Lemma bpow_pos e : 0 < bpow e.
Proof. apply powerRZ_lt. lra. Qed.

Lemma bpow_add a b : bpow (a + b) = bpow a * bpow b.
Proof. apply powerRZ_add. lra. Qed.

Lemma bpow_0 : bpow 0 = 1.
Proof. reflexivity. Qed.

Lemma bpow_1 : bpow 1 = 2.
Proof. unfold bpow. simpl. lra. Qed.

Lemma bpow_succ e : bpow (e + 1) = 2 * bpow e.
Proof. rewrite bpow_add, bpow_1. lra. Qed.

Lemma bpow_opp e : bpow (- e) = / bpow e.
Proof.
  pose proof (bpow_pos e). pose proof (bpow_add e (- e)) as H'.
  replace (e + - e)%Z with 0%Z in H' by lia. rewrite bpow_0 in H'.
  apply Rmult_eq_reg_l with (bpow e); [|lra]. rewrite <- H'. field. lra.
Qed.

Lemma bpow_sub a b : bpow (a - b) = bpow a / bpow b.
Proof. unfold Z.sub, Rdiv. by rewrite bpow_add, bpow_opp. Qed.

Lemma bpow_ln e : ln (bpow e) = IZR e * ln 2.
Proof. unfold bpow. rewrite powerRZ_Rpower by lra. apply ln_Rpower. Qed.

Lemma ln_2_pos : 0 < ln 2.
Proof. pose proof ln_lt_2. lra. Qed.

Lemma bpow_lt a b : (a < b)%Z -> bpow a < bpow b.
Proof.
  intros H. apply ln_lt_inv; [apply bpow_pos..|]. rewrite !bpow_ln.
  apply Rmult_lt_compat_r; [apply ln_2_pos|]. by apply IZR_lt.
Qed.

Lemma bpow_le a b : (a <= b)%Z -> bpow a <= bpow b.
Proof.
  intros H. destruct (Z.eq_dec a b) as [->|]; [lra|].
  apply Rlt_le, bpow_lt. lia.
Qed.

Lemma bpow_lt_inv a b : bpow a < bpow b -> (a < b)%Z.
Proof.
  intros H. destruct (Z_lt_le_dec a b) as [|Hle]; [done|].
  apply bpow_le in Hle. lra.
Qed.

Lemma bpow_IZR (n : Z) : (0 <= n)%Z -> bpow n = IZR (2 ^ n).
Proof.
  intros Hn. unfold bpow. destruct n as [|p|p]; [done| |lia].
  change (2 ^ Z.pos p)%Z with (Z.pow_pos 2 p). by rewrite Zpower_pos_powerRZ.
Qed.

Lemma exponent_unique x e :
  bpow e <= Rabs x < bpow (e + 1) -> exponent x = e.
Proof.
  intros [Hl Hu]. pose proof (bpow_pos e). pose proof ln_2_pos as Hln.
  unfold exponent. apply Zfloor_eq.
  assert (IZR e * ln 2 <= ln (Rabs x)) as H1.
  { rewrite <- bpow_ln. destruct Hl as [Hl| ->]; [|lra].
    apply Rlt_le, ln_increasing; lra. }
  assert (ln (Rabs x) < (IZR e + 1) * ln 2) as H2.
  { rewrite <- plus_IZR, <- bpow_ln. apply ln_increasing; lra. }
  split.
  - apply Rmult_le_reg_r with (ln 2); [done|].
    unfold Rdiv. rewrite Rmult_assoc, Rinv_l by lra. lra.
  - apply Rmult_lt_reg_r with (ln 2); [done|].
    unfold Rdiv. rewrite Rmult_assoc, Rinv_l by lra. lra.
Qed.

Lemma exponent_spec x :
  x <> 0 -> bpow (exponent x) <= Rabs x < bpow (exponent x + 1).
Proof.
  intros Hx. pose proof ln_2_pos as Hln.
  assert (0 < Rabs x) as Hpos by (by apply Rabs_pos_lt).
  unfold exponent. set (L := ln (Rabs x) / ln 2).
  pose proof (Zfloor_bound L) as [Hl Hu].
  assert (ln (Rabs x) = L * ln 2) as HL by (unfold L; field; lra).
  split.
  - destruct (Rle_lt_dec (bpow (Zfloor L)) (Rabs x)) as [|Hlt]; [done|].
    exfalso. apply ln_increasing in Hlt; [|done].
    rewrite bpow_ln, HL in Hlt.
    apply Rmult_lt_reg_r in Hlt; [lra|done].
  - apply ln_lt_inv; [done|apply bpow_pos|].
    rewrite bpow_ln, plus_IZR, HL. apply Rmult_lt_compat_r; [done|lra].
Qed.

Lemma exponent_opp x : exponent (- x) = exponent x.
Proof. unfold exponent. by rewrite Rabs_Ropp. Qed.

Lemma quantum_opp x : quantum (- x) = quantum x.
Proof. unfold quantum. by rewrite exponent_opp. Qed.

Lemma exponent_le x y :
  x <> 0 -> Rabs x <= Rabs y -> (exponent x <= exponent y)%Z.
Proof.
  intros Hx Hle.
  assert (y <> 0) as Hy.
  { intros ->. rewrite Rabs_R0 in Hle. apply Rabs_pos_lt in Hx. lra. }
  pose proof (exponent_spec x Hx) as [Hx1 Hx2].
  pose proof (exponent_spec y Hy) as [Hy1 Hy2].
  assert (bpow (exponent x) < bpow (exponent y + 1)) as H by lra.
  apply bpow_lt_inv in H. lia.
Qed.

(** ** Rounding to an integer *)

Lemma nearest_even_floor x :
  (Zfloor x <= nearest_even x <= Zfloor x + 1)%Z.
Proof. unfold nearest_even. repeat case_decide; try case_match; lia. Qed.

Lemma nearest_even_bound x : Rabs (IZR (nearest_even x) - x) <= 1 / 2.
Proof.
  pose proof (Zfloor_bound x) as [Hl Hu]. unfold nearest_even.
  repeat case_decide; try case_match; rewrite ?plus_IZR;
    apply Rabs_le; lra.
Qed.

Lemma nearest_even_near x m :
  Rabs (x - IZR m) < 1 / 2 -> nearest_even x = m.
Proof.
  intros H%Rabs_def2. pose proof (Zfloor_bound x) as [Hl Hu].
  assert (Zfloor x = m ∨ Zfloor x = (m - 1)%Z) as [Hf|Hf].
  { assert (m - 1 <= Zfloor x)%Z by (apply Zfloor_lub; rewrite minus_IZR; lra).
    assert (Zfloor x < m + 1)%Z by (apply lt_IZR; rewrite plus_IZR; lra).
    lia. }
  - unfold nearest_even. rewrite Hf. rewrite decide_True by lra. done.
  - unfold nearest_even. rewrite Hf, minus_IZR.
    rewrite decide_False by lra. rewrite decide_True by lra. lia.
Qed.

Lemma nearest_even_IZR m : nearest_even (IZR m) = m.
Proof.
  apply nearest_even_near. rewrite Rminus_diag, Rabs_R0. lra.
Qed.

Lemma nearest_even_tie m :
  nearest_even (IZR m + 1 / 2) = if Z.even m then m else (m + 1)%Z.
Proof.
  assert (Zfloor (IZR m + 1 / 2) = m) as Hf by (apply Zfloor_eq; lra).
  unfold nearest_even. rewrite Hf.
  rewrite decide_False by lra. rewrite decide_False by lra. done.
Qed.

Lemma nearest_even_le x y : x <= y -> (nearest_even x <= nearest_even y)%Z.
Proof.
  intros Hxy. pose proof (Zfloor_le x y Hxy) as Hf.
  pose proof (nearest_even_floor x). pose proof (nearest_even_floor y).
  destruct (Z.eq_dec (Zfloor x) (Zfloor y)) as [E|]; [|lia].
  unfold nearest_even. rewrite E.
  repeat case_decide; try case_match; try lia; lra.
Qed.

Lemma nearest_even_opp x : nearest_even (- x) = (- nearest_even x)%Z.
Proof.
  pose proof (Zfloor_bound x) as [Hl Hu].
  destruct (Req_dec x (IZR (Zfloor x))) as [E|N].
  { rewrite E, <- opp_IZR, !nearest_even_IZR. done. }
  assert (Zfloor (- x) = (- Zfloor x - 1)%Z) as Hf.
  { apply Zfloor_eq. rewrite minus_IZR, opp_IZR. lra. }
  unfold nearest_even. rewrite Hf, minus_IZR, opp_IZR.
  repeat case_decide; try lra; try lia.
  rewrite Z.even_sub, Z.even_opp. simpl.
  destruct (Z.even (Zfloor x)); simpl; lia.
Qed.

(** ** Rounding to a double *)

Lemma round_0 : round 0 = 0.
Proof. unfold round. by rewrite decide_True. Qed.

Lemma round_opp x : round (- x) = - round x.
Proof.
  unfold round. destruct (decide (x = 0)) as [->|Hx].
  { rewrite Ropp_0, decide_True by done. lra. }
  rewrite decide_False by lra. rewrite quantum_opp.
  replace (- x / bpow (quantum x)) with (- (x / bpow (quantum x)))
    by (unfold Rdiv; lra).
  rewrite nearest_even_opp, opp_IZR. lra.
Qed.

Lemma round_error x : Rabs (round x - x) <= bpow (quantum x) / 2.
Proof.
  pose proof (bpow_pos (quantum x)) as Hq.
  unfold round. case_decide as Hx.
  { subst. rewrite Rminus_diag, Rabs_R0. lra. }
  pose proof (nearest_even_bound (x / bpow (quantum x))) as Hb.
  replace (IZR (nearest_even (x / bpow (quantum x))) * bpow (quantum x) - x)
    with ((IZR (nearest_even (x / bpow (quantum x))) - x / bpow (quantum x))
          * bpow (quantum x)) by (field; lra).
  rewrite Rabs_mult, (Rabs_pos_eq (bpow _)) by lra.
  apply Rmult_le_compat_r with (r := bpow (quantum x)) in Hb; lra.
Qed.

(** The scaled value of a positive [x] lies below [2 ^ 53], and from
    [2 ^ 52] on if [x] is not subnormal. *)
Lemma scaled_bounds x :
  0 < x ->
  0 < x / bpow (quantum x) < bpow 53
  ∧ ((-1022 <= exponent x)%Z -> bpow 52 <= x / bpow (quantum x)).
Proof.
  intros Hx. assert (x <> 0) as Hx0 by lra.
  pose proof (exponent_spec x Hx0) as [Hl Hu].
  rewrite Rabs_pos_eq in Hl, Hu by lra.
  pose proof (bpow_pos (quantum x)) as Hq.
  assert (bpow (exponent x + 1) <= bpow (quantum x + 53)) as Hle.
  { apply bpow_le. unfold quantum. lia. }
  rewrite (bpow_add (quantum x) 53) in Hle.
  split; [split|].
  - by apply Rdiv_lt_0_compat.
  - apply Rmult_lt_reg_r with (bpow (quantum x)); [done|].
    unfold Rdiv. rewrite Rmult_assoc, Rinv_l by lra. lra.
  - intros He. unfold quantum in *. rewrite Z.max_l in * by lia.
    replace (exponent x) with (exponent x - 52 + 52)%Z in Hl at 1 by lia.
    rewrite bpow_add in Hl.
    apply Rmult_le_reg_r with (bpow (exponent x - 52)); [done|].
    unfold Rdiv. rewrite Rmult_assoc, Rinv_l by lra. lra.
Qed.

Lemma round_pos_bounds x :
  0 < x ->
  0 <= round x <= bpow (Z.max (exponent x) (-1022) + 1)
  ∧ ((-1022 <= exponent x)%Z -> bpow (exponent x) <= round x).
Proof.
  intros Hx. destruct (scaled_bounds x Hx) as [[Hs1 Hs2] Hs3].
  pose proof (bpow_pos (quantum x)) as Hq.
  unfold round. rewrite decide_False by lra.
  set (s := x / bpow (quantum x)) in *.
  assert (0 <= nearest_even s <= 2 ^ 53)%Z as [Hn1 Hn2].
  { split.
    - rewrite <- (nearest_even_IZR 0). apply nearest_even_le. lra.
    - rewrite <- (nearest_even_IZR (2 ^ 53)). apply nearest_even_le.
      rewrite <- bpow_IZR by lia. lra. }
  apply IZR_le in Hn1, Hn2. rewrite <- bpow_IZR in Hn2 by lia.
  split; [split|].
  - apply Rmult_le_pos; lra.
  - replace (Z.max (exponent x) (-1022) + 1)%Z with (53 + quantum x)%Z
      by (unfold quantum; lia).
    rewrite bpow_add. apply Rmult_le_compat_r; lra.
  - intros He. specialize (Hs3 He).
    assert (2 ^ 52 <= nearest_even s)%Z as Hn3.
    { rewrite <- (nearest_even_IZR (2 ^ 52)). apply nearest_even_le.
      rewrite <- bpow_IZR by lia. lra. }
    apply IZR_le in Hn3. rewrite <- bpow_IZR in Hn3 by lia.
    replace (exponent x) with (52 + quantum x)%Z at 1
      by (unfold quantum; lia).
    rewrite bpow_add. apply Rmult_le_compat_r; lra.
Qed.

Lemma round_nonneg x : 0 <= x -> 0 <= round x.
Proof.
  intros [Hx| <-]; [|rewrite round_0; lra].
  by destruct (round_pos_bounds x Hx) as [[? _] _].
Qed.

Lemma round_le_pos x y : 0 < x -> x <= y -> round x <= round y.
Proof.
  intros Hx Hxy. assert (0 < y) as Hy by lra.
  assert (exponent x <= exponent y)%Z as He.
  { apply exponent_le; [lra|]. rewrite !Rabs_pos_eq by lra. done. }
  destruct (Z.eq_dec (quantum x) (quantum y)) as [Eq|Nq].
  - unfold round. rewrite !decide_False by lra. rewrite Eq.
    pose proof (bpow_pos (quantum y)) as Hq.
    apply Rmult_le_compat_r; [lra|]. apply IZR_le, nearest_even_le.
    unfold Rdiv. apply Rmult_le_compat_r; [|done].
    apply Rlt_le, Rinv_0_lt_compat. done.
  - assert (Z.max (exponent x) (-1022) < exponent y)%Z as Hlt
      by (unfold quantum in Nq; lia).
    destruct (round_pos_bounds x Hx) as [[_ Hux] _].
    destruct (round_pos_bounds y Hy) as [_ Hly].
    assert (bpow (Z.max (exponent x) (-1022) + 1) <= bpow (exponent y))
      by (apply bpow_le; lia).
    assert (bpow (exponent y) <= round y) by (apply Hly; lia). lra.
Qed.

Lemma round_le x y : x <= y -> round x <= round y.
Proof.
  intros Hxy.
  destruct (Rlt_le_dec 0 x) as [Hx|Hx]; [by apply round_le_pos|].
  destruct (Rle_lt_dec 0 y) as [Hy|Hy].
  - pose proof (round_nonneg y Hy). pose proof (round_nonneg (- x)) as H'.
    rewrite round_opp in H'. lra.
  - pose proof (round_le_pos (- y) (- x)) as H'. rewrite !round_opp in H'. lra.
Qed.

(** A number of less than 53 bits above the last place of the doubles
    is a double. *)
Lemma round_exact m k :
  (Z.abs m < 2 ^ 53)%Z -> (-1074 <= k)%Z ->
  round (IZR m * bpow k) = IZR m * bpow k.
Proof.
  assert (∀ m, (0 < m < 2 ^ 53)%Z -> (-1074 <= k)%Z ->
               round (IZR m * bpow k) = IZR m * bpow k) as Hpos.
  { clear m. intros m [Hm1 Hm2] Hk. pose proof (bpow_pos k) as Hbk.
    remember (IZR m * bpow k) as x eqn:Ex.
    assert (0 < x) as Hx.
    { rewrite Ex. apply Rmult_lt_0_compat; [|done]. by apply IZR_lt. }
    assert (quantum x <= k)%Z as Hq.
    { pose proof (exponent_spec x ltac:(lra)) as [Hl _].
      rewrite Rabs_pos_eq in Hl by lra.
      assert (x < bpow (53 + k)) as Hu.
      { rewrite Ex, bpow_add. apply Rmult_lt_compat_r; [done|].
        rewrite bpow_IZR by lia. apply IZR_lt. lia. }
      assert (exponent x < 53 + k)%Z by (apply bpow_lt_inv; lra).
      unfold quantum. lia. }
    unfold round. rewrite decide_False by lra.
    remember (quantum x) as q eqn:Eq. clear Eq.
    pose proof (bpow_pos q) as Hbq.
    assert (x / bpow q = IZR (m * 2 ^ (k - q))) as ->.
    { rewrite mult_IZR, <- bpow_IZR by lia. rewrite bpow_sub, Ex.
      field. lra. }
    rewrite nearest_even_IZR, mult_IZR, <- bpow_IZR by lia.
    rewrite bpow_sub, Ex. field. lra. }
  intros Hm Hk. destruct (Z.lt_trichotomy m 0) as [Hneg|[->|Hp]].
  - replace (IZR m * bpow k) with (- (IZR (- m) * bpow k))
      by (rewrite opp_IZR; lra).
    rewrite round_opp, Hpos; [done|lia|done].
  - rewrite Rmult_0_l. apply round_0.
  - apply Hpos; [lia|done].
Qed.

Lemma round_IZR m : (Z.abs m < 2 ^ 53)%Z -> round (IZR m) = IZR m.
Proof.
  intros Hm. pose proof (round_exact m 0 Hm ltac:(lia)) as H.
  by rewrite bpow_0, Rmult_1_r in H.
Qed.

(** The error of rounding, relative to a number that is not
    subnormal. *)
Lemma round_relative x :
  bpow (-1022) <= Rabs x -> Rabs (round x - x) <= bpow (-53) * Rabs x.
Proof.
  intros Hx. pose proof (bpow_pos (-1022)).
  assert (x <> 0) as Hx0.
  { intros ->. rewrite Rabs_R0 in Hx. lra. }
  pose proof (exponent_spec x Hx0) as [Hl Hu].
  assert (-1022 <= exponent x)%Z as He.
  { assert (bpow (-1022) < bpow (exponent x + 1)) as H' by lra.
    apply bpow_lt_inv in H'. lia. }
  pose proof (round_error x) as Herr.
  unfold quantum in Herr. rewrite Z.max_l in Herr by lia.
  replace (exponent x - 52)%Z with (exponent x + -53 + 1)%Z in Herr by lia.
  rewrite bpow_succ, bpow_add in Herr.
  pose proof (bpow_pos (-53)).
  apply Rmult_le_compat_l with (r := bpow (-53)) in Hl; lra.
Qed.

(** Evaluation: the double nearest to a given number. *)
Lemma round_eval x e m :
  bpow e <= Rabs x < bpow (e + 1) ->
  nearest_even (x / bpow (Z.max e (-1022) - 52)) = m ->
  round x = IZR m * bpow (Z.max e (-1022) - 52).
Proof.
  intros Hx Hm. pose proof (bpow_pos e).
  assert (x <> 0) as Hx0.
  { intros ->. rewrite Rabs_R0 in Hx. lra. }
  unfold round, quantum. rewrite decide_False by done.
  by rewrite (exponent_unique x e Hx), Hm.
Qed.

Lemma bpow_neg_eval p : bpow (Z.neg p) = / IZR (Z.pow_pos 2 p).
Proof.
  change (Z.neg p) with (- Z.pos p)%Z. rewrite bpow_opp. f_equal.
  apply (bpow_IZR (Z.pos p)). lia.
Qed.

Lemma bpow_pos_eval p : bpow (Z.pos p) = IZR (Z.pow_pos 2 p).
Proof. apply (bpow_IZR (Z.pos p)). lia. Qed.

(** The error of rounding a number below [2 ^ e]. *)
Lemma round_error_below x e :
  Rabs x < bpow e -> (-1021 <= e)%Z -> Rabs (round x - x) <= bpow (e - 54).
Proof.
  intros Hx He. destruct (Req_dec x 0) as [->|Hx0].
  { rewrite round_0, Rminus_diag, Rabs_R0. apply Rlt_le, bpow_pos. }
  pose proof (exponent_spec x Hx0) as [Hl _].
  assert (exponent x < e)%Z as Hlt by (apply bpow_lt_inv; lra).
  pose proof (round_error x) as Herr.
  assert (bpow (quantum x) <= bpow (e - 53)) as Hq.
  { apply bpow_le. unfold quantum. lia. }
  replace (e - 53)%Z with (e - 54 + 1)%Z in Hq by lia.
  rewrite bpow_succ in Hq. lra.
Qed.

Lemma round_abs x : round (Rabs x) = Rabs (round x).
Proof.
  destruct (Rle_lt_dec 0 x) as [Hx|Hx].
  - rewrite !Rabs_pos_eq; [done| |done]. by apply round_nonneg.
  - pose proof (round_nonneg (- x) ltac:(lra)) as H'.
    rewrite round_opp in H'.
    rewrite (Rabs_left x), Rabs_left1, round_opp by lra. done.
Qed.

End FloatFacts.

(** Turns the powers of two of the goal into numerals. *)
Ltac bpow_eval :=
  repeat match goal with
  | |- context [Float.bpow (Z.neg ?p)] =>
      rewrite (bpow_neg_eval p);
      let v := eval vm_compute in (Z.pow_pos 2 p) in
      change (Z.pow_pos 2 p) with v
  | |- context [Float.bpow (Z.pos ?p)] =>
      rewrite (bpow_pos_eval p);
      let v := eval vm_compute in (Z.pow_pos 2 p) in
      change (Z.pow_pos 2 p) with v
  | |- context [Float.bpow 0] => rewrite bpow_0
  end.

Ltac bpow_eval_in H :=
  repeat match type of H with
  | context [Float.bpow (Z.neg ?p)] =>
      rewrite (bpow_neg_eval p) in H;
      let v := eval vm_compute in (Z.pow_pos 2 p) in
      change (Z.pow_pos 2 p) with v in H
  | context [Float.bpow (Z.pos ?p)] =>
      rewrite (bpow_pos_eval p) in H;
      let v := eval vm_compute in (Z.pow_pos 2 p) in
      change (Z.pow_pos 2 p) with v in H
  | context [Float.bpow 0] => rewrite bpow_0 in H
  end.

Section NumberFacts.

Import Float.

Lemma bpow_1024_large : 1024 <= bpow 1024.
Proof.
  assert (bpow 10 <= bpow 1024) as H by (apply bpow_le; lia).
  rewrite (bpow_pos_eval 10) in H.
  change (Z.pow_pos 2 10) with 1024%Z in H. done.
Qed.

Lemma make_value neg r :
  round r < bpow 1024 ->
  Num.value (Num.make neg (Some r))
  = Some (if neg then - round r else round r).
Proof.
  intros Hr. unfold Num.make. rewrite decide_False by lra.
  destruct (decide (round r = 0)) as [E|N]; [rewrite E|done].
  destruct neg; simpl; f_equal; lra.
Qed.

Lemma of_real_value r :
  Rabs (round r) < bpow 1024 -> Num.value (Num.of_real r) = Some (round r).
Proof.
  intros Hr. unfold Num.of_real.
  rewrite make_value by (by rewrite round_abs). f_equal.
  case_bool_decide as Hneg.
  - rewrite Rabs_left, round_opp by done. lra.
  - rewrite Rabs_pos_eq by lra. done.
Qed.

Lemma of_real_isNaN r : Num.isNaN (Num.of_real r) = false.
Proof.
  unfold Num.of_real, Num.make.
  repeat (case_decide || case_bool_decide); done.
Qed.

Lemma round_PI_bounds : 3 <= round Rtrigo1.PI <= 4.
Proof.
  pose proof PI_4. pose proof PI2_3_2.
  rewrite <- (round_IZR 3), <- (round_IZR 4) by (simpl; lia).
  split; apply round_le; lra.
Qed.

(** What lies between [-pi] and [pi] has its double between those of
    [-pi] and [pi]. *)
Lemma of_real_angle r :
  - Rtrigo1.PI <= r <= Rtrigo1.PI ->
  Num.value (Num.of_real r) = Some (round r)
  ∧ - round Rtrigo1.PI <= round r <= round Rtrigo1.PI.
Proof.
  intros [Hl Hu]. pose proof round_PI_bounds. pose proof bpow_1024_large.
  assert (- round Rtrigo1.PI <= round r <= round Rtrigo1.PI) as Hr.
  { rewrite <- round_opp. split; by apply round_le. }
  split; [|done]. apply of_real_value. apply Rabs_def1; lra.
Qed.

Lemma PI_value : Math.PI = Fin (round Rtrigo1.PI).
Proof.
  pose proof round_PI_bounds. pose proof bpow_1024_large. pose proof PI_RGT_0.
  unfold Math.PI, Num.of_real, Num.make.
  rewrite bool_decide_eq_false_2, Rabs_pos_eq by lra.
  rewrite decide_False by lra. rewrite decide_False by lra. done.
Qed.

(** [180 / Math.PI] *)
Lemma div_180_PI :
  Num.div (Fin 180) Math.PI = Fin (round (180 / round Rtrigo1.PI))
  ∧ 45 <= round (180 / round Rtrigo1.PI) <= 60.
Proof.
  pose proof round_PI_bounds as [Hp1 Hp2]. pose proof bpow_1024_large.
  assert (45 <= round (180 / round Rtrigo1.PI) <= 60) as Hk.
  { rewrite <- (round_IZR 45), <- (round_IZR 60) by (simpl; lia).
    split; apply round_le.
    - apply Rmult_le_reg_r with (round Rtrigo1.PI); [lra|].
      unfold Rdiv. rewrite Rmult_assoc, Rinv_l by lra. lra.
    - apply Rmult_le_reg_r with (round Rtrigo1.PI); [lra|].
      unfold Rdiv. rewrite Rmult_assoc, Rinv_l by lra. lra. }
  split; [|done].
  rewrite PI_value. unfold Num.div; simpl.
  rewrite !bool_decide_eq_false_2 by lra. simpl.
  rewrite !Rabs_pos_eq by lra.
  rewrite decide_False by lra.
  unfold Num.make. rewrite decide_False by lra. rewrite decide_False by lra.
  done.
Qed.

Lemma mul_value x r k :
  Num.value x = Some r -> 0 < k ->
  Rabs (round (r * k)) < bpow 1024 ->
  Num.value (Num.mul x (Fin k)) = Some (round (r * k)).
Proof.
  intros Hx Hk Hr.
  assert (∀ neg q, Rabs q = Rabs r -> neg = bool_decide (r < 0) ∨ r = 0 ->
            Num.value (Num.make neg (Some (Rabs q * k)))
            = Some (round (r * k))) as Hmake.
  { intros neg q Hq Hneg.
    assert (Rabs q * k = Rabs (r * k)) as ->.
    { rewrite Hq, Rabs_mult, (Rabs_pos_eq k); lra. }
    rewrite make_value by (by rewrite round_abs). f_equal.
    destruct Hneg as [-> | ->].
    - case_bool_decide as Hneg.
      + rewrite Rabs_left, round_opp by nra. lra.
      + rewrite Rabs_pos_eq by nra. done.
    - rewrite Rmult_0_l, Rabs_R0, round_0. destruct neg; lra. }
  destruct x as [| | | |q]; simplify_eq/=; unfold Num.mul;
    cbn [Num.isNaN orb Num.negative Num.abs].
  - replace (0 * Rabs k) with (Rabs 0 * k)
      by (rewrite Rabs_R0, (Rabs_pos_eq k); lra).
    apply Hmake; auto.
  - rewrite (bool_decide_eq_false_2 (k < 0)) by lra.
    rewrite xorb_false_r, (Rabs_pos_eq k) by lra. apply Hmake; auto.
Qed.

Lemma round_value x r :
  Num.value x = Some r ->
  Num.value (Math.round x) = Some (IZR (Zfloor (r + 1 / 2))).
Proof.
  intros Hx. destruct x as [| | | |q]; simplify_eq/=.
  - f_equal. rewrite (Zfloor_eq 0); [done|]. simpl. lra.
  - destruct (decide (r < 0)); [destruct (decide (-1 / 2 <= r))|]; simpl; try done.
    f_equal. rewrite (Zfloor_eq 0); [done|]. simpl. lra.
Qed.

Lemma round_range r :
  - (361 / 2) <= r < 361 / 2 -> (-180 <= Zfloor (r + 1 / 2) <= 180)%Z.
Proof.
  intros [Hl Hu]. pose proof (Zfloor_bound (r + 1 / 2)) as [Hf1 Hf2].
  split.
  - apply Zfloor_lub. lra.
  - apply le_IZR.
    destruct (Z_le_gt_dec (Zfloor (r + 1 / 2)) 180) as [H|H]; [by apply IZR_le|].
    exfalso. assert (181 <= Zfloor (r + 1 / 2))%Z as H' by lia.
    apply IZR_le in H'. lra.
Qed.

(** The product of an angle and [180 / Math.PI], in doubles, lies
    within [180] and a little. *)
Lemma degrees_bound r :
  - round Rtrigo1.PI <= r <= round Rtrigo1.PI ->
  Rabs (round (r * round (180 / round Rtrigo1.PI))) <= 180 + 1 / 1000.
Proof.
  intros [Hl Hu]. pose proof round_PI_bounds as [Hp1 Hp2].
  destruct div_180_PI as [_ [Hk1 Hk2]].
  set (p := round Rtrigo1.PI) in *. set (k := round (180 / p)) in *.
  assert (Rabs (k - 180 / p) <= bpow (-48)) as Hek.
  { apply (round_error_below (180 / p) 6); [|lia].
    assert (180 / p <= 60).
    { apply Rmult_le_reg_r with p; [lra|].
      unfold Rdiv. rewrite Rmult_assoc, Rinv_l by lra. lra. }
    assert (0 < 180 / p) by (apply Rdiv_lt_0_compat; lra).
    rewrite Rabs_pos_eq by lra. bpow_eval. lra. }
  bpow_eval_in Hek. apply Rabs_le_inv in Hek as [Hek1 Hek2].
  assert (p * k <= 180 + 1 / 10000) as Hpk.
  { assert (p * (180 / p) = 180) as E by (field; lra).
    assert (p * (k - 180 / p) <= 4 * / 281474976710656) by nra. lra. }
  assert (- (180 + 1 / 10000) <= r * k <= 180 + 1 / 10000) as [Hx1 Hx2].
  { split; nra. }
  assert (round (180 + 1 / 10000) <= 180 + 1 / 1000) as Hr.
  { pose proof (round_error_below (180 + 1 / 10000) 8) as He.
    rewrite Rabs_pos_eq in He by lra.
    assert (180 + 1 / 10000 < bpow 8) as Hb by (bpow_eval; lra).
    specialize (He Hb ltac:(lia)). change (8 - 54)%Z with (-46)%Z in He.
    bpow_eval_in He.
    apply Rabs_le_inv in He as [_ He]. lra. }
  apply Rabs_le. split.
  - apply Ropp_le_cancel. rewrite Ropp_involutive, <- round_opp.
    etrans; [apply round_le|apply Hr]. lra.
  - etrans; [apply round_le|apply Hr]. lra.
Qed.

End NumberFacts.

Section Atan2Facts.

Import Float.

Lemma atan_neg x : x < 0 -> atan x < 0.
Proof. intros H. rewrite <- atan_0. by apply atan_increasing. Qed.

Lemma atan_pos x : 0 < x -> 0 < atan x.
Proof. intros H. rewrite <- atan_0. by apply atan_increasing. Qed.

Lemma angle_range y x :
  y ≠ 0 -> x ≠ 0 -> - Rtrigo1.PI <= Math.angle y x <= Rtrigo1.PI.
Proof.
  intros Hy Hx. pose proof PI_RGT_0. pose proof (atan_bound (y / x)).
  unfold Math.angle.
  destruct (decide (0 < x)); [lra|].
  assert (x < 0) by lra.
  destruct (decide (0 < y)).
  - assert (atan (y / x) < 0); [|lra].
    apply atan_neg. apply Ropp_lt_cancel. rewrite Ropp_0, <- Rdiv_opp_r.
    apply Rdiv_lt_0_compat; lra.
  - assert (0 < atan (y / x)); [|lra].
    apply atan_pos. replace (y / x) with ((- y) / (- x)) by (field; lra).
    apply Rdiv_lt_0_compat; lra.
Qed.

Lemma atan2_value y x :
  Num.isNaN y = false -> Num.isNaN x = false ->
  ∃ r, Num.value (Math.atan2 y x) = Some r
       ∧ - round Rtrigo1.PI <= r <= round Rtrigo1.PI.
Proof.
  intros Hy Hx. pose proof PI_RGT_0. pose proof round_PI_bounds.
  assert (∀ r, - Rtrigo1.PI <= r <= Rtrigo1.PI ->
            ∃ r', Num.value (Num.of_real r) = Some r'
                  ∧ - round Rtrigo1.PI <= r' <= round Rtrigo1.PI) as Hof.
  { intros r Hr. exists (round r). by apply of_real_angle. }
  destruct y as [| | | |ry], x as [| | | |rx]; try done; simpl;
    repeat (case_decide || case_bool_decide || case_match); simpl;
    try (apply Hof; lra);
    try (eexists; split; [reflexivity|lra]).
  apply Hof. by apply angle_range.
Qed.

End Atan2Facts.

(** ** Rotation extraction *)

Section Rotation.

Lemma getRotationFromMatrix_eq matrix pg :
  getRotationFromMatrix matrix pg =
    if String.eqb matrix "none" || negb (Js.truthy matrix)
    then (Normal (Fin 0), pg)
    else match rotation_of_values matrix with
         | Normal angle => (Normal angle, pg)
         | Throw _ => (Normal (Fin 0), console_warn warning matrix pg)
         end.
Proof.
  unfold getRotationFromMatrix.
  destruct (String.eqb matrix "none" || negb (Js.truthy matrix)); [done|].
  unfold try_catch, lift. by destruct (rotation_of_values matrix).
Qed.

Lemma sentinel_spec matrix :
  String.eqb matrix "none" || negb (Js.truthy matrix) = true
  ↔ matrix = "none" ∨ matrix = "".
Proof.
  rewrite orb_true_iff, String.eqb_eq, negb_true_iff.
  destruct matrix; simpl; split; intros [?|?]; auto; discriminate.
Qed.

Lemma rotation_of_values_throw matrix e :
  rotation_of_values matrix = Throw e ↔ matrix_values matrix = Throw e.
Proof.
  unfold rotation_of_values.
  destruct (matrix_values matrix) as [values|e']; simpl;
    [|split; congruence].
  split; [|done].
  destruct (length values <? 2)%nat; [done|].
  by destruct (Num.isNaN _ || Num.isNaN _).
Qed.

Lemma rotation_angle_range a b :
  Num.isNaN a = false -> Num.isNaN b = false ->
  ∃ z, Num.value
         (Math.round (Num.mul (Math.atan2 b a) (Num.div (Fin 180) Math.PI)))
       = Some (IZR z)
       ∧ (-180 <= z <= 180)%Z.
Proof.
  intros Ha Hb. pose proof bpow_1024_large.
  destruct (atan2_value b a Hb Ha) as (r & Hr & Hrange).
  destruct div_180_PI as [-> [Hk1 Hk2]].
  pose proof (degrees_bound r Hrange) as Hd.
  eexists. split.
  - apply round_value. apply mul_value; [done|lra|lra].
  - apply round_range. apply Rabs_le_inv in Hd. lra.
Qed.

Lemma rotation_of_values_range matrix angle :
  rotation_of_values matrix = Normal angle ->
  ∃ z, Num.value angle = Some (IZR z) ∧ (-180 <= z <= 180)%Z.
Proof.
  unfold rotation_of_values.
  destruct (matrix_values matrix) as [values|e']; simpl; [|done].
  destruct (length values <? 2)%nat.
  { intros [= <-]. by exists 0%Z. }
  destruct (Num.isNaN (parseFloat_at values 0)) eqn:Ea; simpl.
  { intros [= <-]. by exists 0%Z. }
  destruct (Num.isNaN (parseFloat_at values 1)) eqn:Eb; simpl.
  { intros [= <-]. by exists 0%Z. }
  intros [= <-]. by apply rotation_angle_range.
Qed.

(** Claim C10.  Rotation extraction is total: for every string it
    returns normally (it never throws to its caller), and what it
    returns is a finite integer between -180 and 180, so never NaN and
    never a fraction. *)
Theorem getRotationFromMatrix_total matrix pg :
  ∃ angle z pg',
    getRotationFromMatrix matrix pg = (Normal angle, pg')
    ∧ Num.value angle = Some (IZR z)
    ∧ (-180 <= z <= 180)%Z.
Proof.
  rewrite getRotationFromMatrix_eq.
  destruct (String.eqb matrix "none" || negb (Js.truthy matrix)).
  { by exists (Fin 0), 0%Z, pg. }
  destruct (rotation_of_values matrix) as [angle|e] eqn:E.
  - destruct (rotation_of_values_range _ _ E) as (z & ? & ?).
    by exists angle, z, pg.
  - by exists (Fin 0), 0%Z, (console_warn warning matrix pg).
Qed.

(** Claim C4.  Rotation extraction returns 0 for ["none"], the empty
    string, ["matrix()"] and ["matrix(abc, def)"]; and for every string
    on which parsing fails it returns 0 and does not throw, logging the
    warning exactly when the failure is an error thrown in the [try]
    block. *)
Theorem getRotationFromMatrix_parse_failure :
  (∀ pg, getRotationFromMatrix "none" pg = (Normal (Fin 0), pg))
  ∧ (∀ pg, getRotationFromMatrix "" pg = (Normal (Fin 0), pg))
  ∧ (∀ pg, getRotationFromMatrix "matrix()" pg = (Normal (Fin 0), pg))
  ∧ (∀ pg, getRotationFromMatrix "matrix(abc, def)" pg = (Normal (Fin 0), pg))
  ∧ (∀ matrix pg,
        parse_fails matrix ->
        (getRotationFromMatrix matrix pg).1 = Normal (Fin 0)
        ∧ (parse_throws matrix ->
           (getRotationFromMatrix matrix pg).2 = console_warn warning matrix pg)
        ∧ (¬ parse_throws matrix -> (getRotationFromMatrix matrix pg).2 = pg)).
Proof.
  repeat split; try reflexivity.
  - rewrite getRotationFromMatrix_eq.
    destruct (String.eqb matrix "none" || negb (Js.truthy matrix)) eqn:S; [done|].
    assert (¬ (matrix = "none" ∨ matrix = "")) as Hs.
    { rewrite <- sentinel_spec, S. done. }
    destruct H as [?|[?|H]]; [tauto..|].
    unfold rotation_of_values.
    destruct (matrix_values matrix) as [values|e']; simpl; [|done].
    destruct (Nat.ltb_spec (length values) 2); [done|].
    destruct H as [?|[->| ->]]; [lia|done|].
    by rewrite orb_true_r.
  - intros (Hn & He & e & Hthrow).
    rewrite getRotationFromMatrix_eq.
    destruct (String.eqb matrix "none" || negb (Js.truthy matrix)) eqn:S.
    { apply sentinel_spec in S. tauto. }
    apply rotation_of_values_throw in Hthrow. by rewrite Hthrow.
  - intros Hnot. rewrite getRotationFromMatrix_eq.
    destruct (String.eqb matrix "none" || negb (Js.truthy matrix)) eqn:S; [done|].
    destruct (rotation_of_values matrix) as [angle|e] eqn:E; [done|].
    exfalso. apply Hnot. apply rotation_of_values_throw in E.
    assert (¬ (matrix = "none" ∨ matrix = "")) as Hs.
    { rewrite <- sentinel_spec, S. done. }
    unfold parse_throws. split_and!; [tauto..|eauto].
Qed.

Lemma getRotationFromMatrix_parse_failure_witness :
  parse_fails "rotate" ∧ parse_throws "rotate"
  ∧ (getRotationFromMatrix "rotate" (load [] 0)).1 = Normal (Fin 0)
  ∧ (getRotationFromMatrix "rotate" (load [] 0)).2
    = console_warn warning "rotate" (load [] 0).
Proof.
  assert (parse_fails "rotate") as Hf.
  { right; right. exact I. }
  assert (parse_throws "rotate") as Ht.
  { split_and!; [done..|]. by exists TypeError. }
  destruct getRotationFromMatrix_parse_failure as (_ & _ & _ & _ & H).
  destruct (H "rotate" (load [] 0) Hf) as (H1 & H2 & _).
  split_and!; [exact Hf|exact Ht|exact H1|exact (H2 Ht)].
Defined.

End Rotation.

(** ** The angle of a rotation *)

Section Polar.

Import Float.

Implicit Types t : R.

Lemma angle_polar_form y x :
  y ≠ 0 -> x ≠ 0 ->
  ∃ r, 0 < r ∧ x = r * cos (Math.angle y x) ∧ y = r * sin (Math.angle y x).
Proof.
  intros Hy Hx. pose proof (atan_bound (y / x)) as [Hb1 Hb2].
  set (beta := atan (y / x)) in *.
  assert (0 < cos beta) as Hc by (apply cos_gt_0; lra).
  assert (sin beta = y / x * cos beta) as Hs.
  { pose proof (tan_atan (y / x)) as Ht. fold beta in Ht.
    unfold tan in Ht. rewrite <- Ht. field. lra. }
  unfold Math.angle. fold beta.
  destruct (decide (0 < x)) as [Hpos|Hneg].
  - exists (x / cos beta). split; [by apply Rdiv_lt_0_compat|].
    split; [field; lra|]. rewrite Hs. field. lra.
  - assert (x < 0) as Hx' by lra.
    exists (- x / cos beta). split; [apply Rdiv_lt_0_compat; lra|].
    destruct (decide (0 < y)).
    + rewrite cos_plus, sin_plus, cos_PI, sin_PI, Hs. split; field; lra.
    + unfold Rminus. rewrite cos_plus, sin_plus, cos_neg, sin_neg, cos_PI, sin_PI, Hs.
      split; field; lra.
Qed.

(** The value of [Math.atan2] on finite numbers, not both zero, is the
    double of an angle of the point. *)
Lemma atan2_angle y x a b :
  Num.value y = Some b -> Num.value x = Some a -> a ≠ 0 ∨ b ≠ 0 ->
  ∃ alpha r,
    Num.value (Math.atan2 y x) = Some (round alpha)
    ∧ - Rtrigo1.PI <= alpha <= Rtrigo1.PI
    ∧ 0 < r ∧ a = r * cos alpha ∧ b = r * sin alpha.
Proof.
  intros Hy Hx Hne. pose proof PI_RGT_0 as Hpi.
  assert (∀ alpha r,
            - Rtrigo1.PI <= alpha <= Rtrigo1.PI ->
            0 < r -> a = r * cos alpha -> b = r * sin alpha ->
            ∃ alpha' r',
              Num.value (Num.of_real alpha) = Some (round alpha')
              ∧ - Rtrigo1.PI <= alpha' <= Rtrigo1.PI
              ∧ 0 < r' ∧ a = r' * cos alpha' ∧ b = r' * sin alpha') as Hof.
  { intros alpha r Hr ? ? ?. exists alpha, r.
    by destruct (of_real_angle alpha Hr) as [-> _]. }
  assert (∀ z, Num.value z = Some 0 -> z = NegZero ∨ z = Fin 0) as Hzero.
  { intros [| | | |q] [=]; subst; auto. }
  destruct y as [| | | |ry], x as [| | | |rx]; simplify_eq/=.
  - (* -0, -0 *) lra.
  - (* -0, a *)
    case_bool_decide.
    + apply (Hof (- Rtrigo1.PI) (- a)); try lra.
      * rewrite cos_neg, cos_PI. lra.
      * rewrite sin_neg, sin_PI. lra.
    + exists 0, a. rewrite round_0, cos_0, sin_0. split_and!; try done; lra.
  - (* b, -0 *)
    rewrite decide_False by lra.
    destruct (decide (0 < b)).
    + apply (Hof (Rtrigo1.PI / 2) b); try lra.
      * rewrite cos_PI2. lra.
      * rewrite sin_PI2. lra.
    + apply (Hof (- Rtrigo1.PI / 2) (- b)); try lra.
      * replace (- Rtrigo1.PI / 2) with (- (Rtrigo1.PI / 2)) by lra.
        rewrite cos_neg, cos_PI2. lra.
      * replace (- Rtrigo1.PI / 2) with (- (Rtrigo1.PI / 2)) by lra.
        rewrite sin_neg, sin_PI2. lra.
  - (* b, a *)
    destruct (decide (b = 0)) as [->|Hb].
    + case_bool_decide.
      * apply (Hof Rtrigo1.PI (- a)); try lra.
        -- rewrite cos_PI. lra.
        -- rewrite sin_PI. lra.
      * exists 0, a. rewrite round_0, cos_0, sin_0. split_and!; try done; lra.
    + destruct (decide (a = 0)) as [->|Ha].
      * destruct (decide (0 < b)).
        -- apply (Hof (Rtrigo1.PI / 2) b); try lra.
           ++ rewrite cos_PI2. lra.
           ++ rewrite sin_PI2. lra.
        -- apply (Hof (- Rtrigo1.PI / 2) (- b)); try lra.
           ++ replace (- Rtrigo1.PI / 2) with (- (Rtrigo1.PI / 2)) by lra.
              rewrite cos_neg, cos_PI2. lra.
           ++ replace (- Rtrigo1.PI / 2) with (- (Rtrigo1.PI / 2)) by lra.
              rewrite sin_neg, sin_PI2. lra.
      * destruct (angle_polar_form b a Hb Ha) as (r & Hr & Hc & Hs).
        apply (Hof (Math.angle b a) r); try done.
        by apply angle_range.
Qed.

End Polar.

Section Closeness.

Implicit Types t : R.

Lemma sin_lower x : 0 <= x <= 1 -> x - x ^ 3 / 6 <= sin x.
Proof.
  intros [H0 H1]. pose proof PI2_1 as Hpi.
  pose proof (SIN x H0 ltac:(lra)) as [Hlb _].
  unfold sin_lb, sin_approx, sin_term in Hlb.
  cbn [sum_f_R0 Nat.mul Nat.add pow] in Hlb.
  rewrite !INR_IZR_INZ in Hlb.
  change (Z.of_nat (fact 1)) with 1%Z in Hlb.
  change (Z.of_nat (fact 3)) with 6%Z in Hlb.
  change (Z.of_nat (fact 5)) with 120%Z in Hlb.
  change (Z.of_nat (fact 7)) with 5040%Z in Hlb.
  assert (0 <= x ^ 5 * (1 - x ^ 2 / 42)) as Hp.
  { apply Rmult_le_pos; [apply pow_le; lra|]. nra. }
  nra.
Qed.

(** An angle between [-pi/2] and [pi/2] is small if its sine is. *)
Lemma small_sine d sigma :
  - (Rtrigo1.PI / 2) < d < Rtrigo1.PI / 2 ->
  Rabs (sin d) <= sigma -> sigma <= 1 / 2 ->
  Rabs d <= 6 / 5 * sigma.
Proof.
  assert (∀ d, 0 <= d < Rtrigo1.PI / 2 -> sin d <= sigma -> sigma <= 1 / 2 ->
               d <= 6 / 5 * sigma) as Hpos.
  { clear d. intros d [Hd1 Hd2] Hs Hsig.
    assert (d <= 1) as Hd.
    { destruct (Rle_lt_dec d 1) as [|Hgt]; [done|]. exfalso.
      pose proof PI2_1.
      assert (sin 1 <= sin d) by (apply sin_incr_1; lra).
      pose proof (sin_lower 1 ltac:(lra)). lra. }
    pose proof (sin_lower d ltac:(lra)) as Hl.
    assert (d ^ 3 <= d) by nra. lra. }
  intros [Hd1 Hd2] Hs Hsig. apply Rabs_le_inv in Hs as [Hs1 Hs2].
  destruct (Rle_lt_dec 0 d) as [Hd|Hd].
  - rewrite Rabs_pos_eq by done. apply Hpos; [lra|done|done].
  - rewrite Rabs_left by done. apply Hpos; [lra| |done].
    rewrite sin_neg. lra.
Qed.

(** An angle between [-pi] and [pi] with a positive cosine lies
    between [-pi/2] and [pi/2]. *)
Lemma cos_pos_range d :
  - Rtrigo1.PI <= d <= Rtrigo1.PI -> 0 < cos d ->
  - (Rtrigo1.PI / 2) < d < Rtrigo1.PI / 2.
Proof.
  intros [Hl Hu] Hc. pose proof PI_RGT_0.
  split.
  - destruct (Rlt_le_dec (- (Rtrigo1.PI / 2)) d) as [|Hle]; [done|]. exfalso.
    assert (cos (- d) <= 0) as H' by (apply cos_le_0; lra).
    rewrite cos_neg in H'. lra.
  - destruct (Rlt_le_dec d (Rtrigo1.PI / 2)) as [|Hle]; [done|]. exfalso.
    assert (cos d <= 0) by (apply cos_le_0; lra). lra.
Qed.

Lemma full_turn x :
  cos (x + 2 * Rtrigo1.PI) = cos x ∧ sin (x + 2 * Rtrigo1.PI) = sin x.
Proof. rewrite cos_plus, sin_plus, cos_2PI, sin_2PI. split; ring. Qed.

(** A point near the point of angle [t] on the circle of radius [rho]
    has its own angle near [t], up to a full turn. *)
Lemma angle_close rho delta t alpha r a b :
  0 < rho -> 0 <= delta <= 1 / 100 ->
  - Rtrigo1.PI <= t <= Rtrigo1.PI ->
  - Rtrigo1.PI <= alpha <= Rtrigo1.PI ->
  0 < r -> a = r * cos alpha -> b = r * sin alpha ->
  Rabs (a - rho * cos t) <= delta * rho ->
  Rabs (b - rho * sin t) <= delta * rho ->
  ∃ k : Z, (k = -1 ∨ k = 0 ∨ k = 1)%Z
           ∧ Rabs (alpha - t - 2 * Rtrigo1.PI * IZR k) <= 5 / 2 * delta.
Proof.
  intros Hrho [Hd0 Hd1] Ht Halpha Hr Ha Hb Hea Heb. pose proof PI_RGT_0 as Hpi.
  apply Rabs_le_inv in Hea as [Hea1 Hea2], Heb as [Heb1 Heb2].
  pose proof (COS_bound t) as [Hc1 Hc2]. pose proof (SIN_bound t) as [Hs1 Hs2].
  pose proof (sin2_cos2 t) as Hsc. unfold Rsqr in Hsc.
  set (d := alpha - t).
  assert (r * cos d = a * cos t + b * sin t) as HP.
  { unfold d. rewrite cos_minus, Ha, Hb. ring. }
  assert (r * sin d = b * cos t - a * sin t) as HQ.
  { unfold d. rewrite sin_minus, Ha, Hb. ring. }
  assert (rho * (1 - 2 * delta) <= r * cos d) as HP'.
  { rewrite HP.
    replace (a * cos t + b * sin t)
      with (rho * (sin t * sin t + cos t * cos t)
            + (a - rho * cos t) * cos t + (b - rho * sin t) * sin t) by ring.
    rewrite Hsc. nra. }
  assert (Rabs (r * sin d) <= 2 * delta * rho) as HQ'.
  { rewrite HQ.
    replace (b * cos t - a * sin t)
      with ((b - rho * sin t) * cos t - (a - rho * cos t) * sin t) by ring.
    apply Rabs_le. split; nra. }
  assert (0 < cos d) as Hcd.
  { assert (0 < r * cos d) as H' by nra.
    destruct (Rlt_le_dec 0 (cos d)) as [|Hle]; [done|]. nra. }
  assert (rho * (1 - 2 * delta) <= r) as Hr'.
  { pose proof (COS_bound d) as [_ H']. nra. }
  assert (Rabs (sin d) <= 2 * delta / (1 - 2 * delta)) as Hsd.
  { apply Rabs_le_inv in HQ' as [HQ1 HQ2].
    assert (0 < 1 - 2 * delta) as Hden by lra.
    apply Rabs_le. split.
    - apply Rmult_le_reg_r with (r * (1 - 2 * delta)); [nra|].
      replace (- (2 * delta / (1 - 2 * delta)) * (r * (1 - 2 * delta)))
        with (- (2 * delta) * r) by (field; lra).
      assert (- (2 * delta) * r <= sin d * r * (1 - 2 * delta)); [|lra].
      destruct (Rle_lt_dec 0 (sin d)) as [Hsp|Hsn]; nra.
    - apply Rmult_le_reg_r with (r * (1 - 2 * delta)); [nra|].
      replace (2 * delta / (1 - 2 * delta) * (r * (1 - 2 * delta)))
        with (2 * delta * r) by (field; lra).
      assert (sin d * r * (1 - 2 * delta) <= 2 * delta * r); [|lra].
      destruct (Rle_lt_dec 0 (sin d)) as [Hsp|Hsn]; nra. }
  assert (2 * delta / (1 - 2 * delta) <= 25 / 12 * delta) as Hsig.
  { apply Rmult_le_reg_r with (1 - 2 * delta); [lra|].
    replace (2 * delta / (1 - 2 * delta) * (1 - 2 * delta)) with (2 * delta)
      by (field; lra). nra. }
  assert (∀ k : Z, (k = -1 ∨ k = 0 ∨ k = 1)%Z ->
            - Rtrigo1.PI <= d - 2 * Rtrigo1.PI * IZR k <= Rtrigo1.PI ->
            ∃ k : Z, (k = -1 ∨ k = 0 ∨ k = 1)%Z
                     ∧ Rabs (d - 2 * Rtrigo1.PI * IZR k) <= 5 / 2 * delta)
    as Hk.
  { intros k Hk Hrange. exists k. split; [done|].
    set (d' := d - 2 * Rtrigo1.PI * IZR k) in *.
    assert (cos d' = cos d ∧ sin d' = sin d) as [Ec Es].
    { unfold d'. destruct Hk as [->|[->| ->]].
      - replace (d - 2 * Rtrigo1.PI * -1) with (d + 2 * Rtrigo1.PI) by lra.
        apply full_turn.
      - replace (d - 2 * Rtrigo1.PI * 0) with d by lra. done.
      - destruct (full_turn (d - 2 * Rtrigo1.PI * 1)) as [E1 E2].
        replace (d - 2 * Rtrigo1.PI * 1 + 2 * Rtrigo1.PI) with d in E1, E2
          by lra.
        done. }
    assert (- (Rtrigo1.PI / 2) < d' < Rtrigo1.PI / 2) as Hd'
      by (apply cos_pos_range; [done|by rewrite Ec]).
    pose proof (small_sine d' (25 / 12 * delta) Hd') as Hsm.
    rewrite Es in Hsm. specialize (Hsm ltac:(lra) ltac:(lra)). lra. }
  unfold d in *.
  destruct (Rlt_le_dec Rtrigo1.PI (alpha - t)) as [Hbig|Hle].
  - apply (Hk 1%Z); [auto|]. lra.
  - destruct (Rlt_le_dec (alpha - t) (- Rtrigo1.PI)) as [Hsmall|Hge].
    + apply (Hk (-1)%Z); [auto|]. lra.
    + apply (Hk 0%Z); [auto|]. lra.
Qed.

End Closeness.

Section RotationRoundTrip.

Import Float.

(** The angle in degrees as the script computes it, in doubles, is
    within [10 ^ -13] of the exact one. *)
Lemma degrees_error alpha :
  - Rtrigo1.PI <= alpha <= Rtrigo1.PI ->
  Rabs (round (round alpha * round (180 / round Rtrigo1.PI))
        - alpha * (180 / Rtrigo1.PI)) <= 1 / 10 ^ 13.
Proof.
  intros Halpha. pose proof PI_RGT_0 as Hpi0. pose proof PI_4 as Hpi4.
  pose proof PI2_3_2 as Hpi3.
  pose proof round_PI_bounds as [Hp1 Hp2].
  destruct (of_real_angle alpha Halpha) as [_ Hrange].
  pose proof (degrees_bound (round alpha) Hrange) as Hdb.
  destruct div_180_PI as [_ [Hk1 Hk2]].
  assert (Rabs (round Rtrigo1.PI - Rtrigo1.PI) <= bpow (-51)) as Hep.
  { apply (round_error_below Rtrigo1.PI 3); [|lia].
    rewrite Rabs_pos_eq by lra. bpow_eval. lra. }
  assert (Rabs (round alpha - alpha) <= bpow (-51)) as Hea.
  { apply (round_error_below alpha 3); [|lia].
    bpow_eval. apply Rabs_def1; lra. }
  set (p := round Rtrigo1.PI) in *.
  assert (0 < 180 / p <= 60) as [Hc0 Hc1].
  { split; [apply Rdiv_lt_0_compat; lra|].
    apply Rmult_le_reg_r with p; [lra|].
    unfold Rdiv. rewrite Rmult_assoc, Rinv_l by lra. lra. }
  assert (Rabs (round (180 / p) - 180 / p) <= bpow (-48)) as Hek.
  { apply (round_error_below (180 / p) 6); [|lia].
    rewrite Rabs_pos_eq by lra. bpow_eval. lra. }
  set (k := round (180 / p)) in *.
  assert (Rabs (round (round alpha * k) - round alpha * k) <= bpow (-46)) as Hex.
  { apply (round_error_below (round alpha * k) 8); [|lia].
    bpow_eval.
    assert (Rabs (round alpha * k) <= (180 + 1 / 10000)); [|lra].
    rewrite Rabs_mult, (Rabs_pos_eq k) by lra.
    assert (Rabs (round alpha) <= p) by (apply Rabs_le; lra).
    assert (p * k <= 180 + 1 / 10000) as Hpk.
    { bpow_eval_in Hek. apply Rabs_le_inv in Hek as [_ Hek].
      assert (p * (180 / p) = 180) as E by (field; lra).
      assert (p * (k - 180 / p) <= 4 * / 281474976710656) by nra. lra. }
    pose proof (Rabs_pos (round alpha)). nra. }
  set (ad := round alpha) in *. set (xd := round (ad * k)) in *.
  bpow_eval_in Hep. bpow_eval_in Hea. bpow_eval_in Hek. bpow_eval_in Hex.
  apply Rabs_le_inv in Hep as [Hep1 Hep2], Hea as [Hea1 Hea2],
    Hek as [Hek1 Hek2], Hex as [Hex1 Hex2].
  set (c := 180 / Rtrigo1.PI).
  assert (0 < c <= 60) as [Hcc0 Hcc1].
  { unfold c. split; [apply Rdiv_lt_0_compat; lra|].
    apply Rmult_le_reg_r with Rtrigo1.PI; [lra|].
    unfold Rdiv. rewrite Rmult_assoc, Rinv_l by lra. lra. }
  (* 180 / p - 180 / pi *)
  assert (Rabs (180 / p - c) <= 20 * / 2251799813685248) as Hec.
  { assert (180 / p - c = c * (Rtrigo1.PI - p) / p) as ->
      by (unfold c; field; lra).
    apply Rabs_le. split.
    - apply Rmult_le_reg_r with p; [lra|].
      replace (c * (Rtrigo1.PI - p) / p * p) with (c * (Rtrigo1.PI - p))
        by (field; lra). nra.
    - apply Rmult_le_reg_r with p; [lra|].
      replace (c * (Rtrigo1.PI - p) / p * p) with (c * (Rtrigo1.PI - p))
        by (field; lra). nra. }
  apply Rabs_le_inv in Hec as [Hec1 Hec2].
  assert (- 4 <= ad <= 4) as [Had1 Had2] by lra.
  replace (xd - alpha * c)
    with ((xd - ad * k) + ad * (k - c) + (ad - alpha) * c) by ring.
  assert (Rabs (ad * (k - c)) <= 4 * (28 * / 2251799813685248)) as H1.
  { rewrite Rabs_mult. apply Rmult_le_compat; try apply Rabs_pos.
    - apply Rabs_le. lra.
    - apply Rabs_le. lra. }
  assert (Rabs ((ad - alpha) * c) <= / 2251799813685248 * 60) as H2.
  { rewrite Rabs_mult. apply Rmult_le_compat; try apply Rabs_pos.
    - apply Rabs_le. lra.
    - apply Rabs_le. lra. }
  apply Rabs_le_inv in H1 as [H11 H12], H2 as [H21 H22].
  apply Rabs_le. lra.
Qed.

Lemma radians_range theta :
  -180 <= theta <= 180 -> - Rtrigo1.PI <= radians theta <= Rtrigo1.PI.
Proof.
  intros [Hl Hu]. pose proof PI_RGT_0 as Hpi. unfold radians. split; nra.
Qed.

Lemma encoded_not_sentinel rho delta theta matrix :
  encodes_rotation rho delta theta matrix ->
  String.eqb matrix "none" || negb (Js.truthy matrix) = false.
Proof.
  intros (values & a & b & Hv & _).
  destruct (String.eqb matrix "none" || negb (Js.truthy matrix)) eqn:S; [|done].
  apply sentinel_spec in S as [-> | ->]; discriminate Hv.
Qed.

Lemma value_not_NaN x r : Num.value x = Some r -> Num.isNaN x = false.
Proof. by destruct x. Qed.

(** The rotation read from two components that are numbers, not both
    zero. *)
Lemma rotation_of_components matrix values a b pg :
  matrix_values matrix = Normal values ->
  (2 <= length values)%nat ->
  Num.value (parseFloat_at values 0) = Some a ->
  Num.value (parseFloat_at values 1) = Some b ->
  a ≠ 0 ∨ b ≠ 0 ->
  ∃ angle alpha r xd,
    getRotationFromMatrix matrix pg = (Normal angle, pg)
    ∧ Num.value angle = Some (IZR (Zfloor (xd + 1 / 2)))
    ∧ - Rtrigo1.PI <= alpha <= Rtrigo1.PI
    ∧ 0 < r ∧ a = r * cos alpha ∧ b = r * sin alpha
    ∧ Rabs (xd - alpha * (180 / Rtrigo1.PI)) <= 1 / 10 ^ 13
    ∧ Rabs xd <= 180 + 1 / 1000.
Proof.
  intros Hv Hlen Ha Hb Hne. pose proof bpow_1024_large.
  rewrite getRotationFromMatrix_eq.
  assert (String.eqb matrix "none" || negb (Js.truthy matrix) = false) as ->.
  { destruct (String.eqb matrix "none" || negb (Js.truthy matrix)) eqn:S; [|done].
    apply sentinel_spec in S as [-> | ->]; discriminate Hv. }
  unfold rotation_of_values. rewrite Hv. cbn [mbind completion_bind mret completion_ret].
  destruct (Nat.ltb_spec (length values) 2) as [?|_]; [lia|].
  rewrite (value_not_NaN _ _ Ha), (value_not_NaN _ _ Hb). cbn [orb].
  destruct (atan2_angle _ _ a b Hb Ha Hne) as (alpha & r & Hval & Hal & Hr & Hca & Hsb).
  destruct (of_real_angle alpha Hal) as [_ Hrange].
  pose proof (degrees_bound (round alpha) Hrange) as Hdb.
  destruct div_180_PI as [-> [Hk1 Hk2]].
  eexists _, alpha, r, (round (round alpha * round (180 / round Rtrigo1.PI))).
  split; [reflexivity|].
  split; [apply round_value, mul_value; [done|lra|lra]|].
  split; [exact Hal|]. split; [done|]. split; [done|]. split; [done|].
  split; [by apply degrees_error|done].
Qed.

(** Rotation extraction on a text that encodes a rotation to within
    [delta], at any scale. *)
Lemma rotation_of_encoded rho delta theta matrix pg :
  0 < rho -> 0 <= delta <= 1 / 100 -> -180 <= theta <= 180 ->
  encodes_rotation rho delta theta matrix ->
  ∃ angle n,
    getRotationFromMatrix matrix pg = (Normal angle, pg)
    ∧ Num.value angle = Some (IZR n)
    ∧ (-180 <= n <= 180)%Z
    ∧ (∃ k : Z, (k = -1 ∨ k = 0 ∨ k = 1)%Z
                ∧ Rabs (IZR n - theta - 360 * IZR k) <= 1 / 2 + tolerance delta)
    ∧ (Rabs theta + tolerance delta < 180 - 1 / 2 ->
       Rabs (IZR n - theta) <= 1 / 2 + tolerance delta)
    ∧ ((-179 <= round_degrees theta <= 179)%Z ->
       Rabs (theta - IZR (round_degrees theta)) < 1 / 2 - tolerance delta ->
       n = round_degrees theta).
Proof.
  intros Hrho Hdelta Htheta (values & a & b & Hv & Hlen & Ha & Hb & Hea & Heb).
  pose proof PI_RGT_0 as Hpi0. pose proof PI_4 as Hpi4.
  pose proof PI2_3_2 as Hpi3.
  assert (a ≠ 0 ∨ b ≠ 0) as Hne.
  { destruct (Req_dec a 0) as [->|]; [|by left]. right. intros ->.
    apply Rabs_le_inv in Hea as [Hea1 Hea2], Heb as [Heb1 Heb2].
    pose proof (sin2_cos2 (radians theta)) as Hsc. unfold Rsqr in Hsc.
    destruct Hdelta.
    assert (- delta <= cos (radians theta) <= delta) as [? ?]
      by (split; apply Rmult_le_reg_r with rho; lra).
    assert (- delta <= sin (radians theta) <= delta) as [? ?]
      by (split; apply Rmult_le_reg_r with rho; lra).
    nra. }
  destruct (rotation_of_components matrix values a b pg Hv Hlen Ha Hb Hne)
    as (angle & alpha & r & xd & E & Hval & Hal & Hr & Hca & Hsb & Hxd & Hbound).
  destruct (angle_close rho delta (radians theta) alpha r a b
              Hrho Hdelta (radians_range theta Htheta) Hal Hr Hca Hsb Hea Heb)
    as (k & Hk & Hclose).
  set (n := Zfloor (xd + 1 / 2)) in *.
  pose proof (Zfloor_bound (xd + 1 / 2)) as [Hn1 Hn2]. fold n in Hn1, Hn2.
  set (c := 180 / Rtrigo1.PI) in *.
  assert (0 < c <= 60) as [Hc0 Hc1].
  { unfold c. split; [apply Rdiv_lt_0_compat; lra|].
    apply Rmult_le_reg_r with Rtrigo1.PI; [lra|].
    unfold Rdiv. rewrite Rmult_assoc, Rinv_l by lra. lra. }
  assert (Rabs (alpha * c - theta - 360 * IZR k) <= 150 * delta) as Hdeg.
  { replace (alpha * c - theta - 360 * IZR k)
      with ((alpha - radians theta - 2 * Rtrigo1.PI * IZR k) * c)
      by (unfold c, radians; field; lra).
    rewrite Rabs_mult, (Rabs_pos_eq c) by lra.
    pose proof (Rabs_pos (alpha - radians theta - 2 * Rtrigo1.PI * IZR k)).
    destruct Hdelta. nra. }
  assert (Rabs (IZR n - theta - 360 * IZR k) <= 1 / 2 + tolerance delta) as Hmain.
  { unfold tolerance. apply Rabs_le_inv in Hxd as [Hx1 Hx2], Hdeg as [Hd1 Hd2].
    destruct Hdelta. apply Rabs_le. simpl in *. lra. }
  assert (-180 <= n <= 180)%Z as Hn.
  { apply round_range. apply Rabs_le_inv in Hbound. lra. }
  assert (0 < tolerance delta) as Htol.
  { unfold tolerance. destruct Hdelta. simpl. lra. }
  exists angle, n. split; [done|]. split; [done|]. split; [done|].
  split; [by exists k|].
  destruct Hn as [Hn180 Hn180']. apply IZR_le in Hn180, Hn180'. split.
  - intros Hfar. pose proof Hmain as Hm.
    apply Rabs_le_inv in Hm as [Hm1 Hm2].
    assert (theta < 180 - 1 / 2 - tolerance delta
            ∧ - (180 - 1 / 2 - tolerance delta) < theta) as [Ht2 Ht1].
    { apply Rabs_def2. lra. }
    destruct Hk as [->|[->| ->]].
    + exfalso. lra.
    + by rewrite Rmult_0_r, Rminus_0_r in Hmain.
    + exfalso. lra.
  - intros Hz Hnear. set (z := round_degrees theta) in *.
    apply Rabs_le_inv in Hmain as [Hm1 Hm2].
    apply Rabs_def2 in Hnear as [Hz1 Hz2].
    destruct Hz as [Hz179 Hz179']. apply IZR_le in Hz179, Hz179'.
    destruct Hk as [->|[->| ->]].
    + exfalso. lra.
    + assert (z - 1 < n < z + 1)%Z as [? ?]; [|lia].
      split; apply lt_IZR; rewrite ?minus_IZR, ?plus_IZR; lra.
    + exfalso. lra.
Qed.











(** For [theta = 180] too the angle returned can be a full turn away:
    with the sine written [-0] the half turn reads back as -180. *)
Lemma half_turn_negative_zero :
  encodes_rotation 1 0 180 "matrix(-1, -0, 0, -1, 0, 0)"
  ∧ ∃ angle,
      getRotationFromMatrix "matrix(-1, -0, 0, -1, 0, 0)" (load [] 0)
      = (Normal angle, load [] 0)
      ∧ Num.value angle = Some (-180).
Proof.
  pose proof PI_RGT_0 as Hpi0. pose proof bpow_1024_large as Hlarge.
  assert (parseFloat_at ["-1"; " -0"; " 0"; " -1"; " 0"; " 0"] 0 = Fin (-1)
          ∧ parseFloat_at ["-1"; " -0"; " 0"; " -1"; " 0"; " 0"] 1 = NegZero)
    as [Ha Hb].
  { split; unfold parseFloat_at, parseFloat; simpl; unfold Num.of_literal; simpl.
    - change (Num.decimal_value _ _) with (IZR 1).
      unfold Num.make. rewrite (round_IZR 1) by (simpl; lia).
      by rewrite !decide_False by lra.
    - change (Num.decimal_value _ _) with (IZR 0).
      unfold Num.make. rewrite round_0.
      rewrite decide_False by lra. by rewrite decide_True by done. }
  split.
  - exists ["-1"; " -0"; " 0"; " -1"; " 0"; " 0"], (-1), 0.
    split; [by vm_compute|]. split; [simpl; lia|].
    rewrite Ha, Hb. split; [done|]. split; [done|].
    assert (radians 180 = Rtrigo1.PI) as -> by (unfold radians; lra).
    rewrite cos_PI, sin_PI. split; apply Rabs_le; lra.
  - rewrite getRotationFromMatrix_eq.
    change (String.eqb _ _ || negb _) with false. cbv iota.
    unfold rotation_of_values.
    change (matrix_values _)
      with (@Normal (list string) ["-1"; " -0"; " 0"; " -1"; " 0"; " 0"]).
    cbn [mbind completion_bind mret completion_ret length Nat.ltb Nat.leb].
    rewrite Ha, Hb. cbn [Num.isNaN orb].
    eexists. split; [reflexivity|].
    assert (Math.atan2 NegZero (Fin (-1)) = Num.of_real (- Rtrigo1.PI)) as ->.
    { unfold Math.atan2, Num.negative. by rewrite bool_decide_eq_true_2 by lra. }
    destruct div_180_PI as [-> [Hk1 Hk2]].
    assert (- Rtrigo1.PI <= - Rtrigo1.PI <= Rtrigo1.PI) as Hrange by lra.
    destruct (of_real_angle _ Hrange) as [Hval Hbounds].
    pose proof (degrees_error _ Hrange) as Herr.
    replace (- Rtrigo1.PI * (180 / Rtrigo1.PI)) with (-180) in Herr
      by (field; lra).
    pose proof (degrees_bound _ Hbounds) as Hb'.
    erewrite round_value; last first.
    { apply mul_value; [done|lra|]. eapply Rle_lt_trans; [exact Hb'|lra]. }
    f_equal. apply f_equal. apply Zfloor_eq.
    apply Rabs_le_inv in Herr. simpl in Herr. lra.
Qed.

End RotationRoundTrip.

(** ** The document *)

Section DomFacts.

Implicit Types (doc : Document) (el : Element) (sel : Dom.selector).

Lemma select_spec sel doc k n :
  n ∈ Dom.select sel doc k
  ↔ (k <= n)%nat ∧ ∃ el, doc !! (n - k)%nat = Some el ∧ Dom.matches sel el = true.
Proof.
  revert k. induction doc as [|el doc IH]; intros k; simpl.
  { split; [by intros ?%elem_of_nil|]. by intros (_ & ? & ? & _). }
  assert (n ∈ Dom.select sel doc (S k)
          ↔ (k < n)%nat ∧ ∃ el', (el :: doc) !! (n - k)%nat = Some el'
                               ∧ Dom.matches sel el' = true) as Hrest.
  { rewrite IH. split.
    - intros (Hle & el' & Hl & Hm). split; [lia|]. exists el'. split; [|done].
      replace (n - k)%nat with (S (n - S k)) by lia. done.
    - intros (Hlt & el' & Hl & Hm). split; [lia|]. exists el'. split; [|done].
      replace (n - k)%nat with (S (n - S k)) in Hl by lia. done. }
  destruct (Dom.matches sel el) eqn:Hm.
  - rewrite elem_of_cons, Hrest. split.
    + intros [-> | (Hlt & H)].
      * split; [lia|]. exists el. by rewrite Nat.sub_diag.
      * split; [lia|done].
    + intros (Hle & H). destruct (decide (n = k)) as [->|]; [by left|].
      right. split; [lia|done].
  - rewrite Hrest. split.
    + intros (Hlt & H). split; [lia|done].
    + intros (Hle & el' & Hl & Hm'). destruct (decide (n = k)) as [->|].
      * rewrite Nat.sub_diag in Hl. simpl in Hl. congruence.
      * split; [lia|]. eauto.
Qed.

Lemma select_NoDup sel doc k : NoDup (Dom.select sel doc k).
Proof.
  revert k. induction doc as [|el doc IH]; intros k; simpl; [constructor|].
  destruct (Dom.matches sel el); [|done].
  constructor; [|done]. rewrite select_spec. lia.
Qed.

Lemma querySelectorAll_spec sel doc n :
  n ∈ Dom.querySelectorAll sel doc
  ↔ ∃ el, doc !! n = Some el ∧ Dom.matches sel el = true.
Proof.
  unfold Dom.querySelectorAll. rewrite select_spec, Nat.sub_0_r.
  split; [by intros [_ ?]|]. intros ?; split; [lia|done].
Qed.

Lemma querySelectorAll_NoDup sel doc : NoDup (Dom.querySelectorAll sel doc).
Proof. apply select_NoDup. Qed.

(** Selecting looks at attributes and classes only. *)
Lemma select_ext sel doc doc' k :
  Forall2 (fun el el' => Dom.matches sel el = Dom.matches sel el') doc doc' ->
  Dom.select sel doc k = Dom.select sel doc' k.
Proof.
  intros H. revert k. induction H as [|el el' doc doc' Hm _ IH]; intros k; simpl; [done|].
  rewrite Hm, !IH. done.
Qed.

Lemma matches_set_transform sel v el :
  Dom.matches sel (Dom.set_transform v el) = Dom.matches sel el.
Proof. by destruct sel. Qed.

Lemma matches_set_transitionDelay sel v el :
  Dom.matches sel (Dom.set_transitionDelay v el) = Dom.matches sel el.
Proof. by destruct sel. Qed.

Lemma erase_lookup doc n :
  erase doc !! n = Dom.set_transform (TransformText "") <$> doc !! n.
Proof. apply list_lookup_fmap. Qed.

Lemma erase_length doc doc' : erase doc = erase doc' -> length doc = length doc'.
Proof. intros H. apply (f_equal length) in H. unfold erase in H. by rewrite !length_fmap in H. Qed.

Lemma closest_within_erase fuel sel doc n :
  Dom.closest_within fuel sel (erase doc) n = Dom.closest_within fuel sel doc n.
Proof.
  revert n. induction fuel as [|fuel IH]; intros n; simpl; [done|].
  rewrite erase_lookup. destruct (doc !! n) as [el|]; simpl; [|done].
  rewrite matches_set_transform. destruct (Dom.matches sel el); [done|].
  destruct (parentElement el); [apply IH|done].
Qed.

Lemma closest_erase sel doc doc' n :
  erase doc = erase doc' -> Dom.closest sel doc n = Dom.closest sel doc' n.
Proof.
  intros H. unfold Dom.closest. rewrite (erase_length _ _ H).
  by rewrite <- (closest_within_erase _ _ doc), H, closest_within_erase.
Qed.

(** The walk to the root ends within the fuel [closest] gives it. *)
Lemma closest_within_enough fuel fuel' sel doc node :
  Dom.well_formed doc -> (node < fuel)%nat -> (node < fuel')%nat ->
  Dom.closest_within fuel sel doc node = Dom.closest_within fuel' sel doc node.
Proof.
  intros Hwf. revert fuel' node.
  induction fuel as [|fuel IH]; intros fuel' node Hlt Hlt'; [lia|].
  destruct fuel' as [|fuel']; [lia|]. simpl.
  destruct (doc !! node) as [el|] eqn:Hel; [|done].
  destruct (Dom.matches sel el); [done|].
  destruct (parentElement el) as [p|] eqn:Hp; [|done].
  pose proof (Hwf node el p Hel Hp). apply IH; lia.
Qed.

Lemma closest_fuel fuel sel doc node :
  Dom.well_formed doc -> (length doc <= fuel)%nat ->
  Dom.closest_within fuel sel doc node = Dom.closest sel doc node.
Proof.
  intros Hwf Hfuel. unfold Dom.closest.
  destruct (decide (node < length doc)%nat) as [Hlt|Hge].
  - apply closest_within_enough; [done|lia|done].
  - assert (doc !! node = None) as Hnone by (apply lookup_ge_None; lia).
    destruct fuel, (length doc); simpl; by rewrite ?Hnone.
Qed.

Lemma erase_alter_set_transform doc n (f : Element -> Element) :
  (∀ el, Dom.set_transform (TransformText "") (f el)
         = Dom.set_transform (TransformText "") el) ->
  erase (alter f n doc) = erase doc.
Proof.
  intros Hf. unfold erase. apply list_eq. intros i.
  rewrite !list_lookup_fmap.
  destruct (decide (i = n)) as [->|Hne].
  - rewrite list_lookup_alter_eq. destruct (doc !! n); simpl; [|done].
    by rewrite Hf.
  - by rewrite list_lookup_alter_ne.
Qed.

End DomFacts.

(** ** The parallax update *)

Section Parallax.

Implicit Types (doc : Document) (el : Element) (pg : Page).

Lemma getRotationFromMatrix_returns matrix pg :
  ∃ cons,
    getRotationFromMatrix matrix pg
    = (Normal (rotation matrix),
       mkPage (document pg) (pageYOffset pg) cons (tickings pg) (frameRequests pg)).
Proof.
  rewrite getRotationFromMatrix_eq. unfold rotation.
  destruct (String.eqb matrix "none" || negb (Js.truthy matrix)).
  { exists (console pg). by destruct pg. }
  destruct (rotation_of_values matrix).
  - exists (console pg). by destruct pg.
  - by eexists.
Qed.

Lemma erase_parallax doc scrolled index n :
  erase (alter (parallax scrolled index) n doc) = erase doc.
Proof.
  apply erase_alter_set_transform. intros el.
  unfold parallax, Dom.assign_transform. by destruct (Css.translateY_rotate _ _).
Qed.

Lemma parallax_frame_refl pg : parallax_frame pg pg.
Proof. by split_and!. Qed.

Lemma parallax_triangle_spec scrolled triangle index pg :
  ∃ pg',
    parallax_triangle scrolled triangle index pg = (Normal tt, pg')
    ∧ parallax_frame pg pg'
    ∧ document pg' =
        match document pg !! triangle with
        | Some el =>
            if skips (document pg) triangle el then document pg
            else alter (parallax scrolled index) triangle (document pg)
        | None => document pg
        end.
Proof.
  unfold parallax_triangle, mbind, eff_bind, gets; simpl.
  destruct (document pg !! triangle) as [el|] eqn:Hel; simpl.
  2: { exists pg. split_and!; [done|apply parallax_frame_refl|done]. }
  fold (skips (document pg) triangle el).
  destruct (skips (document pg) triangle el).
  { exists pg. split_and!; [done|apply parallax_frame_refl|done]. }
  destruct (getRotationFromMatrix_returns (computedTransform el) pg)
    as (cons & ->).
  eexists. split; [reflexivity|]. simpl.
  split.
  - unfold parallax_frame; simpl. split_and!; try done.
    apply erase_alter_set_transform. intros el'.
    unfold Dom.assign_transform. by destruct (Css.translateY_rotate _ _).
  - apply list_eq. intros i. destruct (decide (i = triangle)) as [->|Hne].
    + by rewrite !list_lookup_alter_eq, Hel.
    + by rewrite !list_lookup_alter_ne.
Qed.

Lemma skips_erase doc doc' n el :
  erase doc = erase doc' -> skips doc n el = skips doc' n el.
Proof. intros H. unfold skips. by rewrite (closest_erase _ _ _ _ H). Qed.

Lemma parallax_frame_trans pg1 pg2 pg3 :
  parallax_frame pg1 pg2 -> parallax_frame pg2 pg3 -> parallax_frame pg1 pg3.
Proof. unfold parallax_frame. intros (?&?&?&?) (?&?&?&?). split_and!; congruence. Qed.

Lemma forEach_parallax scrolled l k pg :
  NoDup l ->
  ∃ pg',
    forEach (parallax_triangle scrolled) l k pg = (Normal tt, pg')
    ∧ parallax_frame pg pg'
    ∧ (∀ n, n ∉ l -> document pg' !! n = document pg !! n)
    ∧ (∀ j n el,
         l !! j = Some n -> document pg !! n = Some el ->
         document pg' !! n
         = Some (if skips (document pg) n el then el
                 else parallax scrolled (k + j) el)).
Proof.
  intros Hnd. revert k pg.
  induction Hnd as [|t l Hnotin Hnd IH]; intros k pg; simpl.
  { exists pg. split_and!; [done|apply parallax_frame_refl|done|].
    by intros ???; rewrite lookup_nil. }
  destruct (parallax_triangle_spec scrolled t k pg) as (pg1 & E1 & F1 & D1).
  destruct (IH (S k) pg1) as (pg2 & E2 & F2 & Hout & Hin).
  exists pg2. unfold mbind, eff_bind. rewrite E1. split; [exact E2|].
  split; [by eapply parallax_frame_trans|].
  assert (∀ n, n ≠ t -> document pg1 !! n = document pg !! n) as Hother.
  { intros n Hn. rewrite D1. destruct (document pg !! t) as [el|]; [|done].
    destruct (skips _ _ _); [done|]. by rewrite list_lookup_alter_ne. }
  split.
  - intros n Hn. rewrite not_elem_of_cons in Hn. destruct Hn as [Hne Hn].
    rewrite Hout by done. by apply Hother.
  - intros [|j] n el Hj Hel; simpl in Hj.
    + simplify_eq. rewrite Hout by done. rewrite D1, Hel, Nat.add_0_r.
      destruct (skips (document pg) n el); [done|].
      rewrite list_lookup_alter_eq, Hel. done.
    + assert (n ≠ t) as Hne.
      { intros ->. apply Hnotin. by eapply list_elem_of_lookup_2. }
      rewrite (Hin j n el Hj) by (by rewrite Hother).
      destruct F1 as (_ & _ & _ & Her).
      rewrite (skips_erase _ _ _ _ Her).
      by replace (S k + j)%nat with (k + S j)%nat by lia.
Qed.

Lemma updateParallax_spec pg :
  ∃ pg',
    updateParallax pg = (Normal tt, pg')
    ∧ parallax_frame pg pg'
    ∧ (∀ n, n ∉ Dom.querySelectorAll (Dom.HasClass "triangle") (document pg) ->
            document pg' !! n = document pg !! n)
    ∧ (∀ index n el,
         Dom.querySelectorAll (Dom.HasClass "triangle") (document pg) !! index
           = Some n ->
         document pg !! n = Some el ->
         document pg' !! n
         = Some (if skips (document pg) n el then el
                 else parallax (pageYOffset pg) index el)).
Proof.
  unfold updateParallax, mbind, eff_bind, gets; simpl.
  apply forEach_parallax, querySelectorAll_NoDup.
Qed.

End Parallax.

(** ** Visibility notifications *)

Section Reveal.

Implicit Types (doc : Document) (el : Element) (pg : Page) (this : ScrollAnimator).

Lemma handle_entry_spec this pg entry :
  handle_entry (this, pg) entry
  = (set_observer
       (if isIntersecting entry && once (options this)
        then Dom.unobserve (target entry) (observer this)
        else observer this) this,
     set_document
       (alter (mark (once (options this)) (isIntersecting entry))
              (target entry) (document pg)) pg).
Proof.
  unfold handle_entry, mark, Dom.update.
  destruct this as [opts els obs], pg as [doc y cons ts rs]; simpl.
  destruct (isIntersecting entry), (once opts); simpl; try done.
  by rewrite list_alter_id.
Qed.

Lemma revealed_alter_ne doc (f : Element -> Element) n m :
  n ≠ m -> revealed (alter f m doc) n ↔ revealed doc n.
Proof. intros Hne. unfold revealed. by rewrite list_lookup_alter_ne. Qed.

Lemma revealed_alter_eq doc (f : Element -> Element) n :
  revealed (alter f n doc) n
  ↔ ∃ el, doc !! n = Some el ∧ "animated" ∈ classList (f el).
Proof.
  unfold revealed. rewrite list_lookup_alter_eq. split.
  - intros (el' & Hl & Hin). destruct (doc !! n) as [el|]; simplify_eq/=. eauto.
  - intros (el & -> & Hin). eauto.
Qed.

Lemma revealed_mark doc once intersecting n :
  is_Some (doc !! n) ->
  revealed (alter (mark once intersecting) n doc) n
  ↔ intersecting = true ∨ (once = true ∧ revealed doc n).
Proof.
  intros [el Hel]. rewrite revealed_alter_eq. unfold revealed, mark.
  split.
  - intros (el' & Hl & Hin). simplify_eq.
    destruct intersecting; [by left|]. right.
    destruct once; [eauto|]. exfalso. revert Hin. simpl.
    intros [_ Hn]%elem_of_difference. apply Hn. by apply elem_of_singleton.
  - intros [-> | [-> (el' & Hl & Hin)]]; exists el; (split; [done|]).
    + simpl. apply elem_of_union. right. by apply elem_of_singleton.
    + simplify_eq. destruct intersecting; [|done].
      simpl. apply elem_of_union. by left.
Qed.

Lemma handleIntersection_app this pg es1 es2 :
  handleIntersection this (es1 ++ es2) pg
  = handleIntersection (handleIntersection this es1 pg).1 es2
                       (handleIntersection this es1 pg).2.
Proof.
  unfold handleIntersection. rewrite foldl_app.
  by destruct (foldl handle_entry (this, pg) es1).
Qed.

Lemma notification_intersecting t r element :
  isIntersecting (notification t r element) = true ↔ t <= r.
Proof. unfold notification; simpl. by rewrite bool_decide_eq_true. Qed.

(** Claim C2, amended.  Handling the notification of ratio [r] from a
    watcher of threshold [t] leaves the element revealed if and only if
    [t <= r], or the controller is single-shot and the element was revealed
    already.  So outside single-shot mode the element ends revealed exactly
    when [t <= r], and a later notification with [r < t] removes the
    mark. *)
Theorem handleIntersection_reveal this pg t r element :
  is_Some (document pg !! element) ->
  revealed (document (handleIntersection this [notification t r element] pg).2)
           element
  ↔ t <= r ∨ (once (options this) = true ∧ revealed (document pg) element).
Proof.
  intros Hel. unfold handleIntersection. cbn [foldl].
  rewrite handle_entry_spec. cbn [snd document set_document].
  rewrite revealed_mark by done. by rewrite notification_intersecting.
Qed.

Lemma handle_entry_options st entry :
  options (handle_entry st entry).1 = options st.1.
Proof. destruct st as [this pg]. by rewrite handle_entry_spec. Qed.

Lemma handle_entry_once_keeps this pg entry n :
  once (options this) = true ->
  revealed (document pg) n ->
  revealed (document (handle_entry (this, pg) entry).2) n.
Proof.
  intros Honce Hrev. rewrite handle_entry_spec, Honce; simpl.
  destruct (decide (n = target entry)) as [->|Hne].
  - apply revealed_mark; [|by destruct (isIntersecting entry); auto].
    destruct Hrev as (el & -> & _). eauto.
  - by apply revealed_alter_ne.
Qed.

Lemma handle_entry_targets this pg entry :
  targets (observer (handle_entry (this, pg) entry).1) ⊆ targets (observer this).
Proof.
  rewrite handle_entry_spec; simpl.
  destruct (isIntersecting entry && once (options this)); simpl; [|done].
  apply subseteq_difference_l. done.
Qed.

Lemma handle_entry_frame this pg entry :
  tickings (handle_entry (this, pg) entry).2 = tickings pg
  ∧ frameRequests (handle_entry (this, pg) entry).2 = frameRequests pg.
Proof. by rewrite handle_entry_spec. Qed.

Lemma handleIntersection_frame this pg entries :
  options (handleIntersection this entries pg).1 = options this
  ∧ tickings (handleIntersection this entries pg).2 = tickings pg
  ∧ frameRequests (handleIntersection this entries pg).2 = frameRequests pg.
Proof.
  unfold handleIntersection. revert this pg.
  induction entries as [|entry entries IH]; intros this pg; cbn [foldl]; [done|].
  pose proof (handle_entry_options (this, pg) entry) as Ho.
  pose proof (handle_entry_frame this pg entry) as (Ht & Hf).
  destruct (handle_entry (this, pg) entry) as [this1 pg1].
  destruct (IH this1 pg1) as (-> & -> & ->). done.
Qed.

(** In single-shot mode a batch removes no mark and adds no target. *)
Lemma handleIntersection_once_keeps this pg entries n :
  once (options this) = true ->
  (revealed (document pg) n ->
   revealed (document (handleIntersection this entries pg).2) n)
  ∧ targets (observer (handleIntersection this entries pg).1)
    ⊆ targets (observer this).
Proof.
  unfold handleIntersection. revert this pg.
  induction entries as [|entry entries IH]; intros this pg Honce; cbn [foldl];
    [done|].
  pose proof (handle_entry_options (this, pg) entry) as Ho.
  pose proof (handle_entry_once_keeps this pg entry n Honce) as Hk.
  pose proof (handle_entry_targets this pg entry) as Ht.
  destruct (handle_entry (this, pg) entry) as [this1 pg1]. simpl in *.
  destruct (IH this1 pg1) as [IH1 IH2]; [congruence|].
  split; [auto|]. by etrans.
Qed.

End Reveal.

(** ** Initialisation and refresh *)

Section Init.

Implicit Types (doc : Document) (el : Element) (pg : Page) (this : ScrollAnimator)
  (obs : IntersectionObserver).

Lemma init_loop_spec obs doc els :
  foldl init_element (obs, doc) els
  = (foldl (fun o e => Dom.observe e o) obs els,
     foldl (fun d e => alter apply_delay e d) doc els).
Proof.
  revert obs doc. induction els as [|e els IH]; intros obs doc; simpl; [done|].
  unfold init_element at 2, init_observe, init_set_delay; simpl.
  by rewrite IH.
Qed.

Lemma observe_all_targets obs els :
  targets (foldl (fun o e => Dom.observe e o) obs els)
  = targets obs ∪ list_to_set els.
Proof.
  revert obs. induction els as [|e els IH]; intros obs; simpl.
  - by rewrite (right_id_L ∅ (∪)).
  - rewrite IH; simpl. by rewrite <- (assoc_L (∪)).
Qed.

Lemma observe_all_rest obs els :
  io_threshold (foldl (fun o e => Dom.observe e o) obs els) = io_threshold obs
  ∧ io_rootMargin (foldl (fun o e => Dom.observe e o) obs els) = io_rootMargin obs.
Proof.
  revert obs. induction els as [|e els IH]; intros obs; simpl; [done|].
  by destruct (IH (Dom.observe e obs)) as [-> ->].
Qed.

Lemma assign_delay_idemp text before :
  Css.assign_delay text (Css.assign_delay text before)
  = Css.assign_delay text before.
Proof.
  unfold Css.assign_delay.
  destruct (String.eqb text "") eqn:E; [done|].
  destruct (Css.plain_milliseconds text) eqn:P; [done|].
  destruct before as [t|t b]; [by rewrite String.eqb_refl|].
  destruct (String.eqb t text) eqn:Et; [by rewrite Et|].
  by rewrite String.eqb_refl.
Qed.

Lemma apply_delay_idemp el : apply_delay (apply_delay el) = apply_delay el.
Proof.
  unfold apply_delay at 2 3.
  destruct (Dom.getAttribute "data-scroll-delay" el) as [delay|] eqn:E;
    [|unfold apply_delay; by rewrite E].
  destruct (Js.truthy delay) eqn:T; unfold apply_delay.
  - change (Dom.getAttribute _ (Dom.set_transitionDelay _ el))
      with (Dom.getAttribute "data-scroll-delay" el).
    rewrite E, T. unfold Dom.set_transitionDelay; simpl.
    by rewrite assign_delay_idemp.
  - by rewrite E, T.
Qed.

Lemma matches_apply_delay sel el :
  Dom.matches sel (apply_delay el) = Dom.matches sel el.
Proof.
  unfold apply_delay. destruct (Dom.getAttribute _ el) as [delay|]; [|done].
  destruct (Js.truthy delay); [|done]. apply matches_set_transitionDelay.
Qed.

Lemma classList_apply_delay el : classList (apply_delay el) = classList el.
Proof.
  unfold apply_delay. destruct (Dom.getAttribute _ el) as [delay|]; [|done].
  by destruct (Js.truthy delay).
Qed.

(** The document after the loop of [init]. *)
Lemma delays_lookup doc els n :
  foldl (fun d e => alter apply_delay e d) doc els !! n
  = if decide (n ∈ els) then apply_delay <$> doc !! n else doc !! n.
Proof.
  revert doc. induction els as [|e els IH]; intros doc; cbn [foldl].
  { by destruct (decide (n ∈ [])) as [?%elem_of_nil|]. }
  rewrite IH.
  destruct (decide (n ∈ e :: els)) as [Hin|Hnin],
           (decide (n ∈ els)) as [Hin'|Hnin'].
  - destruct (decide (n = e)) as [->|Hne].
    + rewrite list_lookup_alter_eq. destruct (doc !! e); simpl; [|done].
      by rewrite apply_delay_idemp.
    + by rewrite list_lookup_alter_ne.
  - apply elem_of_cons in Hin as [->|?]; [|done].
    by rewrite list_lookup_alter_eq.
  - exfalso. apply Hnin. by apply list_elem_of_further.
  - rewrite list_lookup_alter_ne; [done|].
    intros ->. apply Hnin. apply list_elem_of_here.
Qed.

Lemma delays_select sel doc els k :
  Dom.select sel (foldl (fun d e => alter apply_delay e d) doc els) k
  = Dom.select sel doc k.
Proof.
  apply select_ext. apply Forall2_same_length_lookup. split.
  - revert doc. induction els as [|e els IH]; intros doc; simpl; [done|].
    by rewrite IH, length_alter.
  - intros i el el' Hl Hl'. rewrite delays_lookup, Hl' in Hl.
    destruct (decide (i ∈ els)); simplify_eq/=; [|done].
    apply matches_apply_delay.
Qed.

Lemma init_spec opts pg :
  let els := Dom.querySelectorAll (Dom.HasAttribute "data-scroll") (document pg) in
  let doc' := foldl (fun d e => alter apply_delay e d) (document pg) els in
  init opts pg
  = (mkAnimator opts els
       (mkObserver (threshold opts) (offset opts) (list_to_set els)),
     addParallaxEffect (set_document doc' pg)).
Proof.
  intros els doc'. unfold init. fold els. rewrite init_loop_spec; simpl.
  fold doc'. do 2 f_equal.
  set (obs0 := mkObserver (threshold opts) (offset opts) ∅).
  pose proof (observe_all_targets obs0 els) as Ht.
  pose proof (observe_all_rest obs0 els) as [H1 H2].
  destruct (foldl (fun o e => Dom.observe e o) obs0 els) as [th rm tg].
  simpl in *. subst. by rewrite (left_id_L ∅ (∪)).
Qed.

(** [refresh] drops the old observer, emptied, and initialises anew. *)
Lemma refresh_spec this pg : refresh this pg = init (options this) pg.
Proof.
  unfold refresh. f_equal.
  generalize (elements this) as l. intros l. revert this.
  induction l as [|e l IH]; intros this; simpl; [done|]. by rewrite IH.
Qed.

(** Claim C7.  A second [refresh()] right after a first one leaves the
    watched elements, the observed targets and the whole document, so
    every revealed mark, as the first one left them. *)
Theorem refresh_idempotent this pg :
  let st1 := refresh this pg in
  let st2 := refresh st1.1 st1.2 in
  elements st2.1 = elements st1.1
  ∧ targets (observer st2.1) = targets (observer st1.1)
  ∧ document st2.2 = document st1.2
  ∧ ∀ element,
      revealed (document st2.2) element ↔ revealed (document st1.2) element.
Proof.
  intros st1 st2. subst st2 st1.
  rewrite !refresh_spec, (init_spec _ pg). cbn [fst snd options].
  set (els := Dom.querySelectorAll _ (document pg)).
  set (doc1 := foldl _ (document pg) els).
  rewrite init_spec. cbn [fst snd elements observer targets document
    addParallaxEffect set_tickings set_document].
  assert (Dom.querySelectorAll (Dom.HasAttribute "data-scroll") doc1 = els) as ->.
  { apply delays_select. }
  assert (foldl (fun d e => alter apply_delay e d) doc1 els = doc1) as ->.
  { apply list_eq. intros n. subst doc1. rewrite !delays_lookup.
    destruct (decide (n ∈ els)); [|done].
    destruct (document pg !! n); simpl; [|done]. by rewrite apply_delay_idemp. }
  done.
Qed.

(** Every [refresh()] adds one more scroll listener, with a flag of
    its own. *)
Lemma refresh_adds_listener this pg :
  tickings (refresh this pg).2 = (tickings pg ++ [false])%list.
Proof. by rewrite refresh_spec, init_spec. Qed.

End Init.

Section InitDelay.

Implicit Types (doc : Document) (el : Element) (pg : Page)
  (st : IntersectionObserver * Document).

Lemma before_ms_app d : Css.before_ms (d ++ "ms") = Some d.
Proof.
  induction d as [|c d IH]; [done|].
  change (String c d ++ "ms") with (String c (d ++ "ms")).
  cbn [Css.before_ms]. rewrite IH.
  destruct (String.eqb (String c (d ++ "ms")) "ms") eqn:E; [|done].
  apply String.eqb_eq in E. exfalso.
  injection E as _ E.
  destruct d as [|c1 [|c2 d]]; cbv [String.append] in E; congruence.
Qed.

Lemma plain_number_milliseconds d :
  Css.plain_number d = true ->
  Js.truthy d = true
  ∧ Css.assign_delay (d ++ "ms") = fun _ => DelayText (d ++ "ms").
Proof.
  intros Hd. split; [by destruct d|].
  unfold Css.assign_delay, Css.plain_milliseconds.
  rewrite before_ms_app, Hd.
  by destruct d as [|c d]; [|destruct d].
Qed.

Lemma apply_delay_declared el delay :
  Dom.getAttribute "data-scroll-delay" el = Some delay ->
  Js.truthy delay = true ->
  transitionDelay (style (apply_delay el))
  = Css.assign_delay (delay ++ "ms") (transitionDelay (style el)).
Proof. intros E T. unfold apply_delay. by rewrite E, T. Qed.

Lemma apply_delay_plain el delay :
  Dom.getAttribute "data-scroll-delay" el = Some delay ->
  Css.plain_number delay = true ->
  transitionDelay (style (apply_delay el)) = DelayText (delay ++ "ms").
Proof.
  intros E [T A]%plain_number_milliseconds.
  by rewrite (apply_delay_declared el delay E T), A.
Qed.

Lemma apply_delay_undeclared el :
  Dom.getAttribute "data-scroll-delay" el = None -> apply_delay el = el.
Proof. intros E. unfold apply_delay. by rewrite E. Qed.

Lemma init_states_app st l1 l2 :
  init_states st (l1 ++ l2)
  = (init_states st l1 ++ init_states (foldl init_element st l1) l2)%list.
Proof.
  revert st. induction l1 as [|e l1 IH]; intros st; [done|].
  cbn [app init_states foldl]. by rewrite IH.
Qed.

Lemma init_states_last st els :
  last (st :: init_states st els) = Some (foldl init_element st els).
Proof.
  revert st. induction els as [|e els IH]; intros st; [done|].
  cbn [init_states foldl].
  rewrite !last_cons_cons. apply IH.
Qed.

(** What the loop keeps true of an element that declares a delay: the
    element is as it was or has its delay, and has it if it is
    observed. *)
Lemma init_states_delayed st els element el :
  (st.2 !! element = Some el ∨ st.2 !! element = Some (apply_delay el)) ->
  (element ∈ targets st.1 -> st.2 !! element = Some (apply_delay el)) ->
  ∀ st', st' ∈ init_states st els ->
    (st'.2 !! element = Some el ∨ st'.2 !! element = Some (apply_delay el))
    ∧ (element ∈ targets st'.1 -> st'.2 !! element = Some (apply_delay el)).
Proof.
  revert st. induction els as [|e els IH]; intros st Hq Hp st' Hin.
  { by apply elem_of_nil in Hin. }
  cbn [init_states] in Hin.
  set (delayed := init_set_delay e st) in *.
  set (observed := init_observe e delayed) in *.
  assert ((delayed.2 !! element = Some el
           ∨ delayed.2 !! element = Some (apply_delay el))
          ∧ (e = element -> delayed.2 !! element = Some (apply_delay el))
          ∧ (element ∈ targets delayed.1 ->
             delayed.2 !! element = Some (apply_delay el))) as (Hq1 & He1 & Hp1).
  { subst delayed. unfold init_set_delay. cbn [fst snd].
    destruct (decide (e = element)) as [->|Hne].
    - rewrite list_lookup_alter_eq.
      assert (apply_delay <$> st.2 !! element = Some (apply_delay el)) as ->.
      { destruct Hq as [-> | ->]; simpl; [done|]. by rewrite apply_delay_idemp. }
      auto.
    - rewrite list_lookup_alter_ne by done. split_and!; [done|done|done]. }
  assert ((observed.2 !! element = Some el
           ∨ observed.2 !! element = Some (apply_delay el))
          ∧ (element ∈ targets observed.1 ->
             observed.2 !! element = Some (apply_delay el))) as (Hq2 & Hp2).
  { subst observed. unfold init_observe. cbn [fst snd Dom.observe targets].
    split; [done|].
    intros [Hin'|Heq%elem_of_singleton]%elem_of_union; auto. }
  apply elem_of_cons in Hin as [->|Hin]; [done|].
  apply elem_of_cons in Hin as [->|Hin]; [done|].
  by apply (IH observed).
Qed.

(** An element that declares no delay is left as it is throughout. *)
Lemma init_states_undelayed st els n el :
  Dom.getAttribute "data-scroll-delay" el = None ->
  st.2 !! n = Some el ->
  ∀ st', st' ∈ init_states st els -> st'.2 !! n = Some el.
Proof.
  intros Hattr. revert st. induction els as [|e els IH]; intros st Hl st' Hin.
  { by apply elem_of_nil in Hin. }
  cbn [init_states] in Hin.
  assert ((init_set_delay e st).2 !! n = Some el) as H1.
  { unfold init_set_delay. cbn [snd].
    destruct (decide (e = n)) as [->|Hne].
    - by rewrite list_lookup_alter_eq, Hl; simpl; rewrite apply_delay_undeclared.
    - by rewrite list_lookup_alter_ne. }
  apply elem_of_cons in Hin as [->|Hin]; [done|].
  apply elem_of_cons in Hin as [->|Hin]; [done|].
  by apply (IH (init_observe e (init_set_delay e st))).
Qed.

Lemma not_in_earlier (l : list nat) k x :
  NoDup l -> l !! k = Some x -> x ∉ take k l.
Proof.
  intros Hnd Hk [j Hj]%list_elem_of_lookup_1.
  apply lookup_take_Some in Hj as [Hj Hlt].
  pose proof (NoDup_lookup _ _ _ _ Hnd Hj Hk). lia.
Qed.

Lemma init_document opts pg n :
  document (init opts pg).2 !! n
  = if decide (n ∈ Dom.querySelectorAll (Dom.HasAttribute "data-scroll")
                     (document pg))
    then apply_delay <$> document pg !! n
    else document pg !! n.
Proof. rewrite init_spec. cbn. apply delays_lookup. Qed.

Lemma init_observer_document opts pg :
  foldl init_element
    (mkObserver (threshold opts) (offset opts) ∅, document pg)
    (Dom.querySelectorAll (Dom.HasAttribute "data-scroll") (document pg))
  = (observer (init opts pg).1, document (init opts pg).2).
Proof. unfold init. by destruct (foldl init_element _ _). Qed.

(** Claim C9.  The loop of [init] is followed statement by statement.
    For a watched element that declares the delay ["200"]: in no state of
    the loop is the element observed without its transition delay being
    ["200ms"]; the loop passes through a state in which the delay is
    ["200ms"] and the element is not yet observed, and the next statement
    observes it; after [init] it is observed and its delay is ["200ms"].
    An element that declares no delay keeps its transition delay in every
    state. *)
Theorem init_delay opts pg :
  let els := Dom.querySelectorAll (Dom.HasAttribute "data-scroll") (document pg) in
  let start := (mkObserver (threshold opts) (offset opts) ∅, document pg) in
  let states := init_states start els in
  last (start :: states)
  = Some (observer (init opts pg).1, document (init opts pg).2)
  ∧ (∀ element el,
       document pg !! element = Some el ->
       is_Some (Dom.getAttribute "data-scroll" el) ->
       Dom.getAttribute "data-scroll-delay" el = Some "200" ->
       (∀ st, st ∈ start :: states ->
              element ∈ targets st.1 ->
              delay_at st.2 element = Some (DelayText "200ms"))
       ∧ (∃ earlier delayed later,
            states
            = (earlier ++ delayed :: init_observe element delayed :: later)%list
            ∧ (element ∉ targets delayed.1)
            ∧ delay_at delayed.2 element = Some (DelayText "200ms"))
       ∧ element ∈ targets (observer (init opts pg).1)
       ∧ delay_at (document (init opts pg).2) element
         = Some (DelayText "200ms"))
  ∧ (∀ n el,
       document pg !! n = Some el ->
       Dom.getAttribute "data-scroll-delay" el = None ->
       ∀ st, st ∈ start :: states ->
             delay_at st.2 n = Some (transitionDelay (style el))).
Proof.
  intros els start states.
  assert (last (start :: states) = Some (foldl init_element start els)) as Hlast
    by apply init_states_last.
  split; [by rewrite Hlast; subst start els; rewrite init_observer_document|].
  split.
  - intros element el Hel Hwatched Hattr.
    assert (transitionDelay (style (apply_delay el)) = DelayText "200ms") as Hd
      by (by apply (apply_delay_plain el "200")).
    assert (element ∈ els) as Hin.
    { subst els. apply querySelectorAll_spec. exists el. split; [done|].
      simpl. by apply bool_decide_eq_true. }
    assert (∀ st, st ∈ start :: states ->
              element ∈ targets st.1 ->
              st.2 !! element = Some (apply_delay el)) as Hinv.
    { intros st [->|Hst]%elem_of_cons.
      - subst start. cbn [fst targets]. by intros ?%elem_of_empty.
      - apply (init_states_delayed start els element el); subst start;
          cbn [fst snd targets]; auto.
        by intros ?%elem_of_empty. }
    split_and!.
    + intros st Hst Hobs. unfold delay_at. rewrite (Hinv st Hst Hobs). simpl.
      by rewrite Hd.
    + apply list_elem_of_lookup_1 in Hin as [k Hk].
      pose proof (not_in_earlier els k element
                    (querySelectorAll_NoDup _ _) Hk) as Hnot.
      pose proof (take_drop_middle els k element Hk) as Hsplit.
      set (before := foldl init_element start (take k els)).
      exists (init_states start (take k els)), (init_set_delay element before),
        (init_states (init_observe element (init_set_delay element before))
           (drop (S k) els)).
      split_and!.
      * subst states. rewrite <- Hsplit at 1. by rewrite init_states_app.
      * subst before start. rewrite init_loop_spec. cbn [init_set_delay fst snd].
        rewrite observe_all_targets; simpl. rewrite (left_id_L ∅ (∪)).
        by rewrite elem_of_list_to_set.
      * subst before start. rewrite init_loop_spec. cbn [init_set_delay fst snd].
        unfold delay_at.
        rewrite list_lookup_alter_eq, delays_lookup, decide_False, Hel by done.
        simpl. by rewrite Hd.
    + rewrite init_spec; simpl. by rewrite elem_of_list_to_set.
    + unfold delay_at.
      rewrite init_document, decide_True, Hel by done. simpl. by rewrite Hd.
  - intros n el Hel Hattr st Hst. unfold delay_at.
    assert (st.2 !! n = Some el) as ->; [|done].
    apply elem_of_cons in Hst as [->|Hst]; [done|].
    by apply (init_states_undelayed start els n el).
Qed.

End InitDelay.

(** ** Scroll events and display refreshes *)

Section Scheduling.

Implicit Types (doc : Document) (pg : Page) (this : ScrollAnimator).

Lemma frame_callback_spec i pg :
  ∃ pg',
    updateParallax pg = (Normal tt, pg')
    ∧ parallax_frame pg pg'
    ∧ frame_callback i pg
      = (Normal tt, set_tickings (<[i := false]> (tickings pg)) pg').
Proof.
  destruct (updateParallax_spec pg) as (pg' & E & F & _).
  exists pg'. split; [done|]. split; [done|].
  unfold frame_callback, mbind, eff_bind, modify. rewrite E.
  by destruct F as (_ & -> & _).
Qed.

Lemma scroll_listener_document i pg :
  document (scroll_listener i pg) = document pg.
Proof. unfold scroll_listener. by destruct (tickings pg !! i) as [[]|]. Qed.

Lemma scroll_listeners_document l pg :
  document (foldl (fun pg i => scroll_listener i pg) pg l) = document pg.
Proof.
  revert pg. induction l as [|i l IH]; intros pg; simpl; [done|].
  by rewrite IH, scroll_listener_document.
Qed.

Lemma dispatch_scroll_document y pg :
  document (dispatch_scroll y pg) = document pg.
Proof. unfold dispatch_scroll. by rewrite scroll_listeners_document. Qed.

Lemma frame_callbacks_erase l pg :
  erase (document (foldl (fun pg i => (frame_callback i pg).2) pg l))
  = erase (document pg).
Proof.
  revert pg. induction l as [|i l IH]; intros pg; simpl; [done|].
  rewrite IH. destruct (frame_callback_spec i pg) as (pg' & _ & F & ->).
  simpl. by destruct F as (_ & _ & _ & ->).
Qed.

Lemma run_frame_erase pg :
  erase (document (run_frame pg)) = erase (document pg).
Proof. unfold run_frame. by rewrite frame_callbacks_erase. Qed.

Lemma revealed_erase doc n : revealed (erase doc) n ↔ revealed doc n.
Proof.
  unfold revealed. rewrite erase_lookup. split.
  - intros (el' & Hl & Hin). destruct (doc !! n) as [el|]; simplify_eq/=. eauto.
  - intros (el & -> & Hin). simpl. eauto.
Qed.

Lemma revealed_same_erase doc doc' n :
  erase doc = erase doc' -> revealed doc n ↔ revealed doc' n.
Proof. intros H. by rewrite <- (revealed_erase doc), H, revealed_erase. Qed.

Lemma init_revealed opts pg element :
  revealed (document (init opts pg).2) element ↔ revealed (document pg) element.
Proof.
  unfold revealed. rewrite init_document.
  case_decide; [|done]. split.
  - intros (el' & Hl & Hin). destruct (document pg !! element) as [el|];
      simplify_eq/=. rewrite classList_apply_delay in Hin. eauto.
  - intros (el & -> & Hin). exists (apply_delay el).
    by rewrite classList_apply_delay.
Qed.

Lemma step_single_shot_revealed element st ev :
  single_shot_revealed element st -> single_shot_revealed element (step st ev).
Proof.
  destruct st as [this pg]. intros (Honce & Hrev). simpl in Honce, Hrev.
  destruct ev as [y| |entries|]; unfold single_shot_revealed, step; cbn [fst snd].
  - split; [done|]. by rewrite dispatch_scroll_document.
  - split; [done|].
    by rewrite (revealed_same_erase _ _ _ (run_frame_erase pg)).
  - destruct (handleIntersection_once_keeps this pg entries element Honce)
      as [Hk _].
    destruct (handleIntersection_frame this pg entries) as (Ho & _).
    split; [congruence|auto].
  - rewrite refresh_spec. split; [by rewrite init_spec|].
    by apply init_revealed.
Qed.

Lemma step_single_shot element st ev :
  ev ≠ Refresh ->
  single_shot_kept element st -> single_shot_kept element (step st ev).
Proof.
  intros Hev [Hrev Hout]. split; [by apply step_single_shot_revealed|].
  destruct st as [this pg]. destruct Hrev as [Honce _]. simpl in Honce, Hout.
  destruct ev as [y| |entries|]; unfold step; cbn [fst snd]; try done.
  destruct (handleIntersection_once_keeps this pg entries element Honce)
    as [_ Hsub].
  intros Hin. apply Hout. by apply Hsub.
Qed.

Lemma run_single_shot_revealed element st evs :
  single_shot_revealed element st -> single_shot_revealed element (run st evs).
Proof.
  unfold run. revert st. induction evs as [|ev evs IH]; intros st H; simpl; [done|].
  by apply IH, step_single_shot_revealed.
Qed.

Lemma run_single_shot element st evs :
  refresh_free evs ->
  single_shot_kept element st -> single_shot_kept element (run st evs).
Proof.
  unfold run. intros Hfree. revert st.
  induction Hfree as [|ev evs Hev _ IH]; intros st H; simpl; [done|].
  by apply IH, step_single_shot.
Qed.

(** Claim C3.  In single-shot mode, at the moment a notification reveals
    an element the element is also unobserved.  After any further events
    (scrolls, display refreshes, [refresh()] calls, notifications for any
    target and of any ratio, zero included) it is still revealed; and as
    long as [refresh()] is not called it is still unobserved, so no batch
    the browser may deliver names it. *)
Theorem single_shot_is_final this pg t r element evs :
  once (options this) = true ->
  is_Some (document pg !! element) ->
  t <= r ->
  let st1 := handleIntersection this [notification t r element] pg in
  let st2 := run st1 evs in
  (revealed (document st1.2) element ∧ element ∉ targets (observer st1.1))
  ∧ revealed (document st2.2) element
  ∧ (refresh_free evs ->
     (element ∉ targets (observer st2.1))
     ∧ ∀ entries entry,
         deliverable (observer st2.1) entries -> entry ∈ entries ->
         target entry ≠ element).
Proof.
  intros Honce Hel Htr st1 st2.
  assert (single_shot_kept element st1) as H1.
  { subst st1. unfold handleIntersection. cbn [foldl].
    rewrite handle_entry_spec.
    unfold single_shot_kept, single_shot_revealed; simpl.
    rewrite Honce, bool_decide_eq_true_2 by done. simpl.
    split_and!; [done| |].
    - apply revealed_mark; auto.
    - intros [_ Hn]%elem_of_difference. apply Hn. by apply elem_of_singleton. }
  pose proof (run_single_shot_revealed element st1 evs (proj1 H1)) as [_ H2].
  split; [by destruct H1 as [[_ ?] ?]|]. split; [done|].
  intros Hfree.
  pose proof (run_single_shot element st1 evs Hfree H1) as [_ Hout].
  split; [done|].
  intros entries entry Hdel Hin Heq. apply Hout.
  rewrite <- Heq. by apply Hdel.
Qed.

End Scheduling.

Section Gate.

Implicit Types (pg : Page).

Lemma init_gate opts doc y :
  tickings (init opts (load doc y)).2 = [false]
  ∧ frameRequests (init opts (load doc y)).2 = [].
Proof. by rewrite init_spec. Qed.

Lemma dispatch_scroll_pending y pg :
  tickings pg = [true] ->
  tickings (dispatch_scroll y pg) = [true]
  ∧ frameRequests (dispatch_scroll y pg) = frameRequests pg.
Proof.
  intros Ht. unfold dispatch_scroll; simpl. rewrite Ht; simpl.
  unfold scroll_listener; simpl. by rewrite Ht.
Qed.

Lemma dispatch_scroll_clear y pg :
  tickings pg = [false] ->
  tickings (dispatch_scroll y pg) = [true]
  ∧ frameRequests (dispatch_scroll y pg) = (frameRequests pg ++ [0%nat])%list.
Proof.
  intros Ht. unfold dispatch_scroll; simpl. rewrite Ht; simpl.
  unfold scroll_listener; simpl. by rewrite Ht.
Qed.

Lemma run_frame_pending pg :
  tickings pg = [true] -> frameRequests pg = [0%nat] ->
  ∃ pg',
    updateParallax (set_frameRequests [] pg) = (Normal tt, pg')
    ∧ run_frame pg = set_tickings [false] pg'
    ∧ frameRequests pg' = [].
Proof.
  intros Ht Hf. unfold run_frame. rewrite Hf. cbn [foldl].
  destruct (frame_callback_spec 0 (set_frameRequests [] pg))
    as (pg' & E & F & ->).
  exists pg'. split; [done|]. simpl. rewrite Ht. simpl.
  by destruct F as (_ & _ & -> & _).
Qed.

Lemma run_frame_idle pg : frameRequests pg = [] -> run_frame pg = pg.
Proof. intros Hf. unfold run_frame. rewrite Hf. destruct pg; simpl in *. by subst. Qed.

Lemma step_gate st ev : ev ≠ Refresh -> gate st.2 -> gate (step st ev).2.
Proof.
  destruct st as [this pg]. unfold gate. cbn [snd]. intros Hev.
  intros [[Ht Hf]|[Ht Hf]]; destruct ev as [y| |entries|]; cbn [step fst snd];
    try done.
  - right. destruct (dispatch_scroll_clear y pg Ht) as [-> ->]. by rewrite Hf.
  - left. by rewrite run_frame_idle.
  - left. by destruct (handleIntersection_frame this pg entries) as (_ & -> & ->).
  - right. destruct (dispatch_scroll_pending y pg Ht) as [-> ->]. done.
  - left. destruct (run_frame_pending pg Ht Hf) as (pg' & _ & -> & Hf').
    by rewrite <- Hf'.
  - right. by destruct (handleIntersection_frame this pg entries) as (_ & -> & ->).
Qed.

Lemma run_gate st evs : refresh_free evs -> gate st.2 -> gate (run st evs).2.
Proof.
  unfold run. intros Hfree. revert st.
  induction Hfree as [|ev evs Hev _ IH]; intros st H; simpl; [done|].
  by apply IH, step_gate.
Qed.

(** As long as [refresh()] is not called the gate holds.  After the
    controller is constructed on a loaded page, whatever scrolls, display
    refreshes and notifications follow: at most one recomputation is
    pending; a scroll that finds the flag set schedules nothing; a scroll
    that finds it clear schedules exactly one recomputation and sets the
    flag; and the display refresh runs the pending recomputation to its
    end and clears the flag, leaving nothing pending. *)
Lemma scroll_gate arg doc y evs :
  refresh_free evs ->
  let pg := (run (new_ScrollAnimator arg (load doc y)) evs).2 in
  (length (frameRequests pg) <= 1)%nat
  ∧ gate pg
  ∧ (∀ y', tickings pg = [true] ->
       frameRequests (dispatch_scroll y' pg) = frameRequests pg
       ∧ tickings (dispatch_scroll y' pg) = [true])
  ∧ (∀ y', tickings pg = [false] ->
       frameRequests (dispatch_scroll y' pg) = [0%nat]
       ∧ tickings (dispatch_scroll y' pg) = [true])
  ∧ (tickings pg = [true] ->
       ∃ pg', updateParallax (set_frameRequests [] pg) = (Normal tt, pg')
              ∧ run_frame pg = set_tickings [false] pg'
              ∧ frameRequests (run_frame pg) = []).
Proof.
  intros Hfree pg.
  assert (gate pg) as Hg.
  { apply run_gate; [done|]. unfold new_ScrollAnimator, gate. left.
    apply init_gate. }
  split; [|split; [done|]].
  { destruct Hg as [[_ ->]|[_ ->]]; simpl; lia. }
  split_and!.
  - intros y' Ht. by destruct (dispatch_scroll_pending y' pg Ht) as [-> ->].
  - intros y' Ht. destruct Hg as [[_ Hf]|[Ht' _]]; [|congruence].
    destruct (dispatch_scroll_clear y' pg Ht) as [-> ->]. by rewrite Hf.
  - intros Ht. destruct Hg as [[Ht' _]|[_ Hf]]; [congruence|].
    destruct (run_frame_pending pg Ht Hf) as (pg' & E & -> & Hf').
    exists pg'. done.
Qed.

(** Claim C8, on the code.  [refresh()] runs [init] again, and [init]
    adds a scroll listener with a flag of its own without removing the one
    added before.  So after the controller is constructed (one listener,
    flag clear, nothing pending) and [refresh()] is called once, a single
    scroll finds two clear flags and schedules two recomputations for the
    same display refresh, and that display refresh runs [updateParallax]
    twice. *)
Theorem refresh_doubles_recomputation arg doc y y' :
  let st0 := new_ScrollAnimator arg (load doc y) in
  let st := run st0 [Refresh; Scroll y'] in
  gate st0.2
  ∧ tickings st.2 = [true; true]
  ∧ frameRequests st.2 = [0; 1]%nat
  ∧ ¬ gate st.2
  ∧ (1 < length (frameRequests st.2))%nat
  ∧ ∃ pg1 pg2,
      updateParallax (set_frameRequests [] st.2) = (Normal tt, pg1)
      ∧ updateParallax (set_tickings [false; true] pg1) = (Normal tt, pg2)
      ∧ run_frame st.2 = set_tickings [false; false] pg2.
Proof.
  intros st0 st.
  assert (tickings st.2 = [true; true] ∧ frameRequests st.2 = [0; 1]%nat)
    as [Ht Hf].
  { subst st st0. unfold run, new_ScrollAnimator. cbn [foldl step fst snd].
    rewrite refresh_spec, (init_spec _ (load doc y)). cbn [fst snd options].
    rewrite init_spec. cbn [snd]. done. }
  split; [left; apply init_gate|].
  split; [done|]. split; [done|].
  split.
  { unfold gate. rewrite Ht, Hf. intros [[? _]|[? _]]; discriminate. }
  split; [rewrite Hf; simpl; lia|].
  unfold run_frame. rewrite Hf. cbn [foldl].
  destruct (frame_callback_spec 0 (set_frameRequests [] st.2))
    as (pg1 & E1 & F1 & ->).
  cbn [snd]. cbn [tickings set_frameRequests]. rewrite Ht. cbn [insert list_insert].
  destruct (frame_callback_spec 1 (set_tickings [false; true] pg1))
    as (pg2 & E2 & F2 & ->).
  exists pg1, pg2. done.
Qed.

End Gate.


(** ** The arithmetic of the offsets *)

Section Speeds.

Import Float.

(** Below the normal range the error of a rounding is at most half of
    the smallest double. *)
Lemma round_subnormal x :
  Rabs x < bpow (-1022) -> Rabs (round x - x) <= bpow (-1075).
Proof.
  intros Hx. destruct (decide (x = 0)) as [->|Hn].
  - rewrite round_0, Rminus_0_r, Rabs_R0. left. apply bpow_pos.
  - pose proof (round_error x) as He.
    assert (quantum x = (-1074)%Z) as Hq.
    { unfold quantum. destruct (exponent_spec x Hn) as [Hlo _].
      assert (exponent x < -1022)%Z by (apply bpow_lt_inv; lra). lia. }
    rewrite Hq in He.
    change (-1074)%Z with (-1075 + 1)%Z in He. rewrite bpow_succ in He. lra.
Qed.

(** The error of a rounding, whatever the number. *)
Lemma round_error_any x :
  Rabs (round x - x) <= bpow (-53) * Rabs x + bpow (-1075).
Proof.
  destruct (Rle_lt_dec (bpow (-1022)) (Rabs x)) as [Hn|Hs].
  - pose proof (round_relative x Hn). pose proof (bpow_pos (-1075)). lra.
  - pose proof (round_subnormal x Hs). pose proof (bpow_pos (-53)).
    pose proof (Rabs_pos x). nra.
Qed.

Lemma round_relative_large x :
  1 / 16 <= x -> Rabs (round x - x) <= bpow (-53) * x.
Proof.
  intros Hx. assert (bpow (-1022) <= bpow (-4)) as Hb by (apply bpow_le; lia).
  bpow_eval_in Hb. rewrite <- (Rabs_pos_eq x) at 3 by lra.
  apply round_relative. rewrite Rabs_pos_eq by lra.
  assert (bpow (-1022) <= / 16); [|lra].
  etrans; [apply (bpow_le _ (-4)); lia|]. bpow_eval. lra.
Qed.

(** A power of two is a double, and rounding does not cross it. *)
Lemma round_bpow e : (-1074 <= e)%Z -> round (bpow e) = bpow e.
Proof.
  intros He. rewrite <- (Rmult_1_l (bpow e)).
  apply (round_exact 1 e); [simpl; lia|done].
Qed.

Lemma round_le_bpow x e :
  (-1074 <= e)%Z -> Rabs x <= bpow e -> Rabs (round x) <= bpow e.
Proof.
  intros He Hx. apply Rabs_le_inv in Hx as [Hx1 Hx2].
  pose proof (round_le _ _ Hx1) as H1. pose proof (round_le _ _ Hx2) as H2.
  rewrite round_opp in H1. rewrite (round_bpow e He) in H1, H2.
  by apply Rabs_le.
Qed.

(** The speed computed in doubles is the one of the formula up to the
    roundings of its two constants, of the product and of the sum. *)
Lemma speed_value_error index :
  Rabs (speed_value index - (3 / 10 + 1 / 10 * INR index))
  <= 4 * bpow (-53) * (3 / 10 + 1 / 10 * INR index).
Proof.
  unfold speed_value.
  pose proof (round_relative_large (1 / 10) ltac:(lra)) as H1.
  pose proof (round_relative_large (3 / 10) ltac:(lra)) as H3.
  apply Rabs_le_inv in H1, H3.
  assert (INR index = 0 ∨ 1 <= INR index) as HX.
  { destruct index as [|n]; [by left|right].
    rewrite S_INR. pose proof (pos_INR n). lra. }
  pose proof (pos_INR index) as Hpos.
  set (X := INR index) in *. set (c1 := round (1 / 10)) in *.
  set (c3 := round (3 / 10)) in *.
  assert (Rabs (round (X * c1) - X * c1) <= bpow (-53) * (X * c1)) as Hp.
  { destruct HX as [->|HX].
    - rewrite Rmult_0_l, round_0, Rminus_0_r, Rabs_R0. lra.
    - apply round_relative_large. bpow_eval_in H1. nra. }
  apply Rabs_le_inv in Hp. set (t1 := round (X * c1)) in *.
  assert (0 <= t1) as Ht1.
  { apply round_nonneg. bpow_eval_in H1. nra. }
  assert (Rabs (round (c3 + t1) - (c3 + t1)) <= bpow (-53) * (c3 + t1)) as Hs.
  { apply round_relative_large. bpow_eval_in H3. lra. }
  apply Rabs_le_inv in Hs. set (t2 := round (c3 + t1)) in *.
  set (y := X * c1) in *.
  assert (X * (1 / 10 - bpow (-53) * (1 / 10)) <= y
          <= X * (1 / 10 + bpow (-53) * (1 / 10))) as Hy.
  { unfold y. split; apply Rmult_le_compat_l; lra. }
  clearbody y t1 t2 c1 c3 X.
  bpow_eval_in H1. bpow_eval_in H3. bpow_eval_in Hp. bpow_eval_in Hs.
  bpow_eval_in Hy. bpow_eval.
  apply Rabs_le. lra.
Qed.

Lemma round_quarter : round (1 / 4) = 1 / 4.
Proof.
  replace (1 / 4) with (bpow (-2)) by (bpow_eval; lra). apply round_bpow. lia.
Qed.

(** The speeds are positive and grow with the index. *)
Lemma speed_value_mono i j :
  (i <= j)%nat -> 1 / 4 <= speed_value i <= speed_value j.
Proof.
  intros Hij. assert (INR i <= INR j) as Hle by (by apply le_INR).
  pose proof (pos_INR i) as Hi.
  assert (0 <= round (1 / 10)) as H1 by (apply round_nonneg; lra).
  assert (1 / 4 <= round (3 / 10)) as H3.
  { rewrite <- round_quarter. apply round_le. lra. }
  unfold speed_value. split.
  - rewrite <- round_quarter at 1. apply round_le.
    assert (0 <= round (INR i * round (1 / 10))); [|lra].
    apply round_nonneg. by apply Rmult_le_pos.
  - apply round_le. apply Rplus_le_compat_l, round_le.
    by apply Rmult_le_compat_r.
Qed.

Lemma INR_below index : (Z.of_nat index < 2 ^ 53)%Z -> INR index < bpow 53.
Proof.
  intros Hi. rewrite INR_IZR_INZ. apply IZR_lt in Hi.
  rewrite (bpow_pos_eval 53). exact Hi.
Qed.

Lemma speed_value_bound index :
  (Z.of_nat index < 2 ^ 53)%Z -> 1 / 4 <= speed_value index <= bpow 51.
Proof.
  intros Hi. split; [apply (speed_value_mono index index); lia|].
  pose proof (speed_value_error index) as He. apply Rabs_le_inv in He.
  pose proof (INR_below index Hi) as Hb. pose proof (pos_INR index).
  set (X := INR index) in *. set (v := speed_value index) in *.
  clearbody X v. bpow_eval_in He. bpow_eval_in Hb. bpow_eval. lra.
Qed.

(** The offset computed in doubles against the one of the formula. *)
Lemma offset_value_error s index :
  Rabs (offset_value s index - - (s * (3 / 10 + 1 / 10 * INR index)))
  <= bpow (-50) * Rabs (s * (3 / 10 + 1 / 10 * INR index)) + bpow (-1075).
Proof.
  unfold offset_value. pose proof (speed_value_error index) as Hv.
  pose proof (round_error_any (s * speed_value index)) as Hr.
  pose proof (pos_INR index) as Hpos.
  set (v := speed_value index) in *.
  set (S := 3 / 10 + 1 / 10 * INR index) in *.
  assert (0 < S) as HS by (unfold S; lra).
  rewrite (Rabs_mult s S), (Rabs_pos_eq S) by lra.
  assert (Rabs (s * v - s * S) <= 4 * bpow (-53) * (Rabs s * S)) as Hd.
  { rewrite <- Rmult_minus_distr_l, Rabs_mult.
    rewrite (Rmult_comm 4), <- Rmult_assoc, (Rmult_comm (_ * _) (Rabs s)).
    rewrite !Rmult_assoc. apply Rmult_le_compat_l; [apply Rabs_pos|]. lra. }
  assert (Rabs (s * v) <= Rabs s * S + 4 * bpow (-53) * (Rabs s * S)) as Hm.
  { replace (s * v) with ((s * v - s * S) + s * S) by lra.
    etrans; [apply Rabs_triang|]. rewrite (Rabs_mult s S), (Rabs_pos_eq S) by lra.
    lra. }
  assert (0 <= Rabs s * S) as HB.
  { apply Rmult_le_pos; [apply Rabs_pos|lra]. }
  set (B := Rabs s * S) in *. set (x := s * v) in *. set (y := s * S) in *.
  apply Rabs_le_inv in Hr, Hd. pose proof (bpow_pos (-1075)) as Ht.
  set (tiny := bpow (-1075)) in *. clearbody tiny B x y.
  bpow_eval_in Hr. bpow_eval_in Hd. bpow_eval_in Hm. bpow_eval.
  apply Rabs_le. lra.
Qed.

(** For a scroll offset that is not negative the offsets are not
    positive and fall as the index grows. *)
Lemma offset_value_mono s i j :
  0 <= s -> (i <= j)%nat -> offset_value s j <= offset_value s i <= 0.
Proof.
  intros Hs Hij. destruct (speed_value_mono i j Hij) as [Hv0 Hv].
  unfold offset_value. split.
  - apply Ropp_le_contravar, round_le. by apply Rmult_le_compat_l.
  - assert (0 <= round (s * speed_value i)); [|lra].
    apply round_nonneg. apply Rmult_le_pos; lra.
Qed.

(** *** The operations on Numbers that are not negative *)

Lemma make_pos r :
  round r < bpow 1024 -> Num.make false (Some r) = Fin (round r).
Proof.
  intros Hr. unfold Num.make. rewrite decide_False by lra.
  destruct (decide (round r = 0)) as [->|]; done.
Qed.

Lemma of_real_pos r :
  0 <= r -> round r < bpow 1024 -> Num.of_real r = Fin (round r).
Proof.
  intros H0 Hr. unfold Num.of_real.
  rewrite bool_decide_eq_false_2, Rabs_pos_eq by lra. by apply make_pos.
Qed.

Lemma mul_pos a b :
  0 <= a -> 0 <= b -> round (a * b) < bpow 1024 ->
  Num.mul (Fin a) (Fin b) = Fin (round (a * b)).
Proof.
  intros Ha Hb Hr. unfold Num.mul. cbn [Num.isNaN orb Num.negative Num.abs].
  rewrite !bool_decide_eq_false_2, !Rabs_pos_eq by lra. by apply make_pos.
Qed.

Lemma add_pos a b :
  0 <= a -> 0 <= b -> round (a + b) < bpow 1024 ->
  Num.add (Fin a) (Fin b) = Fin (round (a + b)).
Proof.
  intros Ha Hb Hr. unfold Num.add.
  destruct (decide (a + b = 0)) as [->|Hn]; [by rewrite round_0|].
  apply of_real_pos; lra.
Qed.

Lemma neg_value x r :
  Num.value x = Some r -> Num.value (Num.neg x) = Some (- r).
Proof.
  destruct x as [| | | |q]; simpl; intros; simplify_eq.
  - f_equal. lra.
  - destruct (decide (r = 0)) as [->|]; simpl; f_equal. lra.
Qed.

Lemma round_below x e :
  (-1074 <= e < 1024)%Z -> Rabs x <= bpow e -> round x < bpow 1024.
Proof.
  intros He Hx.
  assert (Rabs (round x) <= bpow e) as Hb by (apply round_le_bpow; [lia|done]).
  assert (bpow e < bpow 1024) by (apply bpow_lt; lia).
  apply Rabs_le_inv in Hb. lra.
Qed.

(** Below [2 ^ 53] triangles no operation of the speed overflows. *)
Lemma parallax_speed_value index :
  (Z.of_nat index < 2 ^ 53)%Z -> parallax_speed index = Fin (speed_value index).
Proof.
  intros Hi. pose proof (INR_below index Hi) as Hb.
  pose proof (pos_INR index) as Hpos.
  assert (round (INR index) = INR index) as HX.
  { rewrite INR_IZR_INZ. apply round_IZR. lia. }
  assert (round 1 = 1) as E1 by (apply (round_IZR 1); simpl; lia).
  assert (0 <= round (1 / 10) <= 1) as [H10 H11].
  { split; [apply round_nonneg; lra|].
    pose proof (round_le (1 / 10) 1 ltac:(lra)). lra. }
  assert (0 <= round (3 / 10) <= 1) as [H30 H31].
  { split; [apply round_nonneg; lra|].
    pose proof (round_le (3 / 10) 1 ltac:(lra)). lra. }
  assert (Rabs (round (INR index * round (1 / 10))) <= bpow 53) as Hp.
  { apply round_le_bpow; [lia|]. apply Rabs_le. split; nra. }
  apply Rabs_le_inv in Hp.
  assert (0 <= round (INR index * round (1 / 10))) as Hp0.
  { apply round_nonneg. nra. }
  unfold parallax_speed, speed_value.
  rewrite (of_real_pos (3 / 10)) by (try apply (round_below _ 0); try lia;
                                      rewrite ?Rabs_pos_eq; bpow_eval; lra).
  rewrite (of_real_pos (INR index))
    by (try apply (round_below _ 53); try lia; rewrite ?Rabs_pos_eq; lra).
  rewrite (of_real_pos (1 / 10)) by (try apply (round_below _ 0); try lia;
                                      rewrite ?Rabs_pos_eq; bpow_eval; lra).
  rewrite HX.
  rewrite mul_pos; [|lra|lra|].
  2: { apply (round_below _ 53); [lia|]. apply Rabs_le. split; nra. }
  apply add_pos; [lra|lra|].
  apply (round_below _ 54); [lia|].
  change 54%Z with (53 + 1)%Z. rewrite bpow_succ.
  assert (1 <= bpow 53) by (bpow_eval; lra).
  apply Rabs_le. lra.
Qed.

(** For a scroll offset up to [2 ^ 53] either way and below [2 ^ 53]
    triangles the offset is finite. *)
Lemma parallax_offset_value s index :
  Rabs s <= bpow 53 -> (Z.of_nat index < 2 ^ 53)%Z ->
  Num.value (parallax_offset s index) = Some (offset_value s index).
Proof.
  intros Hs Hi. destruct (speed_value_bound index Hi) as [Hv0 Hv1].
  unfold parallax_offset, offset_value.
  rewrite (parallax_speed_value index Hi).
  apply neg_value, mul_value; [done|lra|].
  assert (bpow 104 < bpow 1024) by (apply bpow_lt; lia).
  assert (Rabs (round (s * speed_value index)) <= bpow 104); [|lra].
  apply round_le_bpow; [lia|].
  change 104%Z with (53 + 51)%Z. rewrite bpow_add, Rabs_mult.
  apply Rmult_le_compat; try apply Rabs_pos; [done|].
  rewrite Rabs_pos_eq; lra.
Qed.

Lemma rotation_value matrix :
  ∃ z, Num.value (rotation matrix) = Some (IZR z).
Proof.
  unfold rotation.
  destruct (String.eqb matrix "none" || negb (Js.truthy matrix));
    [by exists 0%Z|].
  destruct (rotation_of_values matrix) as [angle|e] eqn:E; [|by exists 0%Z].
  destruct (rotation_of_values_range _ _ E) as (z & ? & ?). by exists z.
Qed.

(** The transform written for a triangle, in that range. *)
Lemma parallax_transform s index el :
  Rabs s <= bpow 53 -> (Z.of_nat index < 2 ^ 53)%Z ->
  transform (style (parallax s index el))
  = TranslateYRotate (offset_value s index) (rotation (computedTransform el)).
Proof.
  intros Hs Hi. unfold parallax, Css.translateY_rotate.
  rewrite (parallax_offset_value s index Hs Hi).
  by destruct (rotation_value (computedTransform el)) as [z ->].
Qed.

(** Evaluating a rounding in the normal range. *)
Lemma round_eval_near x e m :
  bpow e <= x < bpow (e + 1) -> (-1022 <= e)%Z ->
  Rabs (x / bpow (e - 52) - IZR m) < 1 / 2 ->
  round x = IZR m * bpow (e - 52).
Proof.
  intros Hx He Hm. pose proof (bpow_pos e).
  rewrite (round_eval x e m); rewrite ?Z.max_l by lia; try done.
  - rewrite Rabs_pos_eq by lra. done.
  - by apply nearest_even_near.
Qed.

Lemma round_eval_tie x e m :
  bpow e <= x < bpow (e + 1) -> (-1022 <= e)%Z ->
  x / bpow (e - 52) = IZR m + 1 / 2 ->
  round x = IZR (if Z.even m then m else (m + 1)%Z) * bpow (e - 52).
Proof.
  intros Hx He Hm. pose proof (bpow_pos e).
  rewrite (round_eval x e (if Z.even m then m else (m + 1)%Z));
    rewrite ?Z.max_l by lia; try done.
  - rewrite Rabs_pos_eq by lra. done.
  - rewrite Hm. apply nearest_even_tie.
Qed.

(** The doubles of [0.1] and [0.3]. *)
Lemma round_tenth : round (1 / 10) = 3602879701896397 / 36028797018963968.
Proof.
  rewrite (round_eval_near _ (-4) 7205759403792794); [| |lia|].
  - change (-4 - 52)%Z with (-56)%Z. bpow_eval. lra.
  - change (-4 + 1)%Z with (-3)%Z. bpow_eval. lra.
  - change (-4 - 52)%Z with (-56)%Z. bpow_eval. apply Rabs_def1; lra.
Qed.

Lemma round_three_tenths :
  round (3 / 10) = 5404319552844595 / 18014398509481984.
Proof.
  rewrite (round_eval_near _ (-2) 5404319552844595); [| |lia|].
  - change (-2 - 52)%Z with (-54)%Z. bpow_eval. lra.
  - change (-2 + 1)%Z with (-1)%Z. bpow_eval. lra.
  - change (-2 - 52)%Z with (-54)%Z. bpow_eval. apply Rabs_def1; lra.
Qed.

(** The speed of the fourth triangle is the double above [0.6]: the
    product [3 * 0.1] and the sum [0.3 + 3 * 0.1] both fall half way
    between two doubles and are rounded to the even one, upwards. *)
Lemma speed_value_3 : speed_value 3 = 5404319552844596 / 9007199254740992.
Proof.
  unfold speed_value.
  replace (INR 3) with 3 by (simpl; lra).
  rewrite round_tenth, round_three_tenths.
  rewrite (round_eval_tie (3 * _) (-2) 5404319552844595); [| |lia|].
  - change (Z.even 5404319552844595) with false. cbv iota.
    change (5404319552844595 + 1)%Z with 5404319552844596%Z.
    change (-2 - 52)%Z with (-54)%Z.
    rewrite (round_eval_tie _ (-1) 5404319552844595); [| |lia|].
    + change (Z.even 5404319552844595) with false. cbv iota.
      change (5404319552844595 + 1)%Z with 5404319552844596%Z.
      change (-1 - 52)%Z with (-53)%Z. bpow_eval. lra.
    + change (-1 + 1)%Z with 0%Z. bpow_eval. lra.
    + change (-1 - 52)%Z with (-53)%Z. bpow_eval. lra.
  - change (-2 + 1)%Z with (-1)%Z. bpow_eval. lra.
  - change (-2 - 52)%Z with (-54)%Z. bpow_eval. lra.
Qed.

(** At scroll offset 100 the fourth triangle is moved by a little more
    than 60. *)
Lemma offset_value_3 : offset_value 100 3 = - (60 + / 140737488355328).
Proof.
  unfold offset_value. rewrite speed_value_3. f_equal.
  rewrite (round_eval_near _ 5 8444249301319681); [| |lia|].
  - change (5 - 52)%Z with (-47)%Z. bpow_eval. lra.
  - change (5 + 1)%Z with 6%Z. bpow_eval. lra.
  - change (5 - 52)%Z with (-47)%Z. bpow_eval. apply Rabs_def1; lra.
Qed.

(** Far out of that range the product overflows, the text written is
    [translateY(-Infinitypx) ...], and the triangle keeps the transform it
    had. *)
Lemma parallax_overflow index el :
  (Z.of_nat index < 2 ^ 53)%Z -> parallax (bpow 1026) index el = el.
Proof.
  intros Hi. destruct (speed_value_bound index Hi) as [Hv0 Hv1].
  pose proof (bpow_pos 1026) as Hpos. pose proof (bpow_pos 1024) as Hpos'.
  unfold parallax, parallax_offset. rewrite (parallax_speed_value index Hi).
  assert (Num.mul (Fin (bpow 1026)) (Fin (speed_value index)) = PosInf) as ->.
  { unfold Num.mul. cbn [Num.isNaN orb Num.negative Num.abs].
    rewrite !bool_decide_eq_false_2, !Rabs_pos_eq by lra.
    unfold Num.make. cbn [xorb]. rewrite decide_True; [done|].
    rewrite <- (round_bpow 1024) at 1 by lia. apply round_le.
    change 1026%Z with (1024 + 1 + 1)%Z. rewrite !bpow_succ. nra. }
  done.
Qed.

End Speeds.

(** ** The offsets of the triangles *)

Section Offsets.

Implicit Types (doc : Document) (el : Element) (pg : Page).

(** Claim C6, amended.  Take a triangle at position [index] among the
    triangles, one that the recomputation does not skip and [s] the scroll
    offset, with [index] below [2 ^ 53] and [s] up to [2 ^ 53] either
    way.  The vertical offset written is [-(s * (0.3 + 0.1 * index))]
    computed in doubles: the two constants, the product by the index,
    the sum and the product by [s] are each rounded to the nearest
    double.  It is the offset of the formula up to a relative error of
    [2 ^ -50] (and half of the smallest double), not always the very
    number. *)
Theorem updateParallax_offset pg index triangle el :
  Dom.querySelectorAll (Dom.HasClass "triangle") (document pg) !! index
    = Some triangle ->
  document pg !! triangle = Some el ->
  skips (document pg) triangle el = false ->
  (Z.of_nat index < 2 ^ 53)%Z ->
  Rabs (pageYOffset pg) <= Float.bpow 53 ->
  ∃ pg' yPos,
    updateParallax pg = (Normal tt, pg')
    ∧ transform_at (document pg') triangle
      = Some (TranslateYRotate yPos (rotation (computedTransform el)))
    ∧ yPos
      = - Float.round
            (pageYOffset pg
             * Float.round (Float.round (3 / 10)
                            + Float.round (INR index * Float.round (1 / 10))))
    ∧ Rabs (yPos - - (pageYOffset pg * (3 / 10 + 1 / 10 * INR index)))
      <= Float.bpow (-50) * Rabs (pageYOffset pg * (3 / 10 + 1 / 10 * INR index))
         + Float.bpow (-1075).
Proof.
  intros Hidx Hel Hskip Hi Hs.
  destruct (updateParallax_spec pg) as (pg' & E & _ & _ & Hin).
  exists pg', (offset_value (pageYOffset pg) index).
  split; [done|]. split; [|split; [done|apply offset_value_error]].
  unfold transform_at. rewrite (Hin index triangle el Hidx Hel), Hskip.
  cbn [fmap option_fmap option_map]. f_equal. by apply parallax_transform.
Qed.

Lemma updateParallax_offset_witness :
  Dom.querySelectorAll (Dom.HasClass "triangle")
    (document (load [free_triangle; free_triangle] 120)) !! 1%nat = Some 1%nat
  ∧ skips (document (load [free_triangle; free_triangle] 120)) 1 free_triangle
    = false
  ∧ (Z.of_nat 1 < 2 ^ 53)%Z
  ∧ Rabs (pageYOffset (load [free_triangle; free_triangle] 120))
    <= Float.bpow 53
  ∧ ∃ pg' yPos,
      updateParallax (load [free_triangle; free_triangle] 120) = (Normal tt, pg')
      ∧ transform_at (document pg') 1
        = Some (TranslateYRotate yPos (rotation "none"))
      ∧ yPos
        = - Float.round
              (120 * Float.round (Float.round (3 / 10)
                                  + Float.round (INR 1 * Float.round (1 / 10))))
      ∧ Rabs (yPos - - (120 * (3 / 10 + 1 / 10 * INR 1)))
        <= Float.bpow (-50) * Rabs (120 * (3 / 10 + 1 / 10 * INR 1))
           + Float.bpow (-1075).
Proof.
  assert (Z.of_nat 1 < 2 ^ 53)%Z as Hi by reflexivity.
  assert (Rabs (pageYOffset (load [free_triangle; free_triangle] 120))
          <= Float.bpow 53) as Hs.
  { simpl. rewrite Rabs_pos_eq by lra. rewrite (bpow_pos_eval 53). simpl. lra. }
  split; [reflexivity|]. split; [reflexivity|]. split; [exact Hi|].
  split; [exact Hs|].
  exact (updateParallax_offset (load [free_triangle; free_triangle] 120)
           1 1 free_triangle eq_refl eq_refl eq_refl Hi Hs).
Defined.

(** Claim C6 as stated fails: with four triangles and the page scrolled
    to offset 100 the fourth triangle (index 3) is moved by
    [-(60 + 2^-47)], which JavaScript prints as [-60.00000000000001],
    and not by [-(100 * (0.3 + 0.1 * 3)) = -60]. *)
Lemma updateParallax_offset_counterexample :
  let pg :=
    load [free_triangle; free_triangle; free_triangle; free_triangle] 100 in
  Dom.querySelectorAll (Dom.HasClass "triangle") (document pg) !! 3%nat
    = Some 3%nat
  ∧ document pg !! 3%nat = Some free_triangle
  ∧ skips (document pg) 3 free_triangle = false
  ∧ ∃ pg',
      updateParallax pg = (Normal tt, pg')
      ∧ transform_at (document pg') 3
        = Some (TranslateYRotate (- (60 + / 140737488355328)) (rotation "none"))
      ∧ - (60 + / 140737488355328) <> - (100 * (3 / 10 + 1 / 10 * INR 3)).
Proof.
  cbn zeta. split; [reflexivity|]. split; [reflexivity|]. split; [reflexivity|].
  destruct (updateParallax_spec
              (load [free_triangle; free_triangle; free_triangle; free_triangle]
                    100))
    as (pg' & E & _ & _ & Hin).
  exists pg'. split; [done|]. split; [|simpl; lra].
  unfold transform_at.
  rewrite (Hin 3%nat 3%nat free_triangle eq_refl eq_refl).
  change (skips _ _ _) with false. cbv iota.
  cbn [fmap option_fmap option_map]. f_equal.
  change (pageYOffset _) with 100.
  rewrite parallax_transform, offset_value_3; [done| |reflexivity].
  rewrite Rabs_pos_eq by lra. rewrite (bpow_pos_eval 53). simpl. lra.
Qed.

(** Out of that range: with the page scrolled to [2 ^ 1026] the
    product overflows, the text assigned is
    [translateY(-Infinitypx) rotate(0deg)], which is not a transform, and
    the triangle keeps the inline transform it had. *)
Lemma updateParallax_overflow :
  let pg := load [free_triangle] (Float.bpow 1026) in
  skips (document pg) 0 free_triangle = false
  ∧ ∃ pg',
      updateParallax pg = (Normal tt, pg')
      ∧ transform_at (document pg') 0 = Some (TransformText "").
Proof.
  cbn zeta. split; [reflexivity|].
  destruct (updateParallax_spec (load [free_triangle] (Float.bpow 1026)))
    as (pg' & E & _ & _ & Hin).
  exists pg'. split; [done|]. unfold transform_at.
  rewrite (Hin 0%nat 0%nat free_triangle eq_refl eq_refl).
  change (skips _ _ _) with false. cbv iota.
  change (pageYOffset _) with (Float.bpow 1026).
  by rewrite parallax_overflow by reflexivity.
Qed.

(** A triangle that is left alone keeps its transform. *)
Lemma updateParallax_skipped pg index triangle el :
  Dom.querySelectorAll (Dom.HasClass "triangle") (document pg) !! index
    = Some triangle ->
  document pg !! triangle = Some el ->
  skips (document pg) triangle el = true ->
  ∃ pg', updateParallax pg = (Normal tt, pg')
         ∧ document pg' !! triangle = Some el.
Proof.
  intros Hidx Hel Hskip.
  destruct (updateParallax_spec pg) as (pg' & E & _ & _ & Hin).
  exists pg'. split; [done|]. by rewrite (Hin index triangle el Hidx Hel), Hskip.
Qed.

(** A triangle that is itself watched is left alone exactly until it
    is revealed. *)
Lemma skips_watched_triangle doc triangle el :
  doc !! triangle = Some el ->
  is_Some (Dom.getAttribute "data-scroll" el) ->
  skips doc triangle el = true ↔ ¬ revealed doc triangle.
Proof.
  intros Hel Hattr. unfold skips, Dom.closest.
  destruct doc as [|el0 doc]; [done|]. cbn [length Dom.closest_within].
  rewrite Hel. cbn [Dom.matches]. rewrite bool_decide_eq_true_2 by done.
  cbn [Dom.non_null andb]. unfold Dom.contains, revealed.
  rewrite negb_true_iff, bool_decide_eq_false. split.
  - intros Hn (el' & Hl & Hin). by simplify_eq.
  - intros Hn Hin. apply Hn. eauto.
Qed.

(** Claim C1, on the code.  A triangle nested in a watched element: the
    element is revealed by a notification, then the page is scrolled and
    a display refresh runs the recomputation.  The watched ancestor is
    revealed, yet the triangle is still skipped: its inline transform was
    not written. *)
Theorem nested_triangle_stays_skipped :
  let st :=
    run (new_ScrollAnimator no_options (load [host; nested_triangle] 0))
        [Intersection [notification (2 / 10) 1 0%nat]; Scroll 100; AnimationFrame] in
  revealed (document st.2) 0
  ∧ Dom.closest (Dom.HasAttribute "data-scroll") (document st.2) 1 = Some 0%nat
  ∧ document st.2 !! 1%nat = Some nested_triangle
  ∧ pageYOffset st.2 = 100
  ∧ tickings st.2 = [false] ∧ frameRequests st.2 = [].
Proof.
  unfold run. cbn [foldl step fst snd]. unfold notification.
  rewrite bool_decide_eq_true_2 by lra.
  split_and!; try reflexivity.
  exists (Dom.classList_add "animated" host). split; [reflexivity|].
  apply elem_of_union. right. by apply elem_of_singleton.
Qed.

End Offsets.

Section Scenarios.

(** Claim C2 as stated fails in single-shot mode: an element is
    revealed, observed again by [refresh()], notified at ratio 0 below the
    threshold, and is still revealed. *)
Lemma handleIntersection_reveal_counterexample :
  let st0 := new_ScrollAnimator single_shot_options (load [host] 0) in
  let t := threshold (options st0.1) in
  let st1 := handleIntersection st0.1 [notification t 1 0%nat] st0.2 in
  let st2 := refresh st1.1 st1.2 in
  let st3 := handleIntersection st2.1 [notification t 0 0%nat] st2.2 in
  once (options st2.1) = true
  ∧ 0%nat ∈ targets (observer st2.1)
  ∧ revealed (document st3.2) 0
  ∧ ¬ t <= 0.
Proof.
  cbn zeta. unfold notification.
  change (threshold _) with (2 / 10).
  rewrite bool_decide_eq_true_2, bool_decide_eq_false_2 by lra.
  split_and!; [reflexivity| | |lra].
  - rewrite refresh_spec, init_spec. cbn [fst observer targets].
    apply elem_of_list_to_set. apply list_elem_of_here.
  - exists (Dom.classList_add "animated" host). split; [reflexivity|].
    apply elem_of_union. right. by apply elem_of_singleton.
Qed.

End Scenarios.

Section Witnesses.

Lemma handleIntersection_reveal_witness :
  let st0 := new_ScrollAnimator no_options (load [host] 0) in
  is_Some (document st0.2 !! 0%nat)
  ∧ (revealed
       (document (handleIntersection st0.1 [notification (2 / 10) 1 0%nat] st0.2).2)
       0
     ↔ 2 / 10 <= 1 ∨ (once (options st0.1) = true ∧ revealed (document st0.2) 0)).
Proof.
  cbn zeta.
  assert (is_Some (document (new_ScrollAnimator no_options (load [host] 0)).2
                   !! 0%nat)) as Hel.
  { exists host. reflexivity. }
  split; [exact Hel|].
  exact (handleIntersection_reveal
           (new_ScrollAnimator no_options (load [host] 0)).1
           (new_ScrollAnimator no_options (load [host] 0)).2
           (2 / 10) 1 0%nat Hel).
Defined.

Lemma single_shot_is_final_witness :
  let st0 := new_ScrollAnimator single_shot_options (load [host] 0) in
  let evs := [Intersection [notification (2 / 10) 0 0%nat]; Scroll 5; AnimationFrame] in
  let st1 := handleIntersection st0.1 [notification (2 / 10) 1 0%nat] st0.2 in
  let st2 := run st1 evs in
  once (options st0.1) = true
  ∧ is_Some (document st0.2 !! 0%nat)
  ∧ 2 / 10 <= 1
  ∧ (revealed (document st1.2) 0 ∧ 0%nat ∉ targets (observer st1.1))
  ∧ revealed (document st2.2) 0
  ∧ (refresh_free evs ->
     (0%nat ∉ targets (observer st2.1))
     ∧ ∀ entries entry,
         deliverable (observer st2.1) entries -> entry ∈ entries ->
         target entry ≠ 0%nat).
Proof.
  cbn zeta.
  assert (is_Some (document (new_ScrollAnimator single_shot_options (load [host] 0)).2
                   !! 0%nat)) as Hel.
  { exists host. reflexivity. }
  assert (2 / 10 <= 1) as Hle by lra.
  split; [reflexivity|]. split; [exact Hel|]. split; [exact Hle|].
  exact (single_shot_is_final
           (new_ScrollAnimator single_shot_options (load [host] 0)).1
           (new_ScrollAnimator single_shot_options (load [host] 0)).2
           (2 / 10) 1 0%nat
           [Intersection [notification (2 / 10) 0 0%nat]; Scroll 5; AnimationFrame]
           eq_refl Hel Hle).
Defined.

Lemma init_delay_witness :
  let opts := merge_options no_options in
  let pg := load [delayed_host] 0 in
  document pg !! 0%nat = Some delayed_host
  ∧ is_Some (Dom.getAttribute "data-scroll" delayed_host)
  ∧ Dom.getAttribute "data-scroll-delay" delayed_host = Some "200"
  ∧ delay_at (document pg) 0 = Some (DelayText "")
  ∧ 0%nat ∈ targets (observer (init opts pg).1)
  ∧ delay_at (document (init opts pg).2) 0 = Some (DelayText "200ms").
Proof.
  cbn zeta.
  assert (is_Some (Dom.getAttribute "data-scroll" delayed_host)) as Hw.
  { exists "fade-up". reflexivity. }
  split; [reflexivity|]. split; [exact Hw|]. split; [reflexivity|].
  split; [reflexivity|].
  exact (proj2 (proj2 (proj1 (proj2
           (init_delay (merge_options no_options) (load [delayed_host] 0)))
           0%nat delayed_host eq_refl Hw eq_refl))).
Defined.

Lemma scroll_gate_witness :
  let pg := (run (new_ScrollAnimator no_options (load [free_triangle] 0))
                 [Scroll 10]).2 in
  refresh_free [Scroll 10]
  ∧ tickings pg = [true]
  ∧ (frameRequests (dispatch_scroll 20 pg) = frameRequests pg
     ∧ tickings (dispatch_scroll 20 pg) = [true])
  ∧ ∃ pg', updateParallax (set_frameRequests [] pg) = (Normal tt, pg')
           ∧ run_frame pg = set_tickings [false] pg'
           ∧ frameRequests (run_frame pg) = [].
Proof.
  cbn zeta.
  assert (refresh_free [Scroll 10]) as Hfree.
  { repeat constructor. discriminate. }
  pose proof (scroll_gate no_options [free_triangle] 0 [Scroll 10] Hfree)
    as (_ & _ & Hset & _ & Hrun).
  split; [exact Hfree|]. split; [reflexivity|].
  split; [exact (Hset 20 eq_refl)|exact (Hrun eq_refl)].
Defined.

End Witnesses.

(** * Further properties *)

Section InitMore.

Implicit Types (doc : Document) (el : Element) (pg : Page).

Lemma select_sorted sel doc k : StronglySorted lt (Dom.select sel doc k).
Proof.
  revert k. induction doc as [|el doc IH]; intros k; simpl; [constructor|].
  destruct (Dom.matches sel el); [|done].
  constructor; [done|]. apply Forall_forall. intros n Hn.
  apply select_spec in Hn. lia.
Qed.

Lemma watched_matches el :
  Dom.matches (Dom.HasAttribute "data-scroll") el = true ↔ watched el.
Proof. unfold watched. simpl. by rewrite bool_decide_eq_true. Qed.

(** Property X1.  After [init] the controller's [elements] are the
    elements that carry [data-scroll], in document order and without
    repetition; the new watcher observes exactly these, with the threshold
    and the margin of the options. *)
Theorem init_watches opts pg :
  let this := (init opts pg).1 in
  StronglySorted lt (elements this)
  ∧ NoDup (elements this)
  ∧ (∀ n, n ∈ elements this
          ↔ ∃ el, document pg !! n = Some el ∧ watched el)
  ∧ (∀ n, n ∈ targets (observer this) ↔ n ∈ elements this)
  ∧ io_threshold (observer this) = threshold opts
  ∧ io_rootMargin (observer this) = offset opts.
Proof.
  rewrite init_spec. cbn [fst elements observer targets io_threshold io_rootMargin].
  split_and!; try done.
  - apply select_sorted.
  - apply querySelectorAll_NoDup.
  - intros n. rewrite querySelectorAll_spec.
    by setoid_rewrite watched_matches.
  - intros n. by rewrite elem_of_list_to_set.
Qed.

Lemma init_document_fmap opts pg :
  document (init opts pg).2 = initialised <$> document pg.
Proof.
  apply list_eq. intros n. rewrite init_document, list_lookup_fmap.
  unfold initialised.
  destruct (document pg !! n) as [el|] eqn:Hel; simpl.
  - case_decide as Hin; case_bool_decide as Hw; try done.
    + exfalso. apply Hw. apply querySelectorAll_spec in Hin as (el' & ? & Hm).
      simplify_eq. by apply watched_matches.
    + exfalso. apply Hin. apply querySelectorAll_spec. exists el.
      split; [done|]. by apply watched_matches.
  - by case_decide.
Qed.

(** Property X2.  [init] changes nothing of the page but transition
    delays: an element that is not watched, or declares no delay or an
    empty one, is left as it is; a watched element that declares a
    non-empty delay has that text followed by ["ms"] assigned to its
    transition delay and keeps everything else.  If the delay is a whole
    number of at most six digits without a leading zero, the transition
    delay is then exactly that text; what becomes of any other text is
    the browser's to decide. *)
Theorem init_changes_delays_only opts pg :
  document (init opts pg).2 = initialised <$> document pg
  ∧ pageYOffset (init opts pg).2 = pageYOffset pg
  ∧ console (init opts pg).2 = console pg
  ∧ frameRequests (init opts pg).2 = frameRequests pg
  ∧ (∀ el, parentElement (initialised el) = parentElement el
           ∧ attributes (initialised el) = attributes el
           ∧ classList (initialised el) = classList el
           ∧ transform (style (initialised el)) = transform (style el))
  ∧ (∀ el, ¬ watched el -> initialised el = el)
  ∧ (∀ el, Dom.getAttribute "data-scroll-delay" el = None -> initialised el = el)
  ∧ (∀ el, Dom.getAttribute "data-scroll-delay" el = Some "" -> initialised el = el)
  ∧ (∀ el delay,
       watched el ->
       Dom.getAttribute "data-scroll-delay" el = Some delay ->
       delay ≠ "" ->
       transitionDelay (style (initialised el))
       = Css.assign_delay (delay ++ "ms") (transitionDelay (style el)))
  ∧ (∀ el delay,
       watched el ->
       Dom.getAttribute "data-scroll-delay" el = Some delay ->
       Css.plain_number delay = true ->
       transitionDelay (style (initialised el)) = DelayText (delay ++ "ms")).
Proof.
  split; [apply init_document_fmap|].
  rewrite init_spec. cbn. split_and!; try done.
  - intros el. unfold initialised, apply_delay.
    case_bool_decide; [|done].
    destruct (Dom.getAttribute _ _) as [delay|]; [|done].
    by destruct (Js.truthy delay).
  - intros el Hw. unfold initialised. by rewrite bool_decide_eq_false_2.
  - intros el Hd. unfold initialised, apply_delay. rewrite Hd. by case_bool_decide.
  - intros el Hd. unfold initialised, apply_delay. rewrite Hd. by case_bool_decide.
  - intros el delay Hw Hd Hne. unfold initialised.
    rewrite bool_decide_eq_true_2 by done. apply apply_delay_declared; [done|].
    by destruct delay.
  - intros el delay Hw Hd Hp. unfold initialised.
    rewrite bool_decide_eq_true_2 by done. by apply apply_delay_plain.
Qed.

Lemma init_changes_delays_only_witness :
  watched delayed_host
  ∧ Dom.getAttribute "data-scroll-delay" delayed_host = Some "200"
  ∧ Css.plain_number "200" = true
  ∧ transitionDelay (style (initialised delayed_host)) = DelayText "200ms".
Proof.
  assert (watched delayed_host) as Hw by (by eexists).
  split; [exact Hw|]. split; [reflexivity|]. split; [reflexivity|].
  exact (proj2 (proj2 (proj2 (proj2 (proj2 (proj2 (proj2 (proj2 (proj2
           (init_changes_delays_only (merge_options no_options)
              (load [] 0))))))))))
           delayed_host "200" Hw eq_refl eq_refl).
Defined.

End InitMore.

Section BatchMore.

Implicit Types (doc : Document) (el : Element) (pg : Page) (this : ScrollAnimator)
  (entries : list IntersectionObserverEntry).

Lemma mark_unmarked once b el :
  Dom.classList_remove "animated" (mark once b el)
  = Dom.classList_remove "animated" el.
Proof.
  destruct el as [p a c s ct]. unfold mark, Dom.classList_remove,
    Dom.classList_add; simpl.
  destruct b, once; simpl; f_equal; try done;
    apply set_eq; intros x;
    rewrite ?elem_of_difference, ?elem_of_union; tauto.
Qed.

Lemma handleIntersection_cons this pg entry entries :
  handleIntersection this (entry :: entries) pg
  = handleIntersection (handle_entry (this, pg) entry).1 entries
                       (handle_entry (this, pg) entry).2.
Proof. unfold handleIntersection. cbn [foldl]. by destruct (handle_entry _ _). Qed.

Lemma batch_frame this pg entries :
  (∀ n, (∀ entry, entry ∈ entries -> target entry ≠ n) ->
        document (handleIntersection this entries pg).2 !! n = document pg !! n)
  ∧ Dom.classList_remove "animated" <$> document (handleIntersection this entries pg).2
    = Dom.classList_remove "animated" <$> document pg
  ∧ options (handleIntersection this entries pg).1 = options this
  ∧ elements (handleIntersection this entries pg).1 = elements this
  ∧ pageYOffset (handleIntersection this entries pg).2 = pageYOffset pg
  ∧ console (handleIntersection this entries pg).2 = console pg
  ∧ tickings (handleIntersection this entries pg).2 = tickings pg
  ∧ frameRequests (handleIntersection this entries pg).2 = frameRequests pg.
Proof.
  revert this pg.
  induction entries as [|entry entries IH]; intros this pg; [done|].
  rewrite handleIntersection_cons, handle_entry_spec. cbn [fst snd].
  set (this1 := set_observer _ this). set (pg1 := set_document _ pg).
  destruct (IH this1 pg1) as (I1 & I2 & I3 & I4 & I5 & I6 & I7 & I8).
  split_and!; [| |by rewrite I3|by rewrite I4|by rewrite I5|by rewrite I6
              |by rewrite I7|by rewrite I8].
  - intros n Hn. rewrite I1.
    + subst pg1; simpl. rewrite list_lookup_alter_ne; [done|].
      apply Hn, list_elem_of_here.
    + intros e He. by apply Hn, list_elem_of_further.
  - rewrite I2. subst pg1; simpl. apply list_eq. intros i.
    rewrite !list_lookup_fmap.
    destruct (decide (i = target entry)) as [->|Hne].
    + rewrite list_lookup_alter_eq. destruct (document pg !! _); simpl; [|done].
      by rewrite mark_unmarked.
    + by rewrite list_lookup_alter_ne.
Qed.

(** Property X3.  A batch of notifications touches nothing but the class
    ["animated"] of its targets: an element no entry names is left as it
    is, every element keeps all else (other classes, attributes, style),
    and the controller keeps its options and its list of elements; the
    window, the console and the pending callbacks are as before. *)
Theorem handleIntersection_touches_mark_only this pg entries :
  let st := handleIntersection this entries pg in
  (∀ n, (∀ entry, entry ∈ entries -> target entry ≠ n) ->
        document st.2 !! n = document pg !! n)
  ∧ Dom.classList_remove "animated" <$> document st.2
    = Dom.classList_remove "animated" <$> document pg
  ∧ options st.1 = options this
  ∧ elements st.1 = elements this
  ∧ pageYOffset st.2 = pageYOffset pg
  ∧ console st.2 = console pg
  ∧ tickings st.2 = tickings pg
  ∧ frameRequests st.2 = frameRequests pg.
Proof. apply batch_frame. Qed.

Lemma handleIntersection_touches_mark_only_witness :
  let st0 := new_ScrollAnimator no_options (load [host; nested_triangle] 0) in
  let entries := [notification (2 / 10) 1 0%nat] in
  let st := handleIntersection st0.1 entries st0.2 in
  (∀ entry, entry ∈ entries -> target entry ≠ 1%nat)
  ∧ document st.2 !! 1%nat = document st0.2 !! 1%nat.
Proof.
  cbn zeta.
  assert (∀ entry, entry ∈ [notification (2 / 10) 1 0%nat] ->
                   target entry ≠ 1%nat) as H.
  { intros entry ->%list_elem_of_singleton. done. }
  split; [exact H|].
  exact (proj1 (handleIntersection_touches_mark_only
                  (new_ScrollAnimator no_options
                     (load [host; nested_triangle] 0)).1
                  (new_ScrollAnimator no_options
                     (load [host; nested_triangle] 0)).2
                  [notification (2 / 10) 1 0%nat]) 1%nat H).
Defined.

Lemma handleIntersection_is_Some this pg entries n :
  is_Some (document (handleIntersection this entries pg).2 !! n)
  ↔ is_Some (document pg !! n).
Proof.
  pose proof (batch_frame this pg entries) as (_ & H & _).
  apply (f_equal (fun l => l !! n)) in H. rewrite !list_lookup_fmap in H.
  rewrite <- !not_eq_None_Some.
  destruct (document _ !! n), (document pg !! n); simplify_eq/=; done.
Qed.

End BatchMore.

Section BatchOrder.

Implicit Types (doc : Document) (el : Element) (pg : Page) (this : ScrollAnimator)
  (entries : list IntersectionObserverEntry).

Lemma handleIntersection_observer_kept this pg entries :
  once (options this) = false ->
  observer (handleIntersection this entries pg).1 = observer this.
Proof.
  revert this pg. induction entries as [|entry entries IH]; intros this pg Ho;
    [done|].
  rewrite handleIntersection_cons, handle_entry_spec. cbn [fst snd].
  rewrite IH; simpl; [|done]. by rewrite Ho, andb_false_r.
Qed.

Lemma revealed_is_Some doc n : revealed doc n -> is_Some (doc !! n).
Proof. intros (el & -> & _). eauto. Qed.

Lemma revealed_mark_any doc once b n :
  revealed (alter (mark once b) n doc) n
  ↔ (b = true ∧ is_Some (doc !! n)) ∨ (once = true ∧ revealed doc n).
Proof.
  destruct (doc !! n) as [el|] eqn:Hel.
  - rewrite revealed_mark by (rewrite Hel; eauto).
    assert (is_Some (Some el)) by eauto. tauto.
  - split.
    + intros H%revealed_is_Some. rewrite list_lookup_alter_eq, Hel in H.
      by destruct H.
    + intros [[_ []]|[_ H%revealed_is_Some]]; [done|]. rewrite Hel in H.
      by destruct H.
Qed.

(** Property X4.  Outside single-shot mode the last entry of a batch
    that names an element decides: after the batch the element is revealed
    exactly when that entry reports it intersecting, whatever came before;
    and the batch leaves the watcher as it was. *)
Theorem last_notification_decides this pg before entry after :
  once (options this) = false ->
  is_Some (document pg !! target entry) ->
  (∀ e, e ∈ after -> target e ≠ target entry) ->
  (revealed (document (handleIntersection this (before ++ entry :: after) pg).2)
            (target entry)
   ↔ isIntersecting entry = true)
  ∧ observer (handleIntersection this (before ++ entry :: after) pg).1
    = observer this.
Proof.
  intros Ho Hel Hafter. split; [|by apply handleIntersection_observer_kept].
  rewrite handleIntersection_app, handleIntersection_cons.
  set (st1 := handleIntersection this before pg).
  assert (options st1.1 = options this) as Ho1.
  { destruct (batch_frame this pg before) as (_ & _ & H & _). exact H. }
  assert (is_Some (document st1.2 !! target entry)) as Hel1.
  { by apply handleIntersection_is_Some. }
  destruct st1 as [this1 pg1]. cbn [fst snd] in *.
  rewrite handle_entry_spec. cbn [fst snd].
  set (this2 := set_observer _ this1). set (pg2 := set_document _ pg1).
  destruct (batch_frame this2 pg2 after) as (Hsame & _).
  assert (revealed (document (handleIntersection this2 after pg2).2) (target entry)
          ↔ revealed (document pg2) (target entry)) as ->.
  { unfold revealed. by rewrite (Hsame _ Hafter). }
  subst pg2. cbn [document set_document].
  rewrite revealed_mark by done. rewrite Ho1, Ho.
  split; [intros [?|[? _]]; done|by left].
Qed.

Lemma last_notification_decides_witness :
  let st0 := new_ScrollAnimator no_options (load [host] 0) in
  let shown := mkEntry 0 true in
  let hidden := mkEntry 0 false in
  once (options st0.1) = false
  ∧ is_Some (document st0.2 !! target hidden)
  ∧ (∀ e, e ∈ [] -> target e ≠ target hidden)
  ∧ (revealed (document (handleIntersection st0.1 ([shown] ++ hidden :: []) st0.2).2)
              (target hidden)
     ↔ isIntersecting hidden = true)
  ∧ observer (handleIntersection st0.1 ([shown] ++ hidden :: []) st0.2).1
    = observer st0.1.
Proof.
  cbn zeta.
  assert (is_Some (document (new_ScrollAnimator no_options (load [host] 0)).2
                   !! target (mkEntry 0 false))) as Hel.
  { exists host. reflexivity. }
  assert (∀ e : IntersectionObserverEntry,
            e ∈ [] -> target e ≠ target (mkEntry 0 false)) as Hafter.
  { by intros e ?%elem_of_nil. }
  split; [reflexivity|]. split; [exact Hel|]. split; [exact Hafter|].
  exact (last_notification_decides
           (new_ScrollAnimator no_options (load [host] 0)).1
           (new_ScrollAnimator no_options (load [host] 0)).2
           [mkEntry 0 true] (mkEntry 0 false) [] eq_refl Hel Hafter).
Defined.

Lemma reported_visible_cons entry entries n :
  reported_visible (entry :: entries) n
  ↔ (target entry = n ∧ isIntersecting entry = true)
    ∨ reported_visible entries n.
Proof.
  unfold reported_visible. split.
  - intros (e & [->|He]%elem_of_cons & Ht & Hi); [by left|]. right. eauto.
  - intros [[Ht Hi]|(e & He & Ht & Hi)].
    + exists entry. split; [apply list_elem_of_here|done].
    + exists e. split; [by apply list_elem_of_further|done].
Qed.

(** Property X5.  In single-shot mode a batch only adds marks and only
    removes targets: after it an element is revealed exactly when it was
    revealed before or some entry reports it intersecting, and it is still
    observed exactly when it was observed and no entry reports it
    intersecting. *)
Theorem single_shot_batch this pg entries :
  once (options this) = true ->
  (∀ n, revealed (document (handleIntersection this entries pg).2) n
        ↔ revealed (document pg) n
          ∨ (is_Some (document pg !! n) ∧ reported_visible entries n))
  ∧ (∀ n, n ∈ targets (observer (handleIntersection this entries pg).1)
          ↔ n ∈ targets (observer this) ∧ ¬ reported_visible entries n).
Proof.
  revert this pg. induction entries as [|entry entries IH]; intros this pg Ho.
  { assert (∀ n, ¬ reported_visible [] n) as Hnone.
    { intros n (e & He & _). by apply elem_of_nil in He. }
    split; intros n; specialize (Hnone n); cbn; tauto. }
  rewrite handleIntersection_cons, handle_entry_spec. cbn [fst snd].
  rewrite Ho, andb_true_r.
  set (this1 := set_observer _ this). set (pg1 := set_document _ pg).
  destruct (IH this1 pg1 Ho) as [I1 I2].
  split; intros n.
  - rewrite I1, reported_visible_cons. subst pg1. cbn [document set_document].
    assert (is_Some (alter (mark true (isIntersecting entry)) (target entry)
                           (document pg) !! n)
            ↔ is_Some (document pg !! n)) as ->.
    { rewrite list_lookup_alter, <- !not_eq_None_Some.
      case_decide; [|done]. subst n. by rewrite fmap_None. }
    destruct (decide (n = target entry)) as [->|Hne].
    + rewrite revealed_mark_any.
      pose proof (revealed_is_Some (document pg) (target entry)). tauto.
    + rewrite revealed_alter_ne by done.
      assert (target entry ≠ n) by congruence. tauto.
  - rewrite I2, reported_visible_cons. subst this1.
    cbn [observer set_observer].
    destruct (isIntersecting entry) eqn:Hi; simpl.
    + rewrite elem_of_difference, elem_of_singleton.
      destruct (decide (n = target entry)) as [->|Hne]; [tauto|].
      assert (target entry ≠ n) by congruence. tauto.
    + assert (false ≠ true) by done. tauto.
Qed.

Lemma single_shot_batch_witness :
  let st0 := new_ScrollAnimator single_shot_options (load [host; host] 0) in
  let batch := [mkEntry 1 true; mkEntry 1 false; mkEntry 0 false] in
  once (options st0.1) = true
  ∧ (∀ n, revealed (document (handleIntersection st0.1 batch st0.2).2) n
          ↔ revealed (document st0.2) n
            ∨ (is_Some (document st0.2 !! n) ∧ reported_visible batch n))
  ∧ (∀ n, n ∈ targets (observer (handleIntersection st0.1 batch st0.2).1)
          ↔ n ∈ targets (observer st0.1) ∧ ¬ reported_visible batch n).
Proof.
  cbn zeta. split; [reflexivity|].
  exact (single_shot_batch
           (new_ScrollAnimator single_shot_options (load [host; host] 0)).1
           (new_ScrollAnimator single_shot_options (load [host; host] 0)).2
           [mkEntry 1 true; mkEntry 1 false; mkEntry 0 false] eq_refl).
Defined.

End BatchOrder.

Section RotationMore.

Implicit Types (s name body tail : string) (sep c : ascii).

Lemma split_nonempty sep s : ∃ piece pieces, Js.split sep s = piece :: pieces.
Proof.
  induction s as [|c s (piece & pieces & IH)]; simpl; [by eauto|].
  destruct (Ascii.eqb c sep); [by eauto|]. rewrite IH. eauto.
Qed.

Lemma split_head_Some sep s : is_Some (Js.split sep s !! 0%nat).
Proof. destruct (split_nonempty sep s) as (p & ps & ->). by eexists. Qed.

Lemma split_second sep s :
  Js.split sep s !! 1%nat = None ↔ includes sep s = false.
Proof.
  induction s as [|c s IH]; simpl; [done|].
  destruct (Ascii.eqb c sep); simpl.
  - destruct (split_head_Some sep s) as [p Hp]. rewrite Hp. split; discriminate.
  - destruct (split_nonempty sep s) as (p & ps & E). rewrite E in IH |- *.
    exact IH.
Qed.

Lemma append_empty s : s ++ "" = s.
Proof.
  induction s as [|c s IH]; [done|].
  change (String c s ++ "") with (String c (s ++ "")). by rewrite IH.
Qed.

(** Splitting a text whose first part has no separator. *)
Lemma split_app sep s rest piece pieces :
  includes sep s = false ->
  Js.split sep rest = piece :: pieces ->
  Js.split sep (s ++ rest) = (s ++ piece) :: pieces.
Proof.
  intros Hs Hrest. induction s as [|c s IH].
  { by change ("" ++ rest) with rest. }
  cbn [includes] in Hs. apply orb_false_elim in Hs as [Hc Hs].
  change (String c s ++ rest) with (String c (s ++ rest)).
  change (String c s ++ piece) with (String c (s ++ piece)).
  cbn [Js.split]. by rewrite Hc, (IH Hs).
Qed.

Lemma split_app_sep sep s rest :
  includes sep s = false ->
  Js.split sep (s ++ String sep rest) = s :: Js.split sep rest.
Proof.
  intros Hs. rewrite (split_app sep s (String sep rest) "" (Js.split sep rest) Hs).
  - by rewrite append_empty.
  - cbn [Js.split]. by rewrite Ascii.eqb_refl.
Qed.

Lemma split_plain sep s : includes sep s = false -> Js.split sep s = [s].
Proof.
  intros Hs. rewrite <- (append_empty s) at 1.
  rewrite (split_app sep s "" "" [] Hs eq_refl). by rewrite append_empty.
Qed.

Lemma matrix_values_throw matrix :
  (∃ e, matrix_values matrix = Throw e) ↔ includes "(" matrix = false.
Proof.
  unfold matrix_values. rewrite <- split_second.
  destruct (Js.split "(" matrix !! 1%nat) as [inner|]; simpl.
  - destruct (split_head_Some ")" inner) as [body ->]. simpl.
    split; [by intros [e ?]|done].
  - split; [done|]. intros _. by exists TypeError.
Qed.

Lemma warns_spec matrix : warns matrix = true ↔ parse_throws matrix.
Proof.
  unfold warns, parse_throws.
  rewrite !andb_true_iff, !negb_true_iff, matrix_values_throw.
  rewrite String.eqb_neq. destruct matrix; simpl; intuition congruence.
Qed.

Lemma getRotationFromMatrix_page matrix pg :
  (getRotationFromMatrix matrix pg).2
  = if warns matrix then console_warn warning matrix pg else pg.
Proof.
  rewrite getRotationFromMatrix_eq.
  destruct (warns matrix) eqn:W.
  - apply warns_spec in W as (Hn & He & e & Ht).
    destruct (String.eqb matrix "none" || negb (Js.truthy matrix)) eqn:S.
    { apply sentinel_spec in S. tauto. }
    apply rotation_of_values_throw in Ht. by rewrite Ht.
  - destruct (String.eqb matrix "none" || negb (Js.truthy matrix)) eqn:S; [done|].
    destruct (rotation_of_values matrix) as [angle|e] eqn:E; [done|].
    exfalso. apply rotation_of_values_throw in E.
    assert (parse_throws matrix) as Hp.
    { assert (¬ (matrix = "none" ∨ matrix = "")) as Hs.
      { rewrite <- sentinel_spec, S. done. }
      unfold parse_throws. split_and!; [tauto..|eauto]. }
    apply warns_spec in Hp. congruence.
Qed.

(** Property X8.  [getRotationFromMatrix] logs its warning, once, and
    returns 0 exactly for the texts that are not ["none"], not empty and
    contain no opening parenthesis; for every other text it leaves the
    page, console included, as it was. *)
Theorem getRotationFromMatrix_warns matrix pg :
  (getRotationFromMatrix matrix pg).2
  = (if negb (String.eqb matrix "none") && Js.truthy matrix
        && negb (includes "(" matrix)
     then console_warn "Failed to parse transform matrix:" matrix pg
     else pg)
  ∧ (includes "(" matrix = false ->
     (getRotationFromMatrix matrix pg).1 = Normal (Fin 0)).
Proof.
  split; [apply getRotationFromMatrix_page|].
  intros Hno. rewrite getRotationFromMatrix_eq.
  destruct (String.eqb matrix "none" || negb (Js.truthy matrix)); [done|].
  apply matrix_values_throw in Hno as [e He].
  apply rotation_of_values_throw in He. by rewrite He.
Qed.

Lemma getRotationFromMatrix_warns_witness :
  includes "(" "rotate 45deg" = false
  ∧ (getRotationFromMatrix "rotate 45deg" (load [] 0)).1 = Normal (Fin 0).
Proof.
  split; [reflexivity|].
  exact (proj2 (getRotationFromMatrix_warns "rotate 45deg" (load [] 0)) eq_refl).
Defined.

Lemma includes_app c s rest :
  includes c (s ++ rest) = includes c s || includes c rest.
Proof.
  induction s as [|c' s IH]; [done|].
  change (String c' s ++ rest) with (String c' (s ++ rest)).
  cbn [includes]. by rewrite IH, orb_assoc.
Qed.

Lemma matrix_values_call name body tail :
  includes "(" name = false ->
  includes "(" body = false ->
  includes ")" body = false ->
  matrix_values (name ++ "(" ++ body ++ ")" ++ tail) = Normal (Js.split "," body)
  ∧ matrix_values (name ++ "(" ++ body) = Normal (Js.split "," body).
Proof.
  intros Hname Hbody1 Hbody2. unfold matrix_values.
  change (name ++ "(" ++ body ++ ")" ++ tail)
    with (name ++ String "(" (body ++ String ")" tail)).
  change (name ++ "(" ++ body) with (name ++ String "(" body).
  rewrite !(split_app_sep _ _ _ Hname).
  split.
  - destruct (split_nonempty "(" (String ")" tail)) as (p & ps & E).
    rewrite (split_app "(" body _ p ps Hbody1 E).
    cbn [Js.split] in E. change (Ascii.eqb ")" "(") with false in E.
    destruct (Js.split "(" tail) as [|p' ps'] eqn:E'; simplify_eq;
      cbn; rewrite (split_app_sep _ _ _ Hbody2); done.
  - rewrite (split_plain _ _ Hbody1). cbn.
    rewrite (split_plain _ _ Hbody2). done.
Qed.

End RotationMore.

Section RotationCalls.

Lemma not_sentinel_of_includes matrix :
  includes "(" matrix = true ->
  String.eqb matrix "none" || negb (Js.truthy matrix) = false.
Proof.
  intros Hin.
  destruct (String.eqb matrix "none" || negb (Js.truthy matrix)) eqn:S; [|done].
  apply sentinel_spec in S as [-> | ->]; discriminate Hin.
Qed.

(** What is returned is read off the components alone. *)
Lemma getRotationFromMatrix_same_values m1 m2 pg :
  includes "(" m1 = true -> includes "(" m2 = true ->
  matrix_values m1 = matrix_values m2 ->
  getRotationFromMatrix m1 pg = getRotationFromMatrix m2 pg.
Proof.
  intros H1 H2 Hv. rewrite !getRotationFromMatrix_eq.
  rewrite (not_sentinel_of_includes _ H1), (not_sentinel_of_includes _ H2).
  unfold rotation_of_values. rewrite Hv.
  destruct (matrix_values m2) as [values|e] eqn:E.
  { unfold mbind, completion_bind.
    destruct (length values <? 2)%nat; [done|].
    by destruct (Num.isNaN _ || Num.isNaN _). }
  exfalso. assert (includes "(" m2 = false) as Hno.
  { apply matrix_values_throw. eauto. }
  congruence.
Qed.

Lemma includes_call name rest : includes "(" (name ++ String "(" rest) = true.
Proof. rewrite includes_app. cbn. by rewrite orb_true_r. Qed.

(** Property X10.  [getRotationFromMatrix] reads the comma-separated
    pieces of the text between the first opening parenthesis and the
    closing parenthesis that follows: the name before the parenthesis and
    the text after the closing one do not matter, nor does a missing
    closing parenthesis.  So any function text, [translate(10px, 20px)] as
    well, is read as a matrix would be. *)
Theorem getRotationFromMatrix_reads_first_group name body tail pg :
  includes "(" name = false ->
  includes "(" body = false ->
  includes ")" body = false ->
  matrix_values (name ++ "(" ++ body ++ ")" ++ tail) = Normal (Js.split "," body)
  ∧ getRotationFromMatrix (name ++ "(" ++ body ++ ")" ++ tail) pg
    = getRotationFromMatrix ("matrix(" ++ body ++ ")") pg
  ∧ getRotationFromMatrix (name ++ "(" ++ body) pg
    = getRotationFromMatrix ("matrix(" ++ body ++ ")") pg.
Proof.
  intros Hname Hb1 Hb2.
  destruct (matrix_values_call name body tail Hname Hb1 Hb2) as [V1 V2].
  assert (matrix_values ("matrix(" ++ body ++ ")") = Normal (Js.split "," body))
    as V3 by exact (proj1 (matrix_values_call "matrix" body "" eq_refl Hb1 Hb2)).
  assert (includes "(" ("matrix(" ++ body ++ ")") = true)
    as I3 by exact (includes_call "matrix" (body ++ ")")).
  split; [done|]. split.
  - apply getRotationFromMatrix_same_values; [apply includes_call|done|].
    by rewrite V1, V3.
  - apply getRotationFromMatrix_same_values; [apply includes_call|done|].
    by rewrite V2, V3.
Qed.

Lemma getRotationFromMatrix_reads_first_group_witness :
  includes "(" "translate" = false
  ∧ includes "(" "10px, 20px" = false
  ∧ includes ")" "10px, 20px" = false
  ∧ matrix_values ("translate" ++ "(" ++ "10px, 20px" ++ ")" ++ " scale(2)")
    = Normal (Js.split "," "10px, 20px")
  ∧ getRotationFromMatrix
      ("translate" ++ "(" ++ "10px, 20px" ++ ")" ++ " scale(2)") (load [] 0)
    = getRotationFromMatrix ("matrix(" ++ "10px, 20px" ++ ")") (load [] 0)
  ∧ getRotationFromMatrix ("translate" ++ "(" ++ "10px, 20px") (load [] 0)
    = getRotationFromMatrix ("matrix(" ++ "10px, 20px" ++ ")") (load [] 0).
Proof.
  split; [reflexivity|]. split; [reflexivity|]. split; [reflexivity|].
  exact (getRotationFromMatrix_reads_first_group
           "translate" "10px, 20px" " scale(2)" (load [] 0)
           eq_refl eq_refl eq_refl).
Defined.

(** Property X9.  Rotation extraction ignores a uniform scale.  Take
    [rho > 0], an angle [theta] between -180 and 180 degrees and a text
    whose first two components read as numbers within [delta * rho] of
    [rho * cos theta] and [rho * sin theta].  The extraction returns,
    with no warning, an integer [n] between -180 and 180 within
    [1/2 + tolerance delta] of [theta] up to a full turn; the full turn
    comes in near the half turn only; and [n] is [theta] rounded to the
    nearest integer when [theta] is further than the tolerance from the
    next rounding boundary and rounds to an integer from -179 to 179.
    Components too large for a double read as infinities and are not
    covered. *)
Theorem rotation_ignores_scale rho delta theta matrix pg :
  0 < rho ->
  0 <= delta <= 1 / 100 ->
  -180 <= theta <= 180 ->
  encodes_rotation rho delta theta matrix ->
  ∃ angle n,
    getRotationFromMatrix matrix pg = (Normal angle, pg)
    ∧ Num.value angle = Some (IZR n)
    ∧ (-180 <= n <= 180)%Z
    ∧ (∃ k : Z, (k = -1 ∨ k = 0 ∨ k = 1)%Z
                ∧ Rabs (IZR n - theta - 360 * IZR k) <= 1 / 2 + tolerance delta)
    ∧ (Rabs theta + tolerance delta < 180 - 1 / 2 ->
       Rabs (IZR n - theta) <= 1 / 2 + tolerance delta)
    ∧ ((-179 <= round_degrees theta <= 179)%Z ->
       Rabs (theta - IZR (round_degrees theta)) < 1 / 2 - tolerance delta ->
       n = round_degrees theta).
Proof. apply rotation_of_encoded. Qed.

Lemma doubled_quarter_turn :
  encodes_rotation 2 0 90 "matrix(0, 2, -2, 0, 0, 0)".
Proof.
  pose proof bpow_1024_large as Hlarge.
  exists ["0"; " 2"; " -2"; " 0"; " 0"; " 0"], 0, 2.
  assert (radians 90 = Rtrigo1.PI / 2) as -> by (unfold radians; lra).
  rewrite cos_PI2, sin_PI2.
  split; [by vm_compute|]. split; [simpl; lia|].
  split; [|split; [|split; apply Rabs_le; lra]].
  - unfold parseFloat_at, parseFloat; simpl. unfold Num.of_literal; simpl.
    change (Num.decimal_value _ _) with (IZR 0).
    rewrite make_value; rewrite round_0; [done|lra].
  - unfold parseFloat_at, parseFloat; simpl. unfold Num.of_literal; simpl.
    change (Num.decimal_value _ _) with (IZR 2).
    rewrite make_value; rewrite (round_IZR 2) by (simpl; lia); [done|lra].
Qed.

Lemma rotation_ignores_scale_witness :
  0 < 2
  ∧ 0 <= 0 <= 1 / 100
  ∧ -180 <= 90 <= 180
  ∧ encodes_rotation 2 0 90 "matrix(0, 2, -2, 0, 0, 0)"
  ∧ ∃ angle n,
      getRotationFromMatrix "matrix(0, 2, -2, 0, 0, 0)" (load [] 0)
      = (Normal angle, load [] 0)
      ∧ Num.value angle = Some (IZR n)
      ∧ (-180 <= n <= 180)%Z
      ∧ (∃ k : Z, (k = -1 ∨ k = 0 ∨ k = 1)%Z
                  ∧ Rabs (IZR n - 90 - 360 * IZR k) <= 1 / 2 + tolerance 0)
      ∧ (Rabs 90 + tolerance 0 < 180 - 1 / 2 ->
         Rabs (IZR n - 90) <= 1 / 2 + tolerance 0)
      ∧ ((-179 <= round_degrees 90 <= 179)%Z ->
         Rabs (90 - IZR (round_degrees 90)) < 1 / 2 - tolerance 0 ->
         n = round_degrees 90).
Proof.
  assert (0 < 2) as H2 by lra.
  assert (0 <= 0 <= 1 / 100) as H0 by lra.
  assert (-180 <= 90 <= 180) as Hr by lra.
  split; [exact H2|]. split; [exact H0|]. split; [exact Hr|].
  split; [exact doubled_quarter_turn|].
  exact (rotation_ignores_scale 2 0 90 _ (load [] 0) H2 H0 Hr
           doubled_quarter_turn).
Defined.

End RotationCalls.

Section ParallaxMore.

Implicit Types (doc : Document) (el : Element) (pg : Page).

Lemma triangles_spec doc n :
  n ∈ Dom.querySelectorAll (Dom.HasClass "triangle") doc
  ↔ ∃ el, doc !! n = Some el ∧ "triangle" ∈ classList el.
Proof.
  rewrite querySelectorAll_spec. simpl. unfold Dom.contains.
  by setoid_rewrite bool_decide_eq_true.
Qed.

Lemma erase_eq_lookup doc doc' n el' :
  erase doc' = erase doc -> doc' !! n = Some el' ->
  ∃ el, doc !! n = Some el ∧ el' = Dom.set_transform (transform (style el')) el.
Proof.
  intros He Hl. apply (f_equal (fun l => l !! n)) in He.
  rewrite !erase_lookup, Hl in He. simpl in He.
  destruct (doc !! n) as [el|]; simplify_eq/=. exists el. split; [done|].
  destruct el' as [p a c [d t] ct], el as [p0 a0 c0 [d0 t0] ct0].
  unfold Dom.set_transform in *. simpl in *. by simplify_eq.
Qed.

Lemma updateParallax_frame pg :
  ∃ pg',
    updateParallax pg = (Normal tt, pg')
    ∧ pageYOffset pg' = pageYOffset pg
    ∧ tickings pg' = tickings pg
    ∧ frameRequests pg' = frameRequests pg
    ∧ length (document pg') = length (document pg)
    ∧ (∀ n el', document pg' !! n = Some el' ->
         ∃ el, document pg !! n = Some el
               ∧ parentElement el' = parentElement el
               ∧ attributes el' = attributes el
               ∧ classList el' = classList el
               ∧ transitionDelay (style el') = transitionDelay (style el))
    ∧ (∀ n el, document pg !! n = Some el ->
         "triangle" ∉ classList el ∨ skips (document pg) n el = true ->
         document pg' !! n = Some el).
Proof.
  destruct (updateParallax_spec pg) as (pg' & E & (F1 & F2 & F3 & Her) & Hout & Hin).
  exists pg'. split_and!; try done.
  - symmetry. by apply erase_length.
  - intros n el' Hl. destruct (erase_eq_lookup _ _ n el' Her Hl) as (el & ? & ->).
    by exists el.
  - intros n el Hel Hor.
    destruct (decide (n ∈ Dom.querySelectorAll (Dom.HasClass "triangle")
                           (document pg))) as [Hn|Hn].
    + destruct Hor as [Hnot|Hskip].
      * apply triangles_spec in Hn as (el0 & ? & ?). by simplify_eq.
      * apply list_elem_of_lookup_1 in Hn as [index Hidx].
        by rewrite (Hin index n el Hidx Hel), Hskip.
    + by rewrite Hout.
Qed.

(** Property X6.  [updateParallax] never throws, and all it writes on
    the page is the inline transform of triangles it does not skip (and
    the console): the scroll offset, the flags and the pending callbacks
    are as before, every element keeps its parent, attributes, classes
    and transition delay, and an element that is not a triangle, or that
    the skip test excludes, is left exactly as it was. *)
Theorem updateParallax_touches_transforms_only pg :
  ∃ pg',
    updateParallax pg = (Normal tt, pg')
    ∧ pageYOffset pg' = pageYOffset pg
    ∧ tickings pg' = tickings pg
    ∧ frameRequests pg' = frameRequests pg
    ∧ length (document pg') = length (document pg)
    ∧ (∀ n el', document pg' !! n = Some el' ->
         ∃ el, document pg !! n = Some el
               ∧ parentElement el' = parentElement el
               ∧ attributes el' = attributes el
               ∧ classList el' = classList el
               ∧ transitionDelay (style el') = transitionDelay (style el))
    ∧ (∀ n el, document pg !! n = Some el ->
         "triangle" ∉ classList el ∨ skips (document pg) n el = true ->
         document pg' !! n = Some el).
Proof. apply updateParallax_frame. Qed.

Lemma updateParallax_touches_transforms_only_witness :
  let pg := load [host; nested_triangle; free_triangle] 120 in
  ∃ pg',
    updateParallax pg = (Normal tt, pg')
    ∧ document pg' !! 0%nat = Some host
    ∧ document pg' !! 1%nat = Some nested_triangle.
Proof.
  cbn zeta.
  destruct (updateParallax_touches_transforms_only
              (load [host; nested_triangle; free_triangle] 120))
    as (pg' & E & _ & _ & _ & _ & _ & Hkeep).
  exists pg'. split; [exact E|]. split.
  - apply (Hkeep 0%nat host eq_refl). left. apply not_elem_of_empty.
  - apply (Hkeep 1%nat nested_triangle eq_refl). right. reflexivity.
Defined.

Lemma getRotationFromMatrix_full matrix pg :
  getRotationFromMatrix matrix pg
  = (Normal (rotation matrix),
     if warns matrix then console_warn warning matrix pg else pg).
Proof.
  destruct (getRotationFromMatrix_returns matrix pg) as (cons & E).
  pose proof (getRotationFromMatrix_page matrix pg) as Hp.
  rewrite E in Hp |- *. simpl in Hp. by rewrite Hp.
Qed.

Lemma parallax_triangle_console scrolled triangle index pg :
  console (parallax_triangle scrolled triangle index pg).2
  = (console pg ++ triangle_warnings (document pg) triangle)%list.
Proof.
  unfold parallax_triangle, triangle_warnings, mbind, eff_bind, gets; simpl.
  destruct (document pg !! triangle) as [el|]; simpl;
    [|by rewrite app_nil_r].
  fold (skips (document pg) triangle el).
  destruct (skips (document pg) triangle el); simpl; [by rewrite app_nil_r|].
  rewrite getRotationFromMatrix_full.
  destruct (warns (computedTransform el)); simpl; [done|by rewrite app_nil_r].
Qed.

Lemma triangle_warnings_same doc doc' n :
  erase doc' = erase doc -> doc' !! n = doc !! n ->
  triangle_warnings doc' n = triangle_warnings doc n.
Proof.
  intros He Hl. unfold triangle_warnings. rewrite Hl.
  destruct (doc !! n) as [el|]; [|done]. by rewrite (skips_erase _ _ _ _ He).
Qed.

Lemma forEach_parallax_console scrolled l k pg :
  NoDup l ->
  console (forEach (parallax_triangle scrolled) l k pg).2
  = (console pg ++ parallax_warnings (document pg) l)%list.
Proof.
  intros Hnd. revert k pg.
  induction Hnd as [|t l Hnotin Hnd IH]; intros k pg; simpl.
  { by rewrite app_nil_r. }
  pose proof (parallax_triangle_console scrolled t k pg) as Hc.
  destruct (parallax_triangle_spec scrolled t k pg) as (pg1 & E1 & F1 & D1).
  unfold mbind, eff_bind. rewrite E1 in Hc |- *. simpl in Hc.
  rewrite IH, Hc, <- app_assoc. f_equal. f_equal.
  unfold parallax_warnings.
  destruct F1 as (_ & _ & _ & Her).
  assert (∀ n, n ∈ l -> document pg1 !! n = document pg !! n) as Hsame.
  { intros n Hn. assert (n ≠ t) by (intros ->; done).
    rewrite D1. destruct (document pg !! t) as [el|]; [|done].
    destruct (skips _ _ _); [done|]. by rewrite list_lookup_alter_ne. }
  clear IH Hnd Hnotin. induction l as [|n l IHl]; simpl; [done|].
  rewrite (triangle_warnings_same _ _ _ Her) by (apply Hsame, list_elem_of_here).
  f_equal. apply IHl. intros m Hm. by apply Hsame, list_elem_of_further.
Qed.

(** Property X7.  One run of [updateParallax] logs exactly one warning
    for every triangle that it does not skip and whose computed transform
    is neither ["none"] nor empty and has no opening parenthesis, in
    document order, and logs nothing else. *)
Theorem updateParallax_warnings pg :
  ∃ pg',
    updateParallax pg = (Normal tt, pg')
    ∧ console pg'
      = (console pg
         ++ parallax_warnings (document pg)
              (Dom.querySelectorAll (Dom.HasClass "triangle") (document pg)))%list.
Proof.
  destruct (updateParallax_spec pg) as (pg' & E & _).
  exists pg'. split; [done|].
  pose proof (forEach_parallax_console (pageYOffset pg)
                (Dom.querySelectorAll (Dom.HasClass "triangle") (document pg))
                0 pg (querySelectorAll_NoDup _ _)) as Hc.
  unfold updateParallax, mbind, eff_bind, gets in E. simpl in E.
  by rewrite E in Hc.
Qed.

(** Property X13.  Take a scroll offset that is not negative and at
    most [2 ^ 53], and fewer than [2 ^ 53] triangles, so that no product
    overflows.  Every triangle that is moved is moved up or not at all,
    and a triangle that comes later among the triangles is moved at least
    as far as an earlier one.  (When the product overflows the text
    assigned is not a transform and the triangle is not moved: lemma
    [parallax_overflow].) *)
Theorem later_triangles_move_further pg i j ti tj eli elj :
  0 <= pageYOffset pg <= Float.bpow 53 ->
  (i <= j)%nat ->
  (Z.of_nat j < 2 ^ 53)%Z ->
  Dom.querySelectorAll (Dom.HasClass "triangle") (document pg) !! i = Some ti ->
  Dom.querySelectorAll (Dom.HasClass "triangle") (document pg) !! j = Some tj ->
  document pg !! ti = Some eli ->
  document pg !! tj = Some elj ->
  skips (document pg) ti eli = false ->
  skips (document pg) tj elj = false ->
  ∃ pg' yi yj ri rj,
    updateParallax pg = (Normal tt, pg')
    ∧ transform_at (document pg') ti = Some (TranslateYRotate yi ri)
    ∧ transform_at (document pg') tj = Some (TranslateYRotate yj rj)
    ∧ yj <= yi <= 0.
Proof.
  intros [Hs0 Hs1] Hij Hbound Hi Hj Heli Helj Hski Hskj.
  destruct (updateParallax_spec pg) as (pg' & E & _ & _ & Hin).
  assert (Rabs (pageYOffset pg) <= Float.bpow 53) as Hs
    by (by rewrite Rabs_pos_eq).
  exists pg', (offset_value (pageYOffset pg) i),
    (offset_value (pageYOffset pg) j). do 2 eexists. split; [done|].
  unfold transform_at.
  rewrite (Hin i ti eli Hi Heli), (Hin j tj elj Hj Helj), Hski, Hskj.
  cbn [fmap option_fmap option_map].
  rewrite !parallax_transform by (done || lia).
  split; [reflexivity|]. split; [reflexivity|].
  by apply offset_value_mono.
Qed.

Lemma later_triangles_move_further_witness :
  let pg := load [free_triangle; free_triangle] 120 in
  0 <= pageYOffset pg <= Float.bpow 53
  ∧ (0 <= 1)%nat
  ∧ (Z.of_nat 1 < 2 ^ 53)%Z
  ∧ ∃ pg' yi yj ri rj,
      updateParallax pg = (Normal tt, pg')
      ∧ transform_at (document pg') 0 = Some (TranslateYRotate yi ri)
      ∧ transform_at (document pg') 1 = Some (TranslateYRotate yj rj)
      ∧ yj <= yi <= 0.
Proof.
  cbn zeta.
  assert (0 <= pageYOffset (load [free_triangle; free_triangle] 120)
          <= Float.bpow 53) as Hs.
  { simpl. rewrite (bpow_pos_eval 53). simpl. lra. }
  assert (0 <= 1)%nat as Hij by lia.
  assert (Z.of_nat 1 < 2 ^ 53)%Z as Hb by reflexivity.
  split; [exact Hs|]. split; [exact Hij|]. split; [exact Hb|].
  exact (later_triangles_move_further
           (load [free_triangle; free_triangle] 120) 0 1 0 1
           free_triangle free_triangle Hs Hij Hb
           eq_refl eq_refl eq_refl eq_refl eq_refl eq_refl).
Defined.

End ParallaxMore.

Section ListenersMore.

Implicit Types (pg : Page) (this : ScrollAnimator).

Lemma scroll_listener_length i pg :
  length (tickings (scroll_listener i pg)) = length (tickings pg).
Proof.
  unfold scroll_listener. destruct (tickings pg !! i) as [[]|]; simpl; try done.
  by rewrite length_insert.
Qed.

Lemma scroll_listener_sets i pg :
  (i < length (tickings pg))%nat ->
  tickings (scroll_listener i pg) !! i = Some true.
Proof.
  intros Hlt. unfold scroll_listener.
  destruct (lookup_lt_is_Some_2 _ _ Hlt) as [[] Hb]; rewrite Hb; simpl; [done|].
  by rewrite list_lookup_insert_eq.
Qed.

Lemma scroll_listener_keeps i j pg :
  tickings pg !! j = Some true ->
  tickings (scroll_listener i pg) !! j = Some true.
Proof.
  intros Hj. unfold scroll_listener.
  destruct (tickings pg !! i) as [[]|] eqn:Hi; simpl; try done.
  rewrite list_lookup_insert_ne; [done|]. congruence.
Qed.

Lemma scroll_listener_gates i pg : gates_ok pg -> gates_ok (scroll_listener i pg).
Proof.
  intros [Hnd Hiff]. unfold scroll_listener.
  destruct (tickings pg !! i) as [[]|] eqn:Hi; simpl; try done.
  assert (i ∉ frameRequests pg) as Hnot.
  { rewrite Hiff. congruence. }
  split; simpl.
  - apply NoDup_app. split_and!; [done| |apply NoDup_singleton].
    intros x Hx ->%list_elem_of_singleton. done.
  - intros j. rewrite elem_of_app, list_elem_of_singleton, Hiff.
    destruct (decide (j = i)) as [->|Hne].
    + rewrite list_lookup_insert_eq by (by eapply lookup_lt_Some). tauto.
    + rewrite list_lookup_insert_ne by done. tauto.
Qed.

Lemma scroll_listeners_gates l pg :
  gates_ok pg ->
  let pg' := foldl (fun pg i => scroll_listener i pg) pg l in
  gates_ok pg'
  ∧ length (tickings pg') = length (tickings pg)
  ∧ (∀ j, tickings pg !! j = Some true -> tickings pg' !! j = Some true)
  ∧ (∀ j, j ∈ l -> (j < length (tickings pg))%nat ->
          tickings pg' !! j = Some true).
Proof.
  revert pg. induction l as [|i l IH]; intros pg Hg; simpl.
  { split_and!; try done. intros j Hj. by apply elem_of_nil in Hj. }
  destruct (IH (scroll_listener i pg) (scroll_listener_gates i pg Hg))
    as (G & L & K & S).
  rewrite scroll_listener_length in L, S.
  split_and!; try done.
  - intros j Hj. by apply K, scroll_listener_keeps.
  - intros j [->|Hj]%elem_of_cons Hlt; [|by apply S].
    by apply K, scroll_listener_sets.
Qed.

Lemma dispatch_scroll_gates y pg :
  gates_ok pg ->
  gates_ok (dispatch_scroll y pg)
  ∧ length (tickings (dispatch_scroll y pg)) = length (tickings pg)
  ∧ frameRequests (dispatch_scroll y pg) ≡ₚ seq 0 (length (tickings pg)).
Proof.
  intros Hg. unfold dispatch_scroll.
  assert (gates_ok (set_pageYOffset y pg)) as Hg' by done.
  destruct (scroll_listeners_gates
              (seq 0 (length (tickings (set_pageYOffset y pg)))) _ Hg')
    as (G & L & _ & S).
  cbn zeta in G, L, S. split_and!; [done|done|].
  destruct G as [Hnd Hiff].
  apply NoDup_Permutation; [done|apply NoDup_seq|].
  intros i. rewrite Hiff, elem_of_seq. split.
  - intros Hi%lookup_lt_Some. rewrite L in Hi. simpl in *. lia.
  - intros [_ Hi]. apply S; [|simpl in *; lia].
    apply elem_of_seq. simpl in *. lia.
Qed.

Lemma frame_callback_flags i pg :
  tickings (frame_callback i pg).2 = <[i := false]> (tickings pg)
  ∧ frameRequests (frame_callback i pg).2 = frameRequests pg.
Proof.
  destruct (frame_callback_spec i pg) as (pg' & _ & F & ->). simpl.
  by destruct F as (_ & _ & -> & _).
Qed.

Lemma frame_callbacks_flags l pg :
  let pg' := foldl (fun pg i => (frame_callback i pg).2) pg l in
  frameRequests pg' = frameRequests pg
  ∧ length (tickings pg') = length (tickings pg)
  ∧ (∀ j, tickings pg' !! j = Some true ->
          tickings pg !! j = Some true ∧ j ∉ l).
Proof.
  revert pg. induction l as [|i l IH]; intros pg; simpl.
  { split_and!; try done. intros j Hj. split; [done|]. apply not_elem_of_nil. }
  destruct (IH (frame_callback i pg).2) as (F & L & T).
  destruct (frame_callback_flags i pg) as [Et Ef].
  rewrite Ef in F. rewrite Et, length_insert in L.
  split_and!; try done.
  intros j Hj. destruct (T j Hj) as [Hj' Hnot]. rewrite Et in Hj'.
  destruct (decide (j = i)) as [->|Hne].
  - apply list_lookup_insert_Some in Hj' as [(_ & ? & _)|(? & _)]; done.
  - rewrite list_lookup_insert_ne in Hj' by done. split; [done|].
    rewrite not_elem_of_cons. done.
Qed.

Lemma run_frame_gates pg :
  gates_ok pg ->
  gates_ok (run_frame pg)
  ∧ length (tickings (run_frame pg)) = length (tickings pg)
  ∧ frameRequests (run_frame pg) = []
  ∧ (∀ i, tickings (run_frame pg) !! i ≠ Some true).
Proof.
  intros [Hnd Hiff]. unfold run_frame.
  destruct (frame_callbacks_flags (frameRequests pg) (set_frameRequests [] pg))
    as (F & L & T).
  cbn zeta in F, L, T. simpl in F, L.
  assert (∀ i, tickings (foldl (fun pg i => (frame_callback i pg).2)
                           (set_frameRequests [] pg) (frameRequests pg)) !! i
               ≠ Some true) as Hnone.
  { intros i Hi. destruct (T i Hi) as [Ht Hnot]. simpl in Ht.
    by apply Hnot, Hiff. }
  split_and!; try done.
  split; rewrite F; [apply NoDup_nil_2|].
  intros i. rewrite elem_of_nil. split; [done|]. apply Hnone.
Qed.

Lemma init_gates opts pg :
  gates_ok pg ->
  gates_ok (init opts pg).2
  ∧ length (tickings (init opts pg).2) = S (length (tickings pg)).
Proof.
  intros [Hnd Hiff]. rewrite init_spec. simpl. split.
  - split; simpl; [done|]. intros i. rewrite Hiff. split.
    + intros Hi. by rewrite lookup_app_l by (by eapply lookup_lt_Some).
    + intros Hi. apply lookup_app_Some in Hi as [Hi|[_ Hi]]; [done|].
      apply list_lookup_singleton_Some in Hi as [_ ?]. done.
  - rewrite length_app. simpl. lia.
Qed.

Lemma step_gates st ev :
  gates_ok st.2 ->
  gates_ok (step st ev).2
  ∧ length (tickings (step st ev).2)
    = (length (tickings st.2) + refreshes [ev])%nat.
Proof.
  destruct st as [this pg]. cbn [snd]. intros Hg.
  destruct ev as [y| |entries|]; cbn [step fst snd refreshes].
  - destruct (dispatch_scroll_gates y pg Hg) as (G & L & _).
    split; [done|]. lia.
  - destruct (run_frame_gates pg Hg) as (G & L & _). split; [done|]. lia.
  - destruct (handleIntersection_frame this pg entries) as (_ & Et & Ef).
    split; [|rewrite Et; lia].
    destruct Hg as [Hnd Hiff]. split; rewrite Ef; [done|].
    intros i. by rewrite Et.
  - rewrite refresh_spec. destruct (init_gates (options this) pg Hg) as [G L].
    split; [done|]. lia.
Qed.

Lemma refreshes_cons ev evs :
  refreshes (ev :: evs) = (refreshes [ev] + refreshes evs)%nat.
Proof. by destruct ev. Qed.

Lemma run_gates st evs :
  gates_ok st.2 ->
  gates_ok (run st evs).2
  ∧ length (tickings (run st evs).2)
    = (length (tickings st.2) + refreshes evs)%nat.
Proof.
  unfold run. revert st. induction evs as [|ev evs IH]; intros st Hg.
  { simpl. split; [done|]. lia. }
  cbn [foldl]. destruct (step_gates st ev Hg) as [G L].
  destruct (IH _ G) as [G' L']. split; [done|].
  rewrite L', L, (refreshes_cons ev evs). lia.
Qed.

(** Property X11.  Every call of [refresh()] adds a scroll listener with
    a flag of its own and removes none: after [k] calls the page has
    [k + 1] of them.  Whatever events happened, a listener has a
    recomputation pending exactly when its flag is set, and never two; a
    scroll then leaves one recomputation pending for each listener, and
    the next display refresh runs them all and clears every flag. *)
Theorem listeners_gate arg doc y evs :
  let pg := (run (new_ScrollAnimator arg (load doc y)) evs).2 in
  length (tickings pg) = S (refreshes evs)
  ∧ gates_ok pg
  ∧ (∀ y', frameRequests (dispatch_scroll y' pg) ≡ₚ seq 0 (S (refreshes evs)))
  ∧ frameRequests (run_frame pg) = []
  ∧ (∀ i, tickings (run_frame pg) !! i ≠ Some true).
Proof.
  intros pg.
  assert (gates_ok (new_ScrollAnimator arg (load doc y)).2) as Hg0.
  { unfold new_ScrollAnimator. rewrite init_spec. split; simpl.
    - apply NoDup_nil_2.
    - intros [|i]; simpl; split; try done; by intros ?%elem_of_nil. }
  destruct (run_gates _ evs Hg0) as [G L]. fold pg in G, L.
  assert (length (tickings pg) = S (refreshes evs)) as Hlen.
  { rewrite L. unfold new_ScrollAnimator. by rewrite init_spec. }
  split; [done|]. split; [done|]. split.
  - intros y'. rewrite <- Hlen. by apply dispatch_scroll_gates.
  - by destruct (run_frame_gates pg G) as (_ & _ & ? & ?).
Qed.

End ListenersMore.

Section RefreshMore.

Implicit Types (doc : Document) (pg : Page) (this : ScrollAnimator).

Lemma select_fmap sel (f : Element -> Element) doc k :
  (∀ el, Dom.matches sel (f el) = Dom.matches sel el) ->
  Dom.select sel (f <$> doc) k = Dom.select sel doc k.
Proof.
  intros Hf. revert k. induction doc as [|el doc IH]; intros k; simpl; [done|].
  by rewrite Hf, !IH.
Qed.

Lemma select_same_erase sel doc doc' :
  erase doc' = erase doc ->
  Dom.querySelectorAll sel doc' = Dom.querySelectorAll sel doc.
Proof.
  intros He. unfold Dom.querySelectorAll.
  rewrite <- (select_fmap sel (Dom.set_transform (TransformText "")) doc')
    by (intros; apply matches_set_transform).
  rewrite <- (select_fmap sel (Dom.set_transform (TransformText "")) doc)
    by (intros; apply matches_set_transform).
  by fold (erase doc') (erase doc); rewrite He.
Qed.

Lemma select_same_unmarked name doc doc' :
  Dom.classList_remove "animated" <$> doc'
  = Dom.classList_remove "animated" <$> doc ->
  Dom.querySelectorAll (Dom.HasAttribute name) doc'
  = Dom.querySelectorAll (Dom.HasAttribute name) doc.
Proof.
  intros He. unfold Dom.querySelectorAll.
  rewrite <- (select_fmap _ (Dom.classList_remove "animated") doc') by done.
  rewrite <- (select_fmap _ (Dom.classList_remove "animated") doc) by done.
  by rewrite He.
Qed.

Lemma unobserve_all_targets this :
  targets (observer (unobserve_all this))
  = targets (observer this) ∖ list_to_set (elements this).
Proof.
  unfold unobserve_all.
  assert (∀ l this0,
    targets (observer (foldl (fun this element =>
       set_observer (Dom.unobserve element (observer this)) this) this0 l))
    = targets (observer this0) ∖ list_to_set l) as H.
  { induction l as [|e l IH]; intros this0; simpl.
    - apply set_eq. intros x. rewrite elem_of_difference, elem_of_empty. tauto.
    - rewrite IH. simpl. apply set_eq. intros x.
      rewrite !elem_of_difference, elem_of_union, elem_of_singleton. tauto. }
  apply H.
Qed.

Lemma unobserve_all_rest this :
  options (unobserve_all this) = options this
  ∧ elements (unobserve_all this) = elements this.
Proof.
  unfold unobserve_all.
  assert (∀ l this0,
    let this' := foldl (fun this element =>
       set_observer (Dom.unobserve element (observer this)) this) this0 l in
    options this' = options this0 ∧ elements this' = elements this0) as H.
  { induction l as [|e l IH]; intros this0; simpl; [done|].
    by destruct (IH (set_observer (Dom.unobserve e (observer this0)) this0))
      as [-> ->]. }
  apply H.
Qed.

Lemma init_subscribed opts pg : subscribed (init opts pg).
Proof.
  rewrite init_spec. split; simpl; [|done].
  unfold Dom.querySelectorAll. by rewrite delays_select.
Qed.

Lemma handleIntersection_targets this pg entries :
  targets (observer (handleIntersection this entries pg).1)
  ⊆ targets (observer this).
Proof.
  unfold handleIntersection. revert this pg.
  induction entries as [|entry entries IH]; intros this pg; cbn [foldl];
    [done|].
  pose proof (handle_entry_targets this pg entry) as H.
  destruct (handle_entry (this, pg) entry) as [this' pg'].
  etrans; [apply IH|done].
Qed.

Lemma step_subscribed st ev : subscribed st -> subscribed (step st ev).
Proof.
  destruct st as [this pg]. intros [He Ht]. cbn [fst snd] in He, Ht.
  destruct ev as [y| |entries|]; cbn [step fst snd].
  - split; cbn [fst snd]; [|done]. by rewrite dispatch_scroll_document.
  - split; cbn [fst snd]; [|done].
    by rewrite (select_same_erase _ _ _ (run_frame_erase pg)).
  - destruct (batch_frame this pg entries) as (_ & Hd & _ & Hel & _).
    split.
    + by rewrite Hel, (select_same_unmarked _ _ _ Hd).
    + rewrite Hel. etrans; [apply handleIntersection_targets|done].
  - rewrite refresh_spec. apply init_subscribed.
Qed.

Lemma run_subscribed st evs : subscribed st -> subscribed (run st evs).
Proof.
  unfold run. revert st. induction evs as [|ev evs IH]; intros st H; simpl;
    [done|]. by apply IH, step_subscribed.
Qed.

(** Property X12.  Whatever events happened since the controller was
    constructed, [refresh()] leaves the watcher it abandons with no
    target, so that watcher never notifies again; the new watcher watches
    every watched element of the document, those that single-shot mode
    had stopped watching included; and the controller keeps its options
    and its elements, and no element gains or loses its revealed mark. *)
Theorem refresh_resubscribes arg doc y evs :
  let st := run (new_ScrollAnimator arg (load doc y)) evs in
  refresh st.1 st.2 = init (options (unobserve_all st.1)) st.2
  ∧ targets (observer (unobserve_all st.1)) = ∅
  ∧ options (refresh st.1 st.2).1 = options st.1
  ∧ elements (refresh st.1 st.2).1 = elements st.1
  ∧ targets (observer (refresh st.1 st.2).1) = list_to_set (elements st.1)
  ∧ (∀ n, revealed (document (refresh st.1 st.2).2) n
          ↔ revealed (document st.2) n).
Proof.
  intros st.
  assert (subscribed st) as [He Ht].
  { apply run_subscribed. unfold new_ScrollAnimator. apply init_subscribed. }
  split; [done|]. split.
  { rewrite unobserve_all_targets. apply set_eq. intros x.
    rewrite elem_of_difference, elem_of_empty. split; [|done].
    intros [Hx Hnot]. by apply Hnot, Ht. }
  rewrite refresh_spec.
  split; [by rewrite init_spec|].
  split; [by rewrite init_spec|].
  split; [by rewrite init_spec; simpl; rewrite <- He|].
  intros n. apply init_revealed.
Qed.

End RefreshMore.

Section NestedMore.

Implicit Types (doc : Document) (el : Element) (pg : Page)
  (this : ScrollAnimator).

Lemma closest_within_fmap fuel sel (f : Element -> Element) doc n :
  (∀ el, Dom.matches sel (f el) = Dom.matches sel el) ->
  (∀ el, parentElement (f el) = parentElement el) ->
  Dom.closest_within fuel sel (f <$> doc) n = Dom.closest_within fuel sel doc n.
Proof.
  intros Hm Hp. revert n. induction fuel as [|fuel IH]; intros n; simpl; [done|].
  rewrite list_lookup_fmap. destruct (doc !! n) as [el|]; simpl; [|done].
  rewrite Hm, Hp. destruct (Dom.matches sel el); [done|].
  destruct (parentElement el); [apply IH|done].
Qed.

Lemma closest_same_fmap sel (f : Element -> Element) doc doc' n :
  (∀ el, Dom.matches sel (f el) = Dom.matches sel el) ->
  (∀ el, parentElement (f el) = parentElement el) ->
  f <$> doc' = f <$> doc ->
  Dom.closest sel doc' n = Dom.closest sel doc n.
Proof.
  intros Hm Hp He. unfold Dom.closest.
  assert (length doc' = length doc) as ->.
  { apply (f_equal length) in He. by rewrite !length_fmap in He. }
  by rewrite <- (closest_within_fmap _ sel f doc' n Hm Hp), He,
    closest_within_fmap.
Qed.

Lemma initialised_matches sel el :
  Dom.matches sel (initialised el) = Dom.matches sel el.
Proof.
  unfold initialised. case_bool_decide; [apply matches_apply_delay|done].
Qed.

Lemma initialised_parent el : parentElement (initialised el) = parentElement el.
Proof.
  unfold initialised, apply_delay. case_bool_decide; [|done].
  destruct (Dom.getAttribute _ el) as [delay|]; [|done].
  by destruct (Js.truthy delay).
Qed.

Lemma frame_callback_left_alone n el i pg :
  left_alone n el pg -> left_alone n el (frame_callback i pg).2.
Proof.
  intros [Hel Hsk].
  destruct (frame_callback_spec i pg) as (pg' & E & F & ->).
  destruct (updateParallax_frame pg) as (pg'' & E' & _ & _ & _ & _ & _ & Hkeep).
  assert (pg'' = pg') as -> by congruence.
  destruct F as (_ & _ & _ & Her). split; simpl.
  - apply Hkeep; auto.
  - by rewrite (skips_erase _ _ _ _ Her).
Qed.

Lemma run_frame_left_alone n el pg :
  left_alone n el pg -> left_alone n el (run_frame pg).
Proof.
  intros H. unfold run_frame.
  assert (left_alone n el (set_frameRequests [] pg)) as H0 by done.
  revert H0. generalize (set_frameRequests [] pg) as pg0.
  induction (frameRequests pg) as [|i l IH]; intros pg0 H0; simpl; [done|].
  by apply IH, frame_callback_left_alone.
Qed.

Lemma step_left_alone n el st ev :
  ¬ watched el ->
  match ev with
  | Intersection entries => deliverable (observer st.1) entries
  | _ => True
  end ->
  subscribed st -> left_alone n el st.2 -> left_alone n el (step st ev).2.
Proof.
  destruct st as [this pg]. cbn [fst snd].
  intros Hnw Hdel [Hels Htg] [Hel Hsk]. cbn [fst snd] in Hels, Htg.
  destruct ev as [y| |entries|]; cbn [step fst snd].
  - split; by rewrite dispatch_scroll_document.
  - by apply run_frame_left_alone.
  - destruct (batch_frame this pg entries) as (Hout & Hd & _).
    assert (n ∉ elements this) as Hn.
    { rewrite Hels, querySelectorAll_spec. intros (el' & Hl & Hm).
      apply watched_matches in Hm. by simplify_eq. }
    assert (document (handleIntersection this entries pg).2 !! n = Some el)
      as Hel'.
    { rewrite Hout; [done|]. intros entry Hin Heq. apply Hn.
      rewrite <- Heq.
      apply (elem_of_list_to_set (C := gset nat)), Htg. by apply Hdel. }
    split; [done|]. unfold skips in *.
    by rewrite (closest_same_fmap (Dom.HasAttribute "data-scroll")
                  (Dom.classList_remove "animated") _ _ n
                  (fun _ => eq_refl) (fun _ => eq_refl) Hd).
  - rewrite refresh_spec.
    assert (initialised el = el) as Hi.
    { unfold initialised. by rewrite bool_decide_eq_false_2. }
    split; rewrite init_document_fmap.
    + by rewrite list_lookup_fmap, Hel; simpl; rewrite Hi.
    + unfold skips in *. unfold Dom.closest in *.
      by rewrite length_fmap,
        (closest_within_fmap _ _ initialised _ n
           (initialised_matches _) initialised_parent).
Qed.

Lemma run_left_alone n el st evs :
  ¬ watched el ->
  deliverable_run st evs ->
  subscribed st -> left_alone n el st.2 -> left_alone n el (run st evs).2.
Proof.
  intros Hnw. unfold run. revert st.
  induction evs as [|ev evs IH]; intros st Hdel Hsub H; simpl; [done|].
  destruct Hdel as [Hd Hrest].
  apply IH; [done|by apply step_subscribed|by apply step_left_alone].
Qed.

(** Property X14.  An element that is not itself watched, lies in a
    watched element and does not carry the revealed mark when the page is
    loaded is never touched by the script: whatever scrolls, display
    refreshes, calls of [refresh()] and batches on the watcher's targets
    follow the construction of the controller, the element is exactly as
    loaded, so a triangle in that position is never moved and never
    marked. *)
Theorem nested_element_never_changes arg doc y evs n el :
  doc !! n = Some el ->
  ¬ watched el ->
  skips doc n el = true ->
  deliverable_run (new_ScrollAnimator arg (load doc y)) evs ->
  document (run (new_ScrollAnimator arg (load doc y)) evs).2 !! n = Some el
  ∧ ¬ revealed (document (run (new_ScrollAnimator arg (load doc y)) evs).2) n.
Proof.
  intros Hel Hnw Hsk Hdel.
  assert (initialised el = el) as Hi.
  { unfold initialised. by rewrite bool_decide_eq_false_2. }
  assert (left_alone n el (new_ScrollAnimator arg (load doc y)).2) as H0.
  { unfold new_ScrollAnimator. split; rewrite init_document_fmap; simpl.
    - by rewrite list_lookup_fmap, Hel; simpl; rewrite Hi.
    - unfold skips in *. unfold Dom.closest in *.
      by rewrite length_fmap,
        (closest_within_fmap _ _ initialised _ n
           (initialised_matches _) initialised_parent). }
  destruct (run_left_alone n el _ evs Hnw Hdel
              (init_subscribed _ _) H0) as [Hl Hs].
  split; [done|]. intros (el' & Hl' & Hin). simplify_eq.
  unfold skips, Dom.contains in Hs.
  apply andb_true_iff in Hs as [_ Hs].
  by rewrite negb_true_iff, bool_decide_eq_false in Hs.
Qed.

Lemma nested_element_never_changes_witness :
  let doc := [host; nested_triangle] in
  let evs := [Intersection [notification (2 / 10) 1 0%nat]; Scroll 100;
              AnimationFrame; Refresh; Scroll 40; AnimationFrame] in
  let st := run (new_ScrollAnimator no_options (load doc 0)) evs in
  doc !! 1%nat = Some nested_triangle
  ∧ ¬ watched nested_triangle
  ∧ skips doc 1 nested_triangle = true
  ∧ deliverable_run (new_ScrollAnimator no_options (load doc 0)) evs
  ∧ document st.2 !! 1%nat = Some nested_triangle
  ∧ ¬ revealed (document st.2) 1.
Proof.
  cbn zeta.
  assert (¬ watched nested_triangle) as Hnw.
  { intros [v Hv]. done. }
  assert (deliverable_run
            (new_ScrollAnimator no_options (load [host; nested_triangle] 0))
            [Intersection [notification (2 / 10) 1 0%nat]; Scroll 100;
             AnimationFrame; Refresh; Scroll 40; AnimationFrame]) as Hdel.
  { cbn [deliverable_run]. split_and!; try done.
    intros entry ->%list_elem_of_singleton. simpl.
    apply elem_of_union. right. by apply elem_of_singleton. }
  split; [reflexivity|]. split; [exact Hnw|]. split; [reflexivity|].
  split; [exact Hdel|].
  exact (nested_element_never_changes no_options [host; nested_triangle] 0
           [Intersection [notification (2 / 10) 1 0%nat]; Scroll 100;
            AnimationFrame; Refresh; Scroll 40; AnimationFrame]
           1 nested_triangle eq_refl Hnw eq_refl Hdel).
Defined.

End NestedMore.
